(** * Game of Life on an auto-resizing grid: a shallow embedding of
    [chargepoint_demo.py] and the properties of its grid engine.

    Python integers are [Z]; Python lists are Rocq lists indexed with the
    interpreter's rules (negative indices count from the end, an index out
    of range raises [IndexError]); a method that can raise returns a
    [result].  Methods that read or mutate [self] take the object as an
    explicit argument and return the updated object. *)

From Stdlib Require Import ZArith Ascii String Lia Bool.
From stdpp Require Import base tactics option list numbers.

Open Scope Z_scope.

(** ** Exceptions and the error monad *)

Inductive exn : Type :=
| BaseException (msg : string)
| IndexError.

Inductive result (A : Type) : Type :=
| Ok (a : A)
| Raise (e : exn).
Arguments Ok {A} a.
Arguments Raise {A} e.

#[global] Instance result_ret : MRet result := fun A a => Ok a.
#[global] Instance result_bind : MBind result := fun A B f m =>
  match m with
  | Ok a => f a
  | Raise e => Raise e
  end.

Definition succeeds {A} (m : result A) : Prop := exists a, m = Ok a.

(** ** Python list primitives *)

Definition len {A} (l : list A) : Z := Z.of_nat (length l).

(** [range(n)]: empty when [n <= 0]. *)
Definition range (n : Z) : list Z := seqZ 0 n.

(** The position a subscript [l[i]] denotes: [i] itself when
    [0 <= i < len l], [len l + i] when [-len l <= i < 0], and an
    [IndexError] otherwise. *)
Definition py_index {A} (l : list A) (i : Z) : result nat :=
  if decide (0 <= i < len l) then Ok (Z.to_nat i)
  else if decide (- len l <= i < 0) then Ok (Z.to_nat (len l + i))
  else Raise IndexError.

(** [l[i]] *)
Definition py_getitem {A} (l : list A) (i : Z) : result A :=
  k ← py_index l i;
  match l !! k with
  | Some x => Ok x
  | None => Raise IndexError
  end.

(** [l[i] = v] *)
Definition py_setitem {A} (l : list A) (i : Z) (v : A) : result (list A) :=
  k ← py_index l i;
  Ok (<[k := v]> l).

(** [l.insert(i, v)]: never raises; the position is clamped to the list. *)
Definition py_insert {A} (l : list A) (i : Z) (v : A) : list A :=
  let k := if decide (i < 0) then Z.max 0 (len l + i) else Z.min i (len l) in
  take (Z.to_nat k) l ++ v :: drop (Z.to_nat k) l.

(** [l.pop(i)], keeping the list that remains. *)
Definition py_pop {A} (l : list A) (i : Z) : result (list A) :=
  k ← py_index l i;
  Ok (delete k l).

(** [filter(f, l)] forced by [list(...)], for an [f] that may raise. *)
Fixpoint filterM {A} (f : A -> result bool) (l : list A) : result (list A) :=
  match l with
  | [] => Ok []
  | x :: l' =>
      b ← f x;
      t ← filterM f l';
      Ok (if (b : bool) then x :: t else t)
  end.

(** A [for] loop whose body updates one piece of state and may raise. *)
Fixpoint foldM {A St} (body : St -> A -> result St) (s : St) (l : list A) : result St :=
  match l with
  | [] => Ok s
  | x :: l' => s' ← body s x; foldM body s' l'
  end.

(** [for i in range(n): body], the body ignoring [i]. *)
Fixpoint repeatM {St} (n : nat) (body : St -> result St) (s : St) : result St :=
  match n with
  | O => Ok s
  | S n' => s' ← body s; repeatM n' body s'
  end.

(** [not l] for a list [l]. *)
Definition is_empty {A} (l : list A) : bool :=
  match l with
  | [] => true
  | _ :: _ => false
  end.

(** ** Python string primitives used by [Pattern] *)

Definition str := list ascii.

(** [s.lstrip(ch)] and [s.rstrip(ch)] for a one-character set. *)
Fixpoint lstrip (ch : ascii) (s : str) : str :=
  match s with
  | [] => []
  | a :: s' => if Ascii.eqb a ch then lstrip ch s' else s
  end.

Fixpoint rstrip (ch : ascii) (s : str) : str :=
  match s with
  | [] => []
  | a :: s' =>
      match rstrip ch s' with
      | [] => if Ascii.eqb a ch then [] else [a]
      | t => a :: t
      end
  end.

(** [s.strip(ch)] *)
Definition strip (ch : ascii) (s : str) : str := rstrip ch (lstrip ch s).

(** [s.split(sep)] for a one-character separator: [""] splits to [[""]]. *)
Fixpoint split (sep : ascii) (s : str) : list str :=
  match s with
  | [] => [[]]
  | a :: s' =>
      if Ascii.eqb a sep then [] :: split sep s'
      else match split sep s' with
           | [] => [[a]]
           | seg :: segs => (a :: seg) :: segs
           end
  end.

(** ** GridCell and GridPoint *)

Record GridCell : Type := mkGridCell { _state : bool }.

(** [GridCell()] *)
Definition dead_cell : GridCell := mkGridCell false.

Definition fromChar (ch : ascii) : GridCell :=
  mkGridCell (negb (Ascii.eqb ch ".") && negb (Ascii.eqb ch " ")).

Definition isAlive (cell : GridCell) : bool := negb (negb (_state cell)).

Record GridPoint : Type := mkGridPoint { row : Z; col : Z; state : GridCell }.

(** [GridPoint(row, col, isAlive)] *)
Definition GridPoint_init (r c : Z) (alive : bool) : GridPoint :=
  mkGridPoint r c (mkGridCell alive).

Definition point_isAlive (p : GridPoint) : bool := isAlive (state p).

Definition point_moveBy (howmuch : Z * Z) (p : GridPoint) : GridPoint :=
  mkGridPoint (row p + fst howmuch) (col p + snd howmuch) (state p).

(** ** Pattern *)

Record Pattern : Type := mkPattern { points : list GridPoint }.

Definition _mkPoint (r c : Z) (val : ascii) : GridPoint :=
  GridPoint_init r c (isAlive (fromChar val)).

(** [Pattern(pattern)]: one point per character of every row segment. *)
Definition Pattern_init (pattern : str) : Pattern :=
  let rows := split "/" (strip "/" pattern) in
  let all_points :=
    imap (fun r seg =>
            imap (fun c val => _mkPoint (Z.of_nat r) (Z.of_nat c) val) seg)
         rows in
  mkPattern (concat all_points).

Definition getPoints (p : Pattern) : list GridPoint := points p.

Definition Pattern_getExtent (p : Pattern) : Z * Z :=
  fold_left (fun acc q => (Z.max (fst acc) (row q), Z.max (snd acc) (col q)))
            (points p) (0, 0).

Definition Pattern_moveBy (howmuch : Z * Z) (p : Pattern) : Pattern :=
  mkPattern (map (point_moveBy howmuch) (points p)).

(** ** Grid *)

(** The four-element [margins] list, in the order the code indexes it:
    [margins[0]] north, [margins[1]] east, [margins[2]] south,
    [margins[3]] west. *)
Record Margins : Type := mkMargins { mN : Z; mE : Z; mS : Z; mW : Z }.

(** [rows] is the list of row lists; [extent] is the two-element list
    [[rowCount, colCount]] the object stores next to it.  Cells are never
    mutated in place (the program never calls [GridCell.set]), so the
    sharing of one cell object inside [[GridCell()] * n] is not observable
    and cells are values. *)
Record Grid : Type := mkGrid {
  rows : list (list GridCell);
  extent : Z * Z;
  margins : Margins
}.

Definition directions : list (Z * Z) :=
  [(-1, -1); (-1, 0); (-1, 1); (0, -1); (0, 1); (1, -1); (1, 0); (1, 1)].

Definition Grid_init (gridType : string) (ext : Z * Z) (m : Margins) : result Grid :=
  if negb (String.eqb gridType "inf") then
    Raise (BaseException "bad grid type, only inf is allowed.")
  else if existsb (fun x => x <? 1) [mN m; mE m; mS m; mW m] then
    Raise (BaseException "bad grid margins, minimum 1 on each side needed!")
  else if (fst ext <? mN m + mS m) || (snd ext <? mE m + mW m) then
    Raise (BaseException "bad grid extents, must be larger than margins!!")
  else
    Ok (mkGrid (map (fun _ => replicate (Z.to_nat (snd ext)) dead_cell)
                    (range (fst ext)))
               ext m).

Definition Grid_getExtent (g : Grid) : Z * Z := extent g.

(** [self.rows[r][c].isAlive()] *)
Definition isCellAlive (g : Grid) (r c : Z) : result bool :=
  line ← py_getitem (rows g) r;
  cell ← py_getitem line c;
  Ok (isAlive cell).

(** [getCell]: the bare [except] turns every failure of the double
    subscript into a dead cell. *)
Definition getCell (g : Grid) (r c : Z) : GridCell :=
  match (line ← py_getitem (rows g) r; py_getitem line c) with
  | Ok cell => cell
  | Raise _ => dead_cell
  end.

Definition _countNeighborsCell (g : Grid) (r0 c0 : Z) : Z :=
  len (filter (fun s => isAlive (getCell g (fst s + r0) (snd s + c0)) = true)
              directions).

Definition countNeighborsForRow (g : Grid) (r : Z) : list Z :=
  map (fun c => _countNeighborsCell g r c) (range (snd (extent g))).

(** [self.rows[r]] replaced by [f(self.rows[r])]: the row list is looked
    up by subscript and then mutated in place. *)
Definition update_row (rs : list (list GridCell)) (r : Z)
    (f : list GridCell -> result (list GridCell)) : result (list (list GridCell)) :=
  k ← py_index rs r;
  match rs !! k with
  | Some line => line' ← f line; Ok (<[k := line']> rs)
  | None => Raise IndexError
  end.

Definition set_rows (g : Grid) (rs : list (list GridCell)) : Grid :=
  mkGrid rs (extent g) (margins g).

Definition set_extent0 (g : Grid) (n : Z) : Grid :=
  mkGrid (rows g) (n, snd (extent g)) (margins g).

Definition set_extent1 (g : Grid) (n : Z) : Grid :=
  mkGrid (rows g) (fst (extent g), n) (margins g).

(** *** Margin maintenance *)

Definition __testRowIsDead (g : Grid) (r : Z) : result bool :=
  live ← filterM (fun c => isCellAlive g r c) (range (snd (extent g)));
  Ok (is_empty live).

Definition __testColumnIsDead (g : Grid) (c : Z) : result bool :=
  live ← filterM (fun r => isCellAlive g r c) (range (fst (extent g)));
  Ok (is_empty live).

(** [while (i < bound) and dead(i): i += 1].  The recursion is on the
    loop's variant [bound - i]: when it is exhausted the guard [i < bound]
    is false and the loop has ended. *)
Fixpoint scan_inc (variant : nat) (bound : Z) (dead : Z -> result bool) (i : Z)
    : result Z :=
  match variant with
  | O => Ok i
  | S v =>
      if i <? bound then
        d ← dead i;
        if (d : bool) then scan_inc v bound dead (i + 1) else Ok i
      else Ok i
  end.

Definition while_inc (bound : Z) (dead : Z -> result bool) (i : Z) : result Z :=
  scan_inc (Z.to_nat (bound - i)) bound dead i.

(** [while (i < bound) and (i > low) and dead(i): i -= 1], by recursion
    on the variant [i - low]. *)
Fixpoint scan_dec (variant : nat) (bound low : Z) (dead : Z -> result bool) (i : Z)
    : result Z :=
  match variant with
  | O => Ok i
  | S v =>
      if (i <? bound) && (i >? low) then
        d ← dead i;
        if (d : bool) then scan_dec v bound low dead (i - 1) else Ok i
      else Ok i
  end.

Definition while_dec (bound low : Z) (dead : Z -> result bool) (i : Z) : result Z :=
  scan_dec (Z.to_nat (i - low)) bound low dead i.

(** Returns [(deficit_N, deficit_E, deficit_S, deficit_W)]. *)
Definition __computeDeficits (g : Grid) : result (Z * Z * Z * Z) :=
  let e0 := fst (extent g) in
  let e1 := snd (extent g) in
  top ← while_inc e0 (__testRowIsDead g) 0;
  bottom ← while_dec e0 top (__testRowIsDead g) (e0 - 1);
  left ← while_inc e1 (__testColumnIsDead g) 0;
  right ← while_dec e1 left (__testColumnIsDead g) (e1 - 1);
  let deficit_N := mN (margins g) - top in
  let deficit_E := mE (margins g) - (e1 - right - 1) in
  let deficit_S := mS (margins g) - (e0 - bottom - 1) in
  let deficit_W := mW (margins g) - left in
  Ok (deficit_N, deficit_E, deficit_S, deficit_W).

Definition __addARow (g : Grid) (i : Z) : Grid :=
  set_rows g (py_insert (rows g) i
                (replicate (Z.to_nat (snd (extent g))) dead_cell)).

Definition __trimARow (g : Grid) (i : Z) : result Grid :=
  rs ← py_pop (rows g) i;
  Ok (set_rows g rs).

Definition __addAColumn (g : Grid) (i : Z) : result Grid :=
  rs ← foldM (fun rs r => update_row rs r (fun line => Ok (py_insert line i dead_cell)))
             (rows g) (range (fst (extent g)));
  Ok (set_rows g rs).

Definition __trimAColumn (g : Grid) (i : Z) : result Grid :=
  rs ← foldM (fun rs r => update_row rs r (fun line => py_pop line i))
             (rows g) (range (fst (extent g)));
  Ok (set_rows g rs).

(** [self.extent[1] = len(self.rows[0])] *)
Definition refresh_extent1 (g : Grid) : result Grid :=
  line ← py_getitem (rows g) 0;
  Ok (set_extent1 g (len line)).

Definition _maintainMargin (g : Grid) (trim_now : bool) : result Grid :=
  '(deficit_N, deficit_E, deficit_S, deficit_W) ← __computeDeficits g;
  (* rows, north end *)
  g ← repeatM (Z.to_nat (Z.abs deficit_N))
        (fun g => if deficit_N >? 0 then Ok (__addARow g 0)
                  else if trim_now then __trimARow g 0
                  else Ok g) g;
  let g := set_extent0 g (len (rows g)) in
  (* rows, south end *)
  g ← repeatM (Z.to_nat (Z.abs deficit_S))
        (fun g => if deficit_S >? 0 then Ok (__addARow g (len (rows g)))
                  else if trim_now then __trimARow g (len (rows g) - 1)
                  else Ok g) g;
  let g := set_extent0 g (len (rows g)) in
  (* columns, west end first *)
  g ← repeatM (Z.to_nat (Z.abs deficit_W))
        (fun g => if deficit_W >? 0 then __addAColumn g 0
                  else if trim_now then __trimAColumn g 0
                  else Ok g) g;
  g ← refresh_extent1 g;
  (* columns, east end *)
  g ← repeatM (Z.to_nat (Z.abs deficit_E))
        (fun g => if deficit_E >? 0 then
                    line ← py_getitem (rows g) 0; __addAColumn g (len line)
                  else if trim_now then
                    line ← py_getitem (rows g) 0; __trimAColumn g (len line - 1)
                  else Ok g) g;
  refresh_extent1 g.

(** [self.rows[x.row][x.col] = x.state] *)
Definition set_point (g : Grid) (x : GridPoint) : result Grid :=
  rs ← update_row (rows g) (row x) (fun line => py_setitem line (col x) (state x));
  Ok (set_rows g rs).

Definition applyPoints (g : Grid) (pts : list GridPoint) (trim_now : bool) : result Grid :=
  g ← foldM set_point g pts;
  _maintainMargin g trim_now.

Definition seedPattern (g : Grid) (initialPattern : str) (initialLocation : string)
    : result Grid :=
  if negb (String.eqb initialLocation "center") then
    Raise (BaseException "bad pattern location!")
  else
    let p := Pattern_init initialPattern in
    let pextent := Pattern_getExtent p in
    let moveBy := ((fst (extent g) - fst pextent) `div` 2,
                   (snd (extent g) - snd pextent) `div` 2) in
    let p := Pattern_moveBy moveBy p in
    applyPoints g (getPoints p) false.

(** ** GameOfLife *)

Record GameOfLife : Type := mkGameOfLife { g : Grid; tickCount : Z }.

Definition GameOfLife_init (ext : Z * Z) (m : Margins) (initialPattern : str)
    : result GameOfLife :=
  g ← Grid_init "inf" ext m;
  g ← seedPattern g initialPattern "center";
  Ok (mkGameOfLife g 0).

Definition __dieTest (gm : GameOfLife) (rownum ncount colnum : Z) : result bool :=
  if negb ((2 <=? ncount) && (ncount <=? 3)) then isCellAlive (g gm) rownum colnum
  else Ok false.

Definition __birthTest (gm : GameOfLife) (rownum ncount colnum : Z) : result bool :=
  if 3 =? ncount then alive ← isCellAlive (g gm) rownum colnum; Ok (negb alive)
  else Ok false.

Definition _determineTransitions (gm : GameOfLife) (rownum : Z) (neighbors : list Z)
    : result (list GridPoint) :=
  foldM (fun census colnum =>
           ncount ← py_getitem neighbors colnum;
           die ← __dieTest gm rownum ncount colnum;
           if (die : bool) then Ok (census ++ [GridPoint_init rownum colnum false])
           else
             birth ← __birthTest gm rownum ncount colnum;
             if (birth : bool) then Ok (census ++ [GridPoint_init rownum colnum true])
             else Ok census)
        [] (range (len neighbors)).

(** The loop of [tick] that collects the transitions, row by row. *)
Definition collect_transitions (gm : GameOfLife) : result (list GridPoint) :=
  let '(rowcount, colcount) := Grid_getExtent (g gm) in
  foldM (fun transitions rownum =>
           let neighbors := countNeighborsForRow (g gm) rownum in
           row_census ← _determineTransitions gm rownum neighbors;
           if is_empty row_census then Ok transitions
           else Ok (transitions ++ row_census))
        [] (range rowcount).

(** The truth value of [self.tickCount and self.tickCount % 5 == 0]. *)
Definition trim_flag (tickCount : Z) : bool :=
  if tickCount =? 0 then false else tickCount `mod` 5 =? 0.

Definition tick (gm : GameOfLife) : result GameOfLife :=
  transitions ← collect_transitions gm;
  g' ← applyPoints (g gm) transitions (trim_flag (tickCount gm));
  Ok (mkGameOfLife g' (tickCount gm + 1)).

(** ** Specification-level notions

    These are not part of the program: they are the vocabulary in which
    its properties are stated. *)

(** The literal "XXX" etc. of the source as a Python string. *)
Definition py_str (s : string) : str := list_ascii_of_string s.

(** The liveness of column [c] of one row, dead outside the row. *)
Definition row_alive (line : list GridCell) (c : Z) : bool :=
  if decide (0 <= c) then
    match line !! Z.to_nat c with
    | Some cell => isAlive cell
    | None => false
    end
  else false.

(** The liveness of coordinate [(r, c)], dead outside the array: the
    total lookup the specification describes. *)
Definition alive_at (rs : list (list GridCell)) (r c : Z) : bool :=
  if decide (0 <= r) then
    match rs !! Z.to_nat r with
    | Some line => row_alive line c
    | None => false
    end
  else false.

(** A list of rows is an [nr] x [nc] rectangle. *)
Definition rect (rs : list (list GridCell)) (nr nc : Z) : Prop :=
  len rs = nr /\ 0 <= nc /\ Forall (fun line => len line = nc) rs.

Definition row_dead (rs : list (list GridCell)) (r : Z) : Prop :=
  forall c, alive_at rs r c = false.

Definition col_dead (rs : list (list GridCell)) (c : Z) : Prop :=
  forall r, alive_at rs r c = false.

(** What the four scans of [__computeDeficits] find on an [nr] x [nc]
    array: [top] and [left] are the first live row and column (or [nr],
    [nc] when there is none), every row after [bottom] and every column
    after [right] is dead, and the backward scans stop at [top], [left]. *)
Definition live_bounds (rs : list (list GridCell)) (nr nc top bottom left right : Z)
    : Prop :=
  (0 <= top <= nr /\ (forall r, r < top -> row_dead rs r) /\
   (top < nr -> ~ row_dead rs top)) /\
  (top - 1 <= bottom <= nr - 1 /\ (forall r, bottom < r -> row_dead rs r)) /\
  (0 <= left <= nc /\ (forall c, c < left -> col_dead rs c) /\
   (left < nc -> ~ col_dead rs left)) /\
  (left - 1 <= right <= nc - 1 /\ (forall c, right < c -> col_dead rs c)).

(** [gr'] is [gr] with [dnr] rows and [dnc] columns more, its content
    moved down by [dr] and right by [dc]; [nr] x [nc] are the dimensions
    of [gr]. *)
Definition moves (nr nc : Z) (gr gr' : Grid) (dnr dnc dr dc : Z) : Prop :=
  extent gr' = extent gr /\ margins gr' = margins gr /\
  rect (rows gr') (nr + dnr) (nc + dnc) /\
  forall r c, alive_at (rows gr') r c = alive_at (rows gr) (r - dr) (c - dc).

(** The grid's core invariant: [extent] equals the array's dimensions. *)
Definition well_formed (gr : Grid) : Prop :=
  rect (rows gr) (fst (extent gr)) (snd (extent gr)).

Definition margins_ok (m : Margins) : Prop :=
  1 <= mN m /\ 1 <= mE m /\ 1 <= mS m /\ 1 <= mW m.

(** Every live cell keeps the configured distance from each edge. *)
Definition margin_respected (gr : Grid) : Prop :=
  forall r c, alive_at (rows gr) r c = true ->
    mN (margins gr) <= r < fst (extent gr) - mS (margins gr) /\
    mW (margins gr) <= c < snd (extent gr) - mE (margins gr).

Definition grid_inv (gr : Grid) : Prop :=
  well_formed gr /\ margins_ok (margins gr) /\ margin_respected gr.

Definition all_dead (gr : Grid) : Prop :=
  forall r c, alive_at (rows gr) r c = false.

Definition b2z (b : bool) : Z := if b then 1 else 0.

(** Live cells among the eight Moore neighbours of [(r, c)] for a
    liveness function [f]. *)
Definition moore_count (f : Z -> Z -> bool) (r c : Z) : Z :=
  b2z (f (r - 1) (c - 1)) + b2z (f (r - 1) c) + b2z (f (r - 1) (c + 1)) +
  b2z (f r (c - 1)) + b2z (f r (c + 1)) +
  b2z (f (r + 1) (c - 1)) + b2z (f (r + 1) c) + b2z (f (r + 1) (c + 1)).

(** The index a subscript [i] reads in a list of length [n] when it is
    in [[-n, 0)]; other subscripts are left as they are. *)
Definition py_norm (n i : Z) : Z := if decide (- n <= i < 0) then n + i else i.

(** The transition, if any, that the rule prescribes for cell [(r, c)]
    of the board [f]. *)
Definition transition_of (f : Z -> Z -> bool) (r c : Z) : list GridPoint :=
  let n := moore_count f r c in
  if negb ((2 <=? n) && (n <=? 3)) && f r c then [GridPoint_init r c false]
  else if (3 =? n) && negb (f r c) then [GridPoint_init r c true]
  else [].

Definition row_transitions (f : Z -> Z -> bool) (nc r : Z) : list GridPoint :=
  concat (map (transition_of f r) (range nc)).

Definition all_transitions (f : Z -> Z -> bool) (nr nc : Z) : list GridPoint :=
  concat (map (row_transitions f nc) (range nr)).

(** Conway's rule. *)
Definition life_rule (alive : bool) (n : Z) : bool :=
  if alive then (2 <=? n) && (n <=? 3) else n =? 3.

(** The board after one generation, every cell recomputed from the
    snapshot [f] of the previous generation. *)
Definition next_generation (f : Z -> Z -> bool) (nrows ncols : Z)
    : list (list GridCell) :=
  map (fun r =>
         map (fun c => mkGridCell (life_rule (f r c) (moore_count f r c)))
             (range ncols))
      (range nrows).

(** Reference tick: snapshot the grid, compute every count from the
    snapshot, then mutate and maintain the margins. *)
Definition tick_reference (gm : GameOfLife) : result GameOfLife :=
  let snapshot := alive_at (rows (g gm)) in
  let board := next_generation snapshot (fst (extent (g gm))) (snd (extent (g gm))) in
  g' ← _maintainMargin (set_rows (g gm) board) (trim_flag (tickCount gm));
  Ok (mkGameOfLife g' (tickCount gm + 1)).

(** The game states a run can be in: after construction, and after any
    number of ticks. *)
Inductive reachable : GameOfLife -> Prop :=
| reach_init ext m pat gm :
    GameOfLife_init ext m pat = Ok gm -> reachable gm
| reach_tick gm gm' :
    reachable gm -> tick gm = Ok gm' -> reachable gm'.

(** The signed change margin maintenance makes on one side for a deficit
    [d]: growth is unconditional, shrinking waits for [trim_now]. *)
Definition adjustment (trim_now : bool) (d : Z) : Z :=
  if d >? 0 then d else if trim_now then d else 0.

(** The horizontal and the vertical phase of a blinker centred at
    [(r0, c0)]. *)
Definition blinker_h (r0 c0 r c : Z) : bool :=
  (r =? r0) && (c0 - 1 <=? c) && (c <=? c0 + 1).

Definition blinker_v (r0 c0 r c : Z) : bool :=
  (c =? c0) && (r0 - 1 <=? r) && (r <=? r0 + 1).

(** The default game of the source's [GameOfLife] signature (a 10 x 20
    grid with margins 2, 3, 2, 3) seeded with the blinker. *)
Definition blinker_game : GameOfLife :=
  Eval vm_compute in
    match GameOfLife_init (10, 20) (mkMargins 2 3 2 3) (py_str "XXX") with
    | Ok gm => gm
    | Raise _ => mkGameOfLife (mkGrid [] (0, 0) (mkMargins 1 1 1 1)) 0
    end.

(** The blinker game after one and after two ticks. *)
Definition blinker_game_1 : GameOfLife :=
  Eval vm_compute in
    match tick blinker_game with
    | Ok gm => gm
    | Raise _ => blinker_game
    end.

Definition blinker_game_2 : GameOfLife :=
  Eval vm_compute in
    match tick blinker_game_1 with
    | Ok gm => gm
    | Raise _ => blinker_game
    end.

(** A dead 3 x 3 grid with margins of 1, and what [applyPoints] makes of
    it when one point sets its top-left corner alive. *)
Definition corner_grid : Grid :=
  mkGrid (replicate 3 (replicate 3 dead_cell)) (3, 3) (mkMargins 1 1 1 1).

Definition corner_grid_applied : Grid :=
  Eval vm_compute in
    match applyPoints corner_grid [GridPoint_init 0 0 true] true with
    | Ok gr => gr
    | Raise _ => corner_grid
    end.

(** The dead 10 x 20 grid with margins 2, 3, 2, 3. *)
Definition dead_grid : Grid :=
  mkGrid (replicate 10 (replicate 20 dead_cell)) (10, 20) (mkMargins 2 3 2 3).

(** The 3 x 3 grid with margins of 1 whose only live cell is the first
    cell of the last row: [corner_grid] after [rows[-1][-3]] is set and
    before the margins are maintained.  [edge_grid_grown] is what margin
    maintenance without trimming makes of it. *)
Definition edge_grid : Grid :=
  set_rows corner_grid
    [replicate 3 dead_cell; replicate 3 dead_cell;
     [mkGridCell true; dead_cell; dead_cell]].

Definition edge_grid_grown : Grid :=
  Eval vm_compute in
    match _maintainMargin edge_grid false with
    | Ok gr => gr
    | Raise _ => edge_grid
    end.

(** What a double subscript [rows[r][c]] reads in the grid [gr], as a
    total function: the cell the interpreter's index rules select, dead
    where they raise. *)
Definition wrapped_alive (gr : Grid) (r c : Z) : bool :=
  alive_at (rows gr) (py_norm (fst (extent gr)) r) (py_norm (snd (extent gr)) c).

(** The subscripts a list of length [n] accepts. *)
Definition subscript_ok (n i : Z) : Prop := - n <= i < n.

(** One generation of Conway's Life on the unbounded plane. *)
Definition life_step (f : Z -> Z -> bool) : Z -> Z -> bool :=
  fun r c => life_rule (f r c) (moore_count f r c).

Fixpoint life_steps (n : nat) (f : Z -> Z -> bool) : Z -> Z -> bool :=
  match n with
  | O => f
  | S n' => life_steps n' (life_step f)
  end.

(** [n] successive calls of [tick] on one game object. *)
Definition ticks (n : nat) (gm : GameOfLife) : result GameOfLife :=
  repeatM n tick gm.

(** The cells a notation describes, row segment by row segment. *)
Definition pattern_cells (pattern : str) : list (list GridCell) :=
  map (map fromChar) (split "/" (strip "/" pattern)).

(** Reading a notation one character at a time from position [(r, c)]:
    "/" moves to column 0 of the next row, any other character is the
    point at the current position, dead for "." and for a space, and
    moves one column on. *)
Fixpoint scan_points (r c : Z) (s : str) : list GridPoint :=
  match s with
  | [] => []
  | ch :: s' =>
      if Ascii.eqb ch "/" then scan_points (r + 1) 0 s'
      else mkGridPoint r c (mkGridCell (negb (Ascii.eqb ch ".") && negb (Ascii.eqb ch " ")))
             :: scan_points r (c + 1) s'
  end.

(** * Properties *)

(** ** The error monad *)

Lemma bind_Ok {A B} (m : result A) (f : A -> result B) (b : B) :
  (m ≫= f) = Ok b -> exists a, m = Ok a /\ f a = Ok b.
Proof. destruct m as [a|e]; simpl; [eauto | discriminate]. Qed.

Lemma bind_Ok_l {A B} (a : A) (f : A -> result B) : (Ok a ≫= f) = f a.
Proof. reflexivity. Qed.

(** ** Pattern parsing *)

Lemma lstrip_replicate ch n s : lstrip ch (replicate n ch ++ s) = lstrip ch s.
Proof.
  induction n as [|n IH]; simpl; [reflexivity|].
  now rewrite Ascii.eqb_refl.
Qed.

Lemma rstrip_replicate ch n : rstrip ch (replicate n ch) = [].
Proof.
  induction n as [|n IH]; simpl; [reflexivity|].
  now rewrite IH, Ascii.eqb_refl.
Qed.

Lemma rstrip_app_replicate ch n s : rstrip ch (s ++ replicate n ch) = rstrip ch s.
Proof.
  induction s as [|a s IH]; simpl.
  - apply rstrip_replicate.
  - now rewrite IH.
Qed.

Lemma lstrip_app_replicate ch n s :
  lstrip ch (s ++ replicate n ch) =
  match lstrip ch s with
  | [] => []
  | t => t ++ replicate n ch
  end.
Proof.
  induction s as [|a s IH]; simpl.
  - rewrite <- (app_nil_r (replicate n ch)), lstrip_replicate. reflexivity.
  - destruct (Ascii.eqb a ch); [exact IH | reflexivity].
Qed.

Lemma strip_padding ch n m s :
  strip ch (replicate n ch ++ s ++ replicate m ch) = strip ch s.
Proof.
  unfold strip. rewrite lstrip_replicate, lstrip_app_replicate.
  destruct (lstrip ch s) as [|a t] eqn:E; [reflexivity|].
  apply rstrip_app_replicate.
Qed.

(** C10: leading and trailing separators are stripped before the split,
    so a notation padded with any number of "/" on either side parses to
    the same point list; in particular ["/" + s] and [s + "/"] parse like
    [s]. *)
Theorem Pattern_init_ignores_outer_separators :
  forall (s : str) (n m : nat),
    Pattern_init (replicate n "/"%char ++ s ++ replicate m "/"%char) = Pattern_init s /\
    Pattern_init ("/"%char :: s) = Pattern_init s /\
    Pattern_init (s ++ ["/"%char]) = Pattern_init s.
Proof.
  intros s n m.
  assert (Hl : strip "/" ("/"%char :: s) = strip "/" s).
  { pose proof (strip_padding "/" 1 0 s) as H. simpl in H.
    now rewrite app_nil_r in H. }
  assert (Hr : strip "/" (s ++ ["/"%char]) = strip "/" s).
  { exact (strip_padding "/" 0 1 s). }
  unfold Pattern_init. now rewrite strip_padding, Hl, Hr.
Qed.

(** C5 (the code departs from the claim): a dead character does produce
    a point, carrying a dead state, and [getExtent] ranges over those
    points too: ["X."] has its only live point in column 0 and extent
    [(0, 1)], and the all-dead ["..."] has three points and extent
    [(0, 2)]. *)
Theorem Pattern_init_keeps_dead_characters :
  points (Pattern_init (py_str "X.")) =
    [GridPoint_init 0 0 true; GridPoint_init 0 1 false] /\
  Pattern_getExtent (Pattern_init (py_str "X.")) = (0, 1) /\
  points (Pattern_init (py_str "...")) =
    [GridPoint_init 0 0 false; GridPoint_init 0 1 false; GridPoint_init 0 2 false] /\
  Pattern_getExtent (Pattern_init (py_str "...")) = (0, 2).
Proof. repeat split; reflexivity. Qed.

(** ** Grid construction *)

Lemma map_const_range {A} (x : A) (n : Z) :
  map (fun _ => x) (range n) = replicate (Z.to_nat n) x.
Proof.
  unfold range, seqZ. rewrite <- list_fmap_compose.
  generalize 0%nat. induction (Z.to_nat n) as [|k IH]; intros s; simpl; [reflexivity|].
  now rewrite IH.
Qed.

Lemma len_replicate {A} (x : A) (n : Z) : 0 <= n -> len (replicate (Z.to_nat n) x) = n.
Proof. intros H. unfold len. rewrite length_replicate. lia. Qed.

Lemma rect_replicate nr nc :
  0 <= nr -> 0 <= nc ->
  rect (replicate (Z.to_nat nr) (replicate (Z.to_nat nc) dead_cell)) nr nc.
Proof.
  intros Hr Hc. split; [now apply len_replicate|]. split; [exact Hc|].
  apply Forall_replicate. now apply len_replicate.
Qed.

Lemma alive_at_replicate_dead nr nc r c :
  alive_at (replicate nr (replicate nc dead_cell)) r c = false.
Proof.
  unfold alive_at. case_decide; [|reflexivity].
  destruct (replicate nr _ !! Z.to_nat r) as [line|] eqn:E1; [|reflexivity].
  apply lookup_replicate in E1 as [-> _].
  unfold row_alive. case_decide; [|reflexivity].
  destruct (replicate nc _ !! Z.to_nat c) as [cell|] eqn:E2; [|reflexivity].
  now apply lookup_replicate in E2 as [-> _].
Qed.

(** C7: construction raises (a [BaseException], the only error it can
    produce) exactly when the grid type is not "inf", some margin is below
    1, or a dimension is smaller than the sum of its two opposing margins;
    otherwise it returns the [rowCount] x [colCount] grid whose cells are
    all dead. *)
Theorem Grid_init_raises_iff_invalid :
  forall (gridType : string) (ext : Z * Z) (m : Margins),
    let invalid :=
      gridType <> "inf"%string \/
      (mN m < 1 \/ mE m < 1 \/ mS m < 1 \/ mW m < 1) \/
      (fst ext < mN m + mS m \/ snd ext < mE m + mW m) in
    ((exists e, Grid_init gridType ext m = Raise e) <-> invalid) /\
    (forall e, Grid_init gridType ext m = Raise e -> exists msg, e = BaseException msg) /\
    (forall gr, Grid_init gridType ext m = Ok gr ->
       extent gr = ext /\ margins gr = m /\
       rows gr = replicate (Z.to_nat (fst ext)) (replicate (Z.to_nat (snd ext)) dead_cell) /\
       len (rows gr) = fst ext /\
       Forall (fun line => len line = snd ext) (rows gr) /\
       all_dead gr).
Proof.
  intros gridType ext m invalid. subst invalid. unfold Grid_init.
  rewrite map_const_range. simpl existsb. rewrite orb_false_r.
  destruct (String.eqb_spec gridType "inf") as [Ht|Ht]; simpl negb; cbv iota.
  2:{ split; [split; eauto|]. split; [intros e [= <-]; eauto | discriminate]. }
  destruct (Z.ltb_spec (mN m) 1); simpl orb; cbv iota.
  { split; [split; [intros _; lia | eauto]|]. split; [intros e [= <-]; eauto | discriminate]. }
  destruct (Z.ltb_spec (mE m) 1); simpl orb; cbv iota.
  { split; [split; [intros _; lia | eauto]|]. split; [intros e [= <-]; eauto | discriminate]. }
  destruct (Z.ltb_spec (mS m) 1); simpl orb; cbv iota.
  { split; [split; [intros _; lia | eauto]|]. split; [intros e [= <-]; eauto | discriminate]. }
  destruct (Z.ltb_spec (mW m) 1); simpl orb; cbv iota.
  { split; [split; [intros _; lia | eauto]|]. split; [intros e [= <-]; eauto | discriminate]. }
  destruct (Z.ltb_spec (fst ext) (mN m + mS m)); simpl orb; cbv iota.
  { split; [split; [intros _; lia | eauto]|]. split; [intros e [= <-]; eauto | discriminate]. }
  destruct (Z.ltb_spec (snd ext) (mE m + mW m)); cbv iota.
  { split; [split; [intros _; lia | eauto]|]. split; [intros e [= <-]; eauto | discriminate]. }
  split; [split; [intros [e [=]] | intros [?|[?|?]]; [congruence | lia | lia]]|].
  split; [discriminate|].
  intros gr [= <-]. simpl. repeat split.
  - apply len_replicate. lia.
  - apply Forall_replicate. apply len_replicate. lia.
  - intros r c. apply alive_at_replicate_dead.
Qed.

(** ** Cell lookup *)

(** C4 (the code departs from the claim): a negative subscript inside
    [[-rowCount, 0)] counts from the end of the list instead of raising,
    so [getCell] returns the addressed cell.  On the 3 x 3 grid seeded
    with one live cell at its centre, [getCell(-2, -2)] lies outside
    [[0,3) x [0,3)] and is alive. *)
Theorem getCell_negative_subscript_wraps :
  exists gr,
    (gr0 ← Grid_init "inf" (3, 3) (mkMargins 1 1 1 1);
     seedPattern gr0 (py_str "X") "center") = Ok gr /\
    extent gr = (3, 3) /\
    map (map isAlive) (rows gr) =
      [[false; false; false]; [false; true; false]; [false; false; false]] /\
    isAlive (getCell gr (-2) (-2)) = true.
Proof. eexists. split; [vm_compute; reflexivity|]. repeat split. Qed.

(** ** Python subscripts *)

Lemma len_nonneg {A} (l : list A) : 0 <= len l.
Proof. unfold len. lia. Qed.

Lemma len_cons {A} (x : A) l : len (x :: l) = len l + 1.
Proof. unfold len. simpl. lia. Qed.

Lemma len_app {A} (l k : list A) : len (l ++ k) = len l + len k.
Proof. unfold len. rewrite length_app. lia. Qed.

Lemma py_index_nonneg {A} (l : list A) i :
  0 <= i < len l -> py_index l i = Ok (Z.to_nat i).
Proof. intros H. unfold py_index. now rewrite decide_True. Qed.

Lemma py_index_negative {A} (l : list A) i :
  - len l <= i < 0 -> py_index l i = Ok (Z.to_nat (len l + i)).
Proof.
  intros H. unfold py_index. rewrite decide_False by lia. now rewrite decide_True.
Qed.

Lemma py_index_outside {A} (l : list A) i :
  i < - len l \/ len l <= i -> py_index l i = Raise IndexError.
Proof.
  intros H. unfold py_index. rewrite decide_False by lia. now rewrite decide_False by lia.
Qed.

Lemma py_index_lt {A} (l : list A) i k :
  py_index l i = Ok k -> (k < length l)%nat.
Proof.
  unfold py_index, len. repeat case_decide; intros [= <-]; lia.
Qed.

Lemma py_getitem_nonneg {A} (l : list A) i x :
  0 <= i -> l !! Z.to_nat i = Some x -> py_getitem l i = Ok x.
Proof.
  intros Hi Hx. unfold py_getitem. rewrite py_index_nonneg.
  - simpl. now rewrite Hx.
  - apply lookup_lt_Some in Hx. unfold len. lia.
Qed.

Lemma py_getitem_outside {A} (l : list A) i :
  i < - len l \/ len l <= i -> py_getitem l i = Raise IndexError.
Proof. intros H. unfold py_getitem. now rewrite py_index_outside. Qed.

Lemma py_getitem_negative {A} (l : list A) i :
  - len l <= i < 0 -> py_getitem l i = py_getitem l (len l + i).
Proof.
  intros H. unfold py_getitem.
  rewrite py_index_negative by lia. now rewrite (py_index_nonneg l (len l + i)) by lia.
Qed.

Lemma py_insert_front {A} (l : list A) x : py_insert l 0 x = x :: l.
Proof.
  unfold py_insert. rewrite decide_False by lia.
  pose proof (len_nonneg l). rewrite Z.min_l by lia. reflexivity.
Qed.

Lemma py_insert_back {A} (l : list A) x : py_insert l (len l) x = l ++ [x].
Proof.
  unfold py_insert. pose proof (len_nonneg l). rewrite decide_False by lia.
  rewrite Z.min_id. unfold len. rewrite Nat2Z.id.
  now rewrite take_ge, drop_ge by lia.
Qed.

Lemma py_pop_front {A} (x : A) l : py_pop (x :: l) 0 = Ok l.
Proof.
  unfold py_pop. rewrite py_index_nonneg; [reflexivity|].
  rewrite len_cons. pose proof (len_nonneg l). lia.
Qed.

Lemma py_pop_back {A} (l : list A) x : py_pop (l ++ [x]) (len (l ++ [x]) - 1) = Ok l.
Proof.
  unfold py_pop. rewrite len_app. pose proof (len_nonneg l).
  change (len [x]) with 1. rewrite py_index_nonneg by (rewrite len_app; change (len [x]) with 1; lia).
  simpl. f_equal. replace (Z.to_nat (len l + 1 - 1)) with (length l) by (unfold len; lia).
  rewrite delete_middle. apply app_nil_r.
Qed.

Lemma snoc_of_nonempty {A} (l : list A) :
  1 <= len l -> exists l' x, l = l' ++ [x].
Proof.
  intros H. destruct l as [|a l] using rev_ind.
  - unfold len in H. simpl in H. lia.
  - eauto.
Qed.

(** ** The total lookup [alive_at] *)

Lemma isAlive_state cell : isAlive cell = _state cell.
Proof. unfold isAlive. apply negb_involutive. Qed.

Lemma row_alive_nil c : row_alive [] c = false.
Proof. unfold row_alive. case_decide; [|reflexivity]. now rewrite lookup_nil. Qed.

Lemma row_alive_cons cell line c :
  row_alive (cell :: line) c =
  if decide (c = 0) then isAlive cell else row_alive line (c - 1).
Proof.
  unfold row_alive. destruct (decide (c = 0)) as [->|H0]; [reflexivity|].
  destruct (decide (0 <= c)) as [H1|H1].
  - rewrite decide_True by lia.
    replace (Z.to_nat c) with (S (Z.to_nat (c - 1))) by lia. reflexivity.
  - now rewrite decide_False by lia.
Qed.

Lemma row_alive_snoc line cell c :
  row_alive (line ++ [cell]) c =
  if decide (c = len line) then isAlive cell else row_alive line c.
Proof.
  unfold row_alive, len. destruct (decide (c = Z.of_nat (length line))) as [->|H0].
  - rewrite decide_True by lia. rewrite Nat2Z.id.
    now rewrite list_lookup_middle.
  - destruct (decide (0 <= c)) as [H1|H1]; [|reflexivity].
    destruct (decide (Z.to_nat c < length line)%nat) as [Hlt|Hge].
    + now rewrite lookup_app_l.
    + rewrite lookup_app_r by lia.
      rewrite (lookup_ge_None_2 line) by lia.
      destruct (Z.to_nat c - length line)%nat as [|k] eqn:E; [lia|]. reflexivity.
Qed.

Lemma row_alive_outside line c :
  c < 0 \/ len line <= c -> row_alive line c = false.
Proof.
  intros H. unfold row_alive. case_decide; [|reflexivity].
  rewrite lookup_ge_None_2; [reflexivity|]. unfold len in H. lia.
Qed.

Lemma alive_at_nil r c : alive_at [] r c = false.
Proof. unfold alive_at. case_decide; [|reflexivity]. now rewrite lookup_nil. Qed.

Lemma alive_at_cons line rs r c :
  alive_at (line :: rs) r c =
  if decide (r = 0) then row_alive line c else alive_at rs (r - 1) c.
Proof.
  unfold alive_at. destruct (decide (r = 0)) as [->|H0]; [reflexivity|].
  destruct (decide (0 <= r)) as [H1|H1].
  - rewrite decide_True by lia.
    replace (Z.to_nat r) with (S (Z.to_nat (r - 1))) by lia. reflexivity.
  - now rewrite decide_False by lia.
Qed.

Lemma alive_at_snoc rs line r c :
  alive_at (rs ++ [line]) r c =
  if decide (r = len rs) then row_alive line c else alive_at rs r c.
Proof.
  unfold alive_at, len. destruct (decide (r = Z.of_nat (length rs))) as [->|H0].
  - rewrite decide_True by lia. rewrite Nat2Z.id.
    now rewrite list_lookup_middle.
  - destruct (decide (0 <= r)) as [H1|H1]; [|reflexivity].
    destruct (decide (Z.to_nat r < length rs)%nat) as [Hlt|Hge].
    + now rewrite lookup_app_l.
    + rewrite lookup_app_r by lia.
      rewrite (lookup_ge_None_2 rs) by lia.
      destruct (Z.to_nat r - length rs)%nat as [|k] eqn:E; [lia|]. reflexivity.
Qed.

Lemma alive_at_outside rs nr nc r c :
  rect rs nr nc -> r < 0 \/ nr <= r \/ c < 0 \/ nc <= c -> alive_at rs r c = false.
Proof.
  intros (Hr & Hnc & Hc) H. unfold alive_at. case_decide; [|reflexivity].
  destruct (rs !! Z.to_nat r) as [line|] eqn:E; [|reflexivity].
  apply row_alive_outside.
  pose proof (lookup_lt_Some _ _ _ E).
  rewrite Forall_lookup in Hc. specialize (Hc _ _ E). simpl in Hc.
  unfold len in *. lia.
Qed.

Lemma alive_at_map f d rs :
  (forall line c, row_alive (f line) c = row_alive line (c - d)) ->
  forall r c, alive_at (map f rs) r c = alive_at rs r (c - d).
Proof.
  intros Hf r c. unfold alive_at. case_decide; [|reflexivity].
  rewrite list_lookup_fmap. destruct (rs !! Z.to_nat r); simpl; [apply Hf | reflexivity].
Qed.

Lemma row_alive_replicate_dead n c : row_alive (replicate n dead_cell) c = false.
Proof.
  unfold row_alive. case_decide; [|reflexivity].
  destruct (replicate n _ !! Z.to_nat c) as [cell|] eqn:E; [|reflexivity].
  now apply lookup_replicate in E as [-> _].
Qed.

(** ** Scanning for the live region *)

Lemma elem_of_range x n : x ∈ range n <-> 0 <= x < n.
Proof. unfold range. rewrite elem_of_seqZ. lia. Qed.

Lemma isCellAlive_in_range gr nr nc r c :
  rect (rows gr) nr nc -> 0 <= r < nr -> 0 <= c < nc ->
  isCellAlive gr r c = Ok (alive_at (rows gr) r c).
Proof.
  intros (Hr & Hnc & Hc) Hrr Hcc. unfold isCellAlive, alive_at, row_alive.
  rewrite !decide_True by lia.
  destruct (lookup_lt_is_Some_2 (rows gr) (Z.to_nat r)) as [line Hl].
  { unfold len in Hr. lia. }
  rewrite Hl, (py_getitem_nonneg _ _ _ (proj1 Hrr) Hl). simpl.
  rewrite Forall_lookup in Hc. specialize (Hc _ _ Hl). simpl in Hc.
  destruct (lookup_lt_is_Some_2 line (Z.to_nat c)) as [cell Hcell].
  { unfold len in Hc. lia. }
  rewrite Hcell, (py_getitem_nonneg _ _ _ (proj1 Hcc) Hcell).
  now rewrite decide_True by lia.
Qed.

Lemma filterM_pure {A} (f : A -> result bool) (p : A -> bool) l :
  (forall x, x ∈ l -> f x = Ok (p x)) -> filterM f l = Ok (List.filter p l).
Proof.
  induction l as [|x l IH]; intros H; simpl; [reflexivity|].
  rewrite (H x) by left. simpl.
  rewrite IH by (intros y Hy; apply H; now right). reflexivity.
Qed.

Lemma is_empty_filter {A} (p : A -> bool) l :
  is_empty (List.filter p l) = true <-> forall x, x ∈ l -> p x = false.
Proof.
  induction l as [|x l IH]; simpl.
  - split; [intros _ y Hy; inversion Hy | reflexivity].
  - destruct (p x) eqn:E; simpl.
    + split; [discriminate|]. intros H. specialize (H x ltac:(left)). congruence.
    + rewrite IH. split.
      * intros H y Hy. inversion Hy; subst; auto.
      * intros H y Hy. apply H. now right.
Qed.

Lemma testRowIsDead_spec gr r :
  well_formed gr -> 0 <= r < fst (extent gr) ->
  exists b, __testRowIsDead gr r = Ok b /\ (b = true <-> row_dead (rows gr) r).
Proof.
  intros Hwf Hr. unfold __testRowIsDead.
  rewrite (filterM_pure _ (fun c => alive_at (rows gr) r c)).
  2:{ intros c Hc. apply elem_of_range in Hc. eapply isCellAlive_in_range; eauto. }
  simpl. eexists; split; [reflexivity|]. rewrite is_empty_filter. split.
  - intros H c. destruct (decide (0 <= c < snd (extent gr))) as [Hc|Hc].
    + apply H. now apply elem_of_range.
    + eapply alive_at_outside; [exact Hwf | lia].
  - intros H c _. apply H.
Qed.

Lemma testColumnIsDead_spec gr c :
  well_formed gr -> 0 <= c < snd (extent gr) ->
  exists b, __testColumnIsDead gr c = Ok b /\ (b = true <-> col_dead (rows gr) c).
Proof.
  intros Hwf Hc. unfold __testColumnIsDead.
  rewrite (filterM_pure _ (fun r => alive_at (rows gr) r c)).
  2:{ intros r Hr. apply elem_of_range in Hr. eapply isCellAlive_in_range; eauto. }
  simpl. eexists; split; [reflexivity|]. rewrite is_empty_filter. split.
  - intros H r. destruct (decide (0 <= r < fst (extent gr))) as [Hr|Hr].
    + apply H. now apply elem_of_range.
    + eapply alive_at_outside; [exact Hwf | lia].
  - intros H r _. apply H.
Qed.

Section Scans.
Variable bound : Z.
Variable dead : Z -> result bool.
Variable D : Z -> Prop.
Hypothesis dead_spec :
  forall i, 0 <= i < bound -> exists b, dead i = Ok b /\ (b = true <-> D i).

Lemma scan_inc_spec n :
  forall start, 0 <= start -> n = Z.to_nat (bound - start) ->
    (forall i, 0 <= i < start -> D i) ->
    exists top, scan_inc n bound dead start = Ok top /\
      start <= top /\ (start <= bound -> top <= bound) /\
      (forall i, 0 <= i < top -> D i) /\ (top < bound -> ~ D top).
Proof.
  induction n as [|n IH]; intros start H0 Hn Hpre; simpl.
  - exists start. repeat split; auto; lia.
  - destruct (Z.ltb_spec start bound) as [Hlt|Hge]; [|lia].
    destruct (dead_spec start ltac:(lia)) as (b & -> & Hb). simpl.
    destruct b.
    + destruct (IH (start + 1)) as (top & Ht & H1 & H2 & H3 & H4); [lia | lia | |].
      { intros i Hi. destruct (decide (i = start)) as [->|]; [now apply Hb|].
        apply Hpre. lia. }
      exists top. repeat split; auto; lia.
    + exists start. repeat split; auto; try lia.
      intros _ HD. apply Hb in HD. discriminate.
Qed.

Lemma while_inc_spec :
  0 <= bound ->
  exists top, while_inc bound dead 0 = Ok top /\ 0 <= top <= bound /\
    (forall i, 0 <= i < top -> D i) /\ (top < bound -> ~ D top).
Proof.
  intros Hb. unfold while_inc.
  destruct (scan_inc_spec (Z.to_nat (bound - 0)) 0) as (top & Ht & H1 & H2 & H3 & H4);
    [lia | reflexivity | intros; lia |].
  exists top. repeat split; auto.
Qed.

Lemma scan_dec_spec low n :
  0 <= low ->
  forall start, start < bound -> n = Z.to_nat (start - low) ->
    exists bottom, scan_dec n bound low dead start = Ok bottom /\
      bottom <= start /\ Z.min low start <= bottom /\
      (forall i, bottom < i <= start -> D i).
Proof.
  intros Hlow. induction n as [|n IH]; intros start Hs Hn; simpl.
  - exists start. repeat split; auto; lia.
  - destruct (Z.ltb_spec start bound) as [Hlt|Hge]; [|lia].
    destruct (Z.gtb_spec start low) as [Hgt|Hle]; [|lia]. simpl.
    destruct (dead_spec start ltac:(lia)) as (b & -> & Hb). simpl.
    destruct b.
    + destruct (IH (start - 1)) as (bottom & Ht & H1 & H2 & H3); [lia | lia |].
      exists bottom. repeat split; auto; try lia.
      intros i Hi. destruct (decide (i = start)) as [->|]; [now apply Hb|].
      apply H3. lia.
    + exists start. repeat split; auto; lia.
Qed.

Lemma while_dec_spec low :
  0 <= low <= bound ->
  exists bottom, while_dec bound low dead (bound - 1) = Ok bottom /\
    low - 1 <= bottom <= bound - 1 /\
    (forall i, bottom < i < bound -> D i).
Proof.
  intros Hlow. unfold while_dec.
  destruct (scan_dec_spec low (Z.to_nat (bound - 1 - low)) ltac:(lia) (bound - 1))
    as (bottom & Ht & H1 & H2 & H3); [lia | reflexivity |].
  exists bottom. repeat split; auto; try lia. intros i Hi. apply H3. lia.
Qed.
End Scans.

Lemma computeDeficits_spec gr :
  well_formed gr ->
  exists top bottom left right,
    live_bounds (rows gr) (fst (extent gr)) (snd (extent gr)) top bottom left right /\
    __computeDeficits gr =
      Ok (mN (margins gr) - top,
          mE (margins gr) - (snd (extent gr) - right - 1),
          mS (margins gr) - (fst (extent gr) - bottom - 1),
          mW (margins gr) - left).
Proof.
  intros Hwf. pose proof Hwf as (Hr & Hnc & Hc).
  pose proof (len_nonneg (rows gr)) as Hnr.
  assert (Hout_r : forall r, r < 0 \/ fst (extent gr) <= r -> row_dead (rows gr) r).
  { intros r Hr' c. eapply alive_at_outside; [exact Hwf | lia]. }
  assert (Hout_c : forall c, c < 0 \/ snd (extent gr) <= c -> col_dead (rows gr) c).
  { intros c Hc' r. eapply alive_at_outside; [exact Hwf | lia]. }
  unfold __computeDeficits.
  destruct (while_inc_spec (fst (extent gr)) (__testRowIsDead gr) (row_dead (rows gr)))
    as (top & -> & Ht1 & Ht2 & Ht3); [intros; now apply testRowIsDead_spec | lia |].
  simpl.
  destruct (while_dec_spec (fst (extent gr)) (__testRowIsDead gr) (row_dead (rows gr))
              ltac:(intros; now apply testRowIsDead_spec) top)
    as (bottom & -> & Hb1 & Hb2); [lia|].
  simpl.
  destruct (while_inc_spec (snd (extent gr)) (__testColumnIsDead gr) (col_dead (rows gr)))
    as (left & -> & Hl1 & Hl2 & Hl3); [intros; now apply testColumnIsDead_spec | lia |].
  simpl.
  destruct (while_dec_spec (snd (extent gr)) (__testColumnIsDead gr) (col_dead (rows gr))
              ltac:(intros; now apply testColumnIsDead_spec) left)
    as (right & -> & Hr1 & Hr2); [lia|].
  simpl. exists top, bottom, left, right. split; [|reflexivity].
  repeat split; auto; try lia.
  - intros r Hr'. destruct (decide (0 <= r)); [apply Ht2; lia | apply Hout_r; lia].
  - intros r Hr'. destruct (decide (r < fst (extent gr))); [apply Hb2; lia | apply Hout_r; lia].
  - intros c Hc'. destruct (decide (0 <= c)); [apply Hl2; lia | apply Hout_c; lia].
  - intros c Hc'. destruct (decide (c < snd (extent gr))); [apply Hr2; lia | apply Hout_c; lia].
Qed.

(** ** Loops *)

Lemma repeatM_ind {St} (P : nat -> St -> Prop) (body : St -> result St) n :
  forall s, P 0%nat s ->
    (forall k s, (k < n)%nat -> P k s -> exists s', body s = Ok s' /\ P (S k) s') ->
    exists s', repeatM n body s = Ok s' /\ P n s'.
Proof.
  revert P. induction n as [|n IH]; intros P s H0 Hstep; simpl.
  - eauto.
  - destruct (Hstep 0%nat s ltac:(lia) H0) as (s1 & -> & H1). simpl.
    apply (IH (fun k => P (S k))); [exact H1|].
    intros k s2 Hk Hs2. apply Hstep; [lia | exact Hs2].
Qed.

Lemma repeatM_skip {St} n (s : St) : repeatM n (fun s => Ok s) s = Ok s.
Proof. induction n as [|n IH]; simpl; [reflexivity | exact IH]. Qed.

Lemma mapM_rel {A B} (f : A -> result B) (R : A -> B -> Prop) l :
  (forall x, x ∈ l -> exists y, f x = Ok y /\ R x y) ->
  exists l', mapM f l = Ok l' /\ Forall2 R l l'.
Proof.
  induction l as [|x l IH]; intros H; simpl.
  - exists []. split; [reflexivity | constructor].
  - destruct (H x ltac:(left)) as (y & -> & Hy).
    destruct IH as (l' & -> & Hl'); [intros z Hz; apply H; now right|].
    exists (y :: l'). split; [reflexivity | now constructor].
Qed.

(** The loop [for r in range(len(rows)): rows[r] = f(rows[r])] visits
    every row once, in order. *)
Lemma foldM_update_row f post :
  forall pre,
    foldM (fun rs r => update_row rs r f) (pre ++ post) (seqZ (len pre) (len post)) =
    (post' ← mapM f post; Ok (pre ++ post')).
Proof.
  induction post as [|line post IH]; intros pre.
  - simpl. now rewrite app_nil_r.
  - rewrite len_cons. pose proof (len_nonneg post). pose proof (len_nonneg pre).
    rewrite seqZ_cons by lia. simpl foldM.
    unfold update_row at 2. rewrite py_index_nonneg
      by (rewrite len_app, len_cons; lia).
    simpl. replace (Z.to_nat (len pre)) with (length pre) by (unfold len; lia).
    rewrite list_lookup_middle by reflexivity.
    destruct (f line) as [line'|e]; simpl; [|reflexivity].
    replace (<[length pre := line']> (pre ++ line :: post))
      with ((pre ++ [line']) ++ post).
    2:{ rewrite <- (Nat.add_0_r (length pre)), insert_app_r. simpl.
        now rewrite <- app_assoc. }
    replace (Z.succ (len pre)) with (len (pre ++ [line']))
      by (rewrite len_app; change (len [line']) with 1; lia).
    replace (Z.pred (len post + 1)) with (len post) by lia.
    rewrite IH. destruct (mapM f post) as [post'|e]; simpl; [|reflexivity].
    now rewrite <- app_assoc.
Qed.

Lemma update_all_rows f rs nr :
  len rs = nr ->
  foldM (fun rs r => update_row rs r f) rs (range nr) =
  mapM f rs.
Proof.
  intros <-. pose proof (foldM_update_row f rs []) as H. simpl in H.
  unfold range. change (len []) with 0 in H. rewrite H.
  destruct (mapM f rs); reflexivity.
Qed.

Lemma alive_at_Forall2 d rs rs' :
  Forall2 (fun line line' => forall c, row_alive line' c = row_alive line (c - d)) rs rs' ->
  forall r c, alive_at rs' r c = alive_at rs r (c - d).
Proof.
  intros H r c. unfold alive_at. case_decide; [|reflexivity].
  destruct (rs !! Z.to_nat r) as [line|] eqn:E.
  - destruct (Forall2_lookup_l _ _ _ _ _ H E) as (line' & -> & Hl). apply Hl.
  - apply Forall2_length in H.
    rewrite lookup_ge_None_2; [reflexivity|].
    apply lookup_ge_None_1 in E. lia.
Qed.

(** One pass of a column operation [f] over every row. *)
Lemma column_pass f d nc' rs nr nc :
  rect rs nr nc -> 0 <= nc' ->
  (forall line, line ∈ rs ->
     exists line', f line = Ok line' /\ len line' = nc' /\
       forall c, row_alive line' c = row_alive line (c - d)) ->
  exists rs',
    foldM (fun rs r => update_row rs r f) rs (range nr) = Ok rs' /\
    rect rs' nr nc' /\
    forall r c, alive_at rs' r c = alive_at rs r (c - d).
Proof.
  intros (Hr & Hnc & Hc) Hnc' Hf.
  rewrite (update_all_rows f rs nr Hr).
  destruct (mapM_rel f (fun line line' => len line' = nc' /\
              forall c, row_alive line' c = row_alive line (c - d)) rs Hf)
    as (rs' & -> & H2).
  exists rs'. split; [reflexivity|]. split.
  - split; [|split; [exact Hnc'|]].
    + apply Forall2_length in H2. unfold len in *. lia.
    + eapply Forall2_Forall_r; [exact H2|].
      apply Forall_forall. intros line _ line' [Hl _]. exact Hl.
  - apply alive_at_Forall2. eapply Forall2_impl; [|exact H2]. intros ? ? [_ ?]; auto.
Qed.

Lemma col_dead_row_alive rs c line :
  0 <= c -> col_dead rs c -> line ∈ rs -> row_alive line c = false.
Proof.
  intros Hc Hd Hin. apply list_elem_of_lookup in Hin as [k Hk].
  specialize (Hd (Z.of_nat k)). unfold alive_at in Hd.
  rewrite decide_True in Hd by lia. now rewrite Nat2Z.id, Hk in Hd.
Qed.

(** ** Inserting and removing rows and columns *)

Lemma moves_refl nr nc gr : rect (rows gr) nr nc -> moves nr nc gr gr 0 0 0 0.
Proof.
  intros H. unfold moves. rewrite !Z.add_0_r.
  split; [reflexivity|]. split; [reflexivity|]. split; [exact H|].
  intros r c. now rewrite !Z.sub_0_r.
Qed.

Lemma moves_trans nr nc gr gr1 gr2 a b c d a' b' c' d' :
  moves nr nc gr gr1 a b c d ->
  moves (nr + a) (nc + b) gr1 gr2 a' b' c' d' ->
  moves nr nc gr gr2 (a + a') (b + b') (c + c') (d + d').
Proof.
  intros (E1 & M1 & R1 & A1) (E2 & M2 & R2 & A2). unfold moves.
  rewrite !Z.add_assoc.
  split; [congruence|]. split; [congruence|]. split; [exact R2|].
  intros r k. rewrite A2, A1. f_equal; lia.
Qed.

Lemma moves_eq nr nc gr gr' a b c d a' b' c' d' :
  moves nr nc gr gr' a b c d -> a = a' -> b = b' -> c = c' -> d = d' ->
  moves nr nc gr gr' a' b' c' d'.
Proof. now intros H -> -> -> ->. Qed.

(** [n] iterations of a step that each time adds [dnr] rows and [dnc]
    columns and moves the content by [(dr, dc)]. *)
Lemma repeatM_moves (step : Grid -> result Grid) dnr dnc dr dc nr nc gr n :
  rect (rows gr) nr nc ->
  (forall k gr', 0 <= k < Z.of_nat n ->
     moves nr nc gr gr' (k * dnr) (k * dnc) (k * dr) (k * dc) ->
     exists gr'', step gr' = Ok gr'' /\
       moves (nr + k * dnr) (nc + k * dnc) gr' gr'' dnr dnc dr dc) ->
  exists gr', repeatM n step gr = Ok gr' /\
    moves nr nc gr gr' (Z.of_nat n * dnr) (Z.of_nat n * dnc)
          (Z.of_nat n * dr) (Z.of_nat n * dc).
Proof.
  intros Hrect Hstep.
  apply (repeatM_ind
    (fun k gr' => moves nr nc gr gr' (Z.of_nat k * dnr) (Z.of_nat k * dnc)
                        (Z.of_nat k * dr) (Z.of_nat k * dc))).
  - simpl. now apply moves_refl.
  - intros k gr' Hk Hm.
    destruct (Hstep (Z.of_nat k) gr' ltac:(lia) Hm) as (gr'' & Hs & Hm').
    exists gr''. split; [exact Hs|].
    eapply moves_eq; [eapply moves_trans; [exact Hm | exact Hm'] | lia..].
Qed.

Lemma rect_first_row rs nr nc :
  rect rs nr nc -> 1 <= nr -> exists line, py_getitem rs 0 = Ok line /\ len line = nc.
Proof.
  intros (Hr & Hnc & Hc) H1. destruct rs as [|line rs].
  - unfold len in Hr. simpl in Hr. lia.
  - exists line. split; [reflexivity|]. now apply Forall_inv in Hc.
Qed.

Lemma addARow_front gr nr nc :
  rect (rows gr) nr nc -> snd (extent gr) = nc ->
  moves nr nc gr (__addARow gr 0) 1 0 1 0.
Proof.
  intros (Hr & Hnc & Hc) He. unfold __addARow. rewrite py_insert_front.
  repeat split; simpl; try lia.
  - rewrite len_cons. lia.
  - rewrite Z.add_0_r. constructor; [|exact Hc]. rewrite He. now apply len_replicate.
  - intros r c. rewrite alive_at_cons, Z.sub_0_r. case_decide as H0; [|reflexivity].
    subst r. rewrite row_alive_replicate_dead. symmetry.
    unfold alive_at. now rewrite decide_False by lia.
Qed.

Lemma addARow_back gr nr nc :
  rect (rows gr) nr nc -> snd (extent gr) = nc ->
  moves nr nc gr (__addARow gr (len (rows gr))) 1 0 0 0.
Proof.
  intros (Hr & Hnc & Hc) He. unfold __addARow. rewrite py_insert_back.
  repeat split; simpl; try lia.
  - rewrite len_app. change (len [_]) with 1. lia.
  - rewrite Z.add_0_r. apply Forall_app. split; [exact Hc|].
    constructor; [|constructor]. rewrite He. now apply len_replicate.
  - intros r c. rewrite alive_at_snoc, !Z.sub_0_r. case_decide as H0; [|reflexivity].
    subst r. rewrite row_alive_replicate_dead. symmetry.
    eapply alive_at_outside; [split; [reflexivity|split; eauto] | lia].
Qed.

Lemma trimARow_front gr nr nc :
  rect (rows gr) nr nc -> 1 <= nr -> row_dead (rows gr) 0 ->
  exists gr', __trimARow gr 0 = Ok gr' /\ moves nr nc gr gr' (-1) 0 (-1) 0.
Proof.
  intros (Hr & Hnc & Hc) H1 Hd. unfold __trimARow.
  destruct (rows gr) as [|line rs] eqn:E.
  { unfold len in Hr. simpl in Hr. lia. }
  rewrite py_pop_front. simpl. eexists. split; [reflexivity|].
  repeat split; simpl; try lia.
  - rewrite len_cons in Hr. lia.
  - rewrite Z.add_0_r. now apply Forall_inv_tail in Hc.
  - intros r c. rewrite E, alive_at_cons, Z.sub_0_r. case_decide as H0.
    + replace r with (-1) by lia. specialize (Hd c). rewrite alive_at_cons in Hd.
      rewrite decide_True in Hd by reflexivity. rewrite Hd.
      unfold alive_at. now rewrite decide_False by lia.
    + f_equal. lia.
Qed.

Lemma trimARow_back gr nr nc :
  rect (rows gr) nr nc -> 1 <= nr -> row_dead (rows gr) (nr - 1) ->
  exists gr', __trimARow gr (len (rows gr) - 1) = Ok gr' /\ moves nr nc gr gr' (-1) 0 0 0.
Proof.
  intros (Hr & Hnc & Hc) H1 Hd. unfold __trimARow.
  destruct (snoc_of_nonempty (rows gr) ltac:(lia)) as (rs & line & E).
  rewrite E, py_pop_back. simpl. eexists. split; [reflexivity|].
  rewrite E, len_app in Hr. change (len [line]) with 1 in Hr.
  repeat split; simpl; try lia.
  - rewrite Z.add_0_r. rewrite E in Hc. now apply Forall_app in Hc as [? _].
  - intros r c. rewrite E, alive_at_snoc, !Z.sub_0_r. case_decide as H0; [|reflexivity].
    subst r. specialize (Hd c). rewrite E, alive_at_snoc in Hd.
    rewrite decide_True in Hd by lia. rewrite Hd.
    rewrite E in Hc. apply Forall_app in Hc as [Hc _].
    eapply alive_at_outside; [split; [reflexivity|split; eauto] | lia].
Qed.

Lemma column_step f gr nr nc dnc dc :
  rect (rows gr) nr nc -> fst (extent gr) = nr -> 0 <= nc + dnc ->
  (forall line, line ∈ rows gr ->
     exists line', f line = Ok line' /\ len line' = nc + dnc /\
       forall c, row_alive line' c = row_alive line (c - dc)) ->
  exists gr',
    (rs ← foldM (fun rs r => update_row rs r f) (rows gr) (range (fst (extent gr)));
     Ok (set_rows gr rs)) = Ok gr' /\
    moves nr nc gr gr' 0 dnc 0 dc.
Proof.
  intros Hrect He Hnc Hf. rewrite He.
  destruct (column_pass f dc (nc + dnc) (rows gr) nr nc Hrect Hnc Hf) as (rs' & -> & Hr' & Ha).
  simpl. eexists. split; [reflexivity|]. repeat split; simpl; try apply Hr'.
  - rewrite Z.add_0_r. apply Hr'.
  - intros r c. now rewrite Ha, Z.sub_0_r.
Qed.

Lemma rect_elem rs nr nc line : rect rs nr nc -> line ∈ rs -> len line = nc.
Proof.
  intros (_ & _ & Hc) Hin. apply list_elem_of_lookup in Hin as [k Hk].
  rewrite Forall_lookup in Hc. exact (Hc _ _ Hk).
Qed.

Lemma addAColumn_front gr nr nc :
  rect (rows gr) nr nc -> fst (extent gr) = nr ->
  exists gr', __addAColumn gr 0 = Ok gr' /\ moves nr nc gr gr' 0 1 0 1.
Proof.
  intros Hrect He. unfold __addAColumn.
  apply column_step; auto; [destruct Hrect as (_ & ? & _); lia|].
  intros line Hin. eexists. split; [reflexivity|]. rewrite py_insert_front. split.
  - rewrite len_cons. now rewrite (rect_elem _ _ _ _ Hrect Hin).
  - intros c. rewrite row_alive_cons. case_decide as H0; [|reflexivity].
    subst c. symmetry. apply row_alive_outside. lia.
Qed.

Lemma addAColumn_back gr nr nc :
  rect (rows gr) nr nc -> fst (extent gr) = nr -> 1 <= nr ->
  exists gr',
    (line ← py_getitem (rows gr) 0; __addAColumn gr (len line)) = Ok gr' /\
    moves nr nc gr gr' 0 1 0 0.
Proof.
  intros Hrect He H1.
  destruct (rect_first_row _ _ _ Hrect H1) as (line0 & -> & Hl0). simpl.
  unfold __addAColumn. rewrite Hl0.
  apply column_step; auto; [destruct Hrect as (_ & ? & _); lia|].
  intros line Hin. pose proof (rect_elem _ _ _ _ Hrect Hin) as Hl.
  eexists. split; [reflexivity|]. rewrite <- Hl, py_insert_back. split.
  - rewrite len_app. reflexivity.
  - intros c. rewrite row_alive_snoc, Z.sub_0_r. case_decide as H0; [|reflexivity].
    subst c. symmetry. apply row_alive_outside. lia.
Qed.

Lemma trimAColumn_front gr nr nc :
  rect (rows gr) nr nc -> fst (extent gr) = nr -> 1 <= nc -> col_dead (rows gr) 0 ->
  exists gr', __trimAColumn gr 0 = Ok gr' /\ moves nr nc gr gr' 0 (-1) 0 (-1).
Proof.
  intros Hrect He H1 Hd. unfold __trimAColumn.
  apply column_step; auto; [lia|].
  intros line Hin. pose proof (rect_elem _ _ _ _ Hrect Hin) as Hl.
  pose proof (col_dead_row_alive _ 0 _ ltac:(lia) Hd Hin) as Hd0.
  destruct line as [|cell line].
  { unfold len in Hl. simpl in Hl. lia. }
  exists line. rewrite py_pop_front. split; [reflexivity|]. split.
  - rewrite len_cons in Hl. lia.
  - intros c. rewrite row_alive_cons. case_decide as H0.
    + replace c with (-1) by lia. rewrite row_alive_cons, decide_True in Hd0 by reflexivity.
      rewrite Hd0. apply row_alive_outside. lia.
    + f_equal. lia.
Qed.

Lemma trimAColumn_back gr nr nc :
  rect (rows gr) nr nc -> fst (extent gr) = nr -> 1 <= nr -> 1 <= nc ->
  col_dead (rows gr) (nc - 1) ->
  exists gr',
    (line ← py_getitem (rows gr) 0; __trimAColumn gr (len line - 1)) = Ok gr' /\
    moves nr nc gr gr' 0 (-1) 0 0.
Proof.
  intros Hrect He Hnr H1 Hd.
  destruct (rect_first_row _ _ _ Hrect Hnr) as (line0 & -> & Hl0). simpl.
  unfold __trimAColumn. rewrite Hl0.
  apply column_step; auto; [lia|].
  intros line Hin. pose proof (rect_elem _ _ _ _ Hrect Hin) as Hl.
  pose proof (col_dead_row_alive _ (nc - 1) _ ltac:(lia) Hd Hin) as Hd0.
  destruct (snoc_of_nonempty line ltac:(lia)) as (line' & cell & ->).
  rewrite len_app in Hl. change (len [cell]) with 1 in Hl.
  exists line'. replace (nc - 1) with (len (line' ++ [cell]) - 1)
    by (rewrite len_app; change (len [cell]) with 1; lia).
  rewrite py_pop_back. split; [reflexivity|]. split; [lia|].
  intros c. rewrite row_alive_snoc, Z.sub_0_r. case_decide as H0; [|reflexivity].
  subst c. rewrite row_alive_snoc in Hd0.
  rewrite decide_True in Hd0 by lia.
  rewrite Hd0. apply row_alive_outside. lia.
Qed.

(** ** The four phases of margin maintenance *)

Lemma north_phase gr trim d nr nc :
  rect (rows gr) nr nc -> snd (extent gr) = nc ->
  (d <= 0 -> trim = true -> - d <= nr /\ forall r, 0 <= r < - d -> row_dead (rows gr) r) ->
  exists gr',
    repeatM (Z.to_nat (Z.abs d))
      (fun g => if d >? 0 then Ok (__addARow g 0)
                else if trim then __trimARow g 0
                else Ok g) gr = Ok gr' /\
    moves nr nc gr gr' (adjustment trim d) 0 (adjustment trim d) 0.
Proof.
  intros Hrect He Hpre. unfold adjustment.
  destruct (Z.gtb_spec d 0) as [Hd|Hd]; [|destruct trim]; cbv beta iota.
  - destruct (repeatM_moves (fun g => Ok (__addARow g 0)) 1 0 1 0 nr nc gr
                (Z.to_nat (Z.abs d)) Hrect) as (gr' & Hrun & Hm).
    + intros k gr1 Hk (E1 & _ & R1 & _). eexists. split; [reflexivity|].
      apply addARow_front; [exact R1 | rewrite E1; lia].
    + exists gr'. split; [exact Hrun|]. eapply moves_eq; [exact Hm | lia..].
  - destruct (Hpre Hd eq_refl) as [Hn Hdead].
    destruct (repeatM_moves (fun g => __trimARow g 0) (-1) 0 (-1) 0 nr nc gr
                (Z.to_nat (Z.abs d)) Hrect) as (gr' & Hrun & Hm).
    + intros k gr1 Hk (E1 & _ & R1 & A1).
      apply trimARow_front; [exact R1 | lia |].
      intros c. rewrite A1. apply Hdead. lia.
    + exists gr'. split; [exact Hrun|]. eapply moves_eq; [exact Hm | lia..].
  - rewrite repeatM_skip. exists gr. split; [reflexivity | now apply moves_refl].
Qed.

Lemma south_phase gr trim d nr nc :
  rect (rows gr) nr nc -> snd (extent gr) = nc ->
  (d <= 0 -> trim = true ->
   - d <= nr /\ forall r, nr + d <= r < nr -> row_dead (rows gr) r) ->
  exists gr',
    repeatM (Z.to_nat (Z.abs d))
      (fun g => if d >? 0 then Ok (__addARow g (len (rows g)))
                else if trim then __trimARow g (len (rows g) - 1)
                else Ok g) gr = Ok gr' /\
    moves nr nc gr gr' (adjustment trim d) 0 0 0.
Proof.
  intros Hrect He Hpre. unfold adjustment.
  destruct (Z.gtb_spec d 0) as [Hd|Hd]; [|destruct trim]; cbv beta iota.
  - destruct (repeatM_moves (fun g => Ok (__addARow g (len (rows g)))) 1 0 0 0 nr nc gr
                (Z.to_nat (Z.abs d)) Hrect) as (gr' & Hrun & Hm).
    + intros k gr1 Hk (E1 & _ & R1 & _). eexists. split; [reflexivity|].
      apply addARow_back; [exact R1 | rewrite E1; lia].
    + exists gr'. split; [exact Hrun|]. eapply moves_eq; [exact Hm | lia..].
  - destruct (Hpre Hd eq_refl) as [Hn Hdead].
    destruct (repeatM_moves (fun g => __trimARow g (len (rows g) - 1)) (-1) 0 0 0 nr nc gr
                (Z.to_nat (Z.abs d)) Hrect) as (gr' & Hrun & Hm).
    + intros k gr1 Hk (E1 & _ & R1 & A1).
      apply trimARow_back; [exact R1 | lia |].
      intros c. rewrite A1. apply Hdead. lia.
    + exists gr'. split; [exact Hrun|]. eapply moves_eq; [exact Hm | lia..].
  - rewrite repeatM_skip. exists gr. split; [reflexivity | now apply moves_refl].
Qed.

Lemma west_phase gr trim d nr nc :
  rect (rows gr) nr nc -> fst (extent gr) = nr ->
  (d <= 0 -> trim = true -> - d <= nc /\ forall c, 0 <= c < - d -> col_dead (rows gr) c) ->
  exists gr',
    repeatM (Z.to_nat (Z.abs d))
      (fun g => if d >? 0 then __addAColumn g 0
                else if trim then __trimAColumn g 0
                else Ok g) gr = Ok gr' /\
    moves nr nc gr gr' 0 (adjustment trim d) 0 (adjustment trim d).
Proof.
  intros Hrect He Hpre. unfold adjustment.
  destruct (Z.gtb_spec d 0) as [Hd|Hd]; [|destruct trim]; cbv beta iota.
  - destruct (repeatM_moves (fun g => __addAColumn g 0) 0 1 0 1 nr nc gr
                (Z.to_nat (Z.abs d)) Hrect) as (gr' & Hrun & Hm).
    + intros k gr1 Hk (E1 & _ & R1 & _).
      apply addAColumn_front; [exact R1 | rewrite E1; lia].
    + exists gr'. split; [exact Hrun|]. eapply moves_eq; [exact Hm | lia..].
  - destruct (Hpre Hd eq_refl) as [Hn Hdead].
    destruct (repeatM_moves (fun g => __trimAColumn g 0) 0 (-1) 0 (-1) nr nc gr
                (Z.to_nat (Z.abs d)) Hrect) as (gr' & Hrun & Hm).
    + intros k gr1 Hk (E1 & _ & R1 & A1).
      apply trimAColumn_front; [exact R1 | rewrite E1; lia | lia |].
      intros r. rewrite A1. apply Hdead. lia.
    + exists gr'. split; [exact Hrun|]. eapply moves_eq; [exact Hm | lia..].
  - rewrite repeatM_skip. exists gr. split; [reflexivity | now apply moves_refl].
Qed.

Lemma east_phase gr trim d nr nc :
  rect (rows gr) nr nc -> fst (extent gr) = nr -> 1 <= nr ->
  (d <= 0 -> trim = true ->
   - d <= nc /\ forall c, nc + d <= c < nc -> col_dead (rows gr) c) ->
  exists gr',
    repeatM (Z.to_nat (Z.abs d))
      (fun g => if d >? 0 then
                  line ← py_getitem (rows g) 0; __addAColumn g (len line)
                else if trim then
                  line ← py_getitem (rows g) 0; __trimAColumn g (len line - 1)
                else Ok g) gr = Ok gr' /\
    moves nr nc gr gr' 0 (adjustment trim d) 0 0.
Proof.
  intros Hrect He Hnr Hpre. unfold adjustment.
  destruct (Z.gtb_spec d 0) as [Hd|Hd]; [|destruct trim]; cbv beta iota.
  - destruct (repeatM_moves
                (fun g => line ← py_getitem (rows g) 0; __addAColumn g (len line))
                0 1 0 0 nr nc gr (Z.to_nat (Z.abs d)) Hrect) as (gr' & Hrun & Hm).
    + intros k gr1 Hk (E1 & _ & R1 & _).
      apply addAColumn_back; [exact R1 | rewrite E1; lia | lia].
    + exists gr'. split; [exact Hrun|]. eapply moves_eq; [exact Hm | lia..].
  - destruct (Hpre Hd eq_refl) as [Hn Hdead].
    destruct (repeatM_moves
                (fun g => line ← py_getitem (rows g) 0; __trimAColumn g (len line - 1))
                0 (-1) 0 0 nr nc gr (Z.to_nat (Z.abs d)) Hrect) as (gr' & Hrun & Hm).
    + intros k gr1 Hk (E1 & _ & R1 & A1).
      apply trimAColumn_back; [exact R1 | rewrite E1; lia | lia | lia |].
      intros r. rewrite A1. apply Hdead. lia.
    + exists gr'. split; [exact Hrun|]. eapply moves_eq; [exact Hm | lia..].
  - rewrite repeatM_skip. exists gr. split; [reflexivity | now apply moves_refl].
Qed.

(** ** Margin maintenance as a whole *)

Lemma bind_eq {A B} (m : result A) (a : A) (f : A -> result B) (r : result B) :
  m = Ok a -> f a = r -> (m ≫= f) = r.
Proof. now intros -> <-. Qed.

Lemma adjustment_ge trim d : d <= adjustment trim d.
Proof. unfold adjustment. destruct (Z.gtb_spec d 0); [lia|]. destruct trim; lia. Qed.

Lemma adjustment_trim d : adjustment true d = d.
Proof. unfold adjustment. now destruct (d >? 0). Qed.

Lemma adjustment_defer d : adjustment false d = Z.max d 0.
Proof. unfold adjustment. destruct (Z.gtb_spec d 0); lia. Qed.

Lemma maintainMargin_spec gr trim :
  well_formed gr -> margins_ok (margins gr) ->
  exists top bottom left right gr',
    live_bounds (rows gr) (fst (extent gr)) (snd (extent gr)) top bottom left right /\
    _maintainMargin gr trim = Ok gr' /\
    well_formed gr' /\ margins gr' = margins gr /\
    let aN := adjustment trim (mN (margins gr) - top) in
    let aS := adjustment trim (mS (margins gr) - (fst (extent gr) - bottom - 1)) in
    let aW := adjustment trim (mW (margins gr) - left) in
    let aE := adjustment trim (mE (margins gr) - (snd (extent gr) - right - 1)) in
    extent gr' = (fst (extent gr) + aN + aS, snd (extent gr) + aW + aE) /\
    forall r c, alive_at (rows gr') r c = alive_at (rows gr) (r - aN) (c - aW).
Proof.
  intros Hwf (HmN & HmE & HmS & HmW).
  destruct (computeDeficits_spec gr Hwf) as (top & bottom & left & right & HB & Hdef).
  exists top, bottom, left, right. pose proof HB as HB'.
  destruct HB as ((Ht1 & Ht2 & Ht3) & (Hb1 & Hb2) & (Hl1 & Hl2 & Hl3) & (Hr1 & Hr2)).
  set (nr := fst (extent gr)) in *. set (nc := snd (extent gr)) in *.
  set (dN := mN (margins gr) - top) in *.
  set (dS := mS (margins gr) - (nr - bottom - 1)) in *.
  set (dW := mW (margins gr) - left) in *.
  set (dE := mE (margins gr) - (nc - right - 1)) in *.
  pose proof (adjustment_ge trim dN) as HaN.
  pose proof (adjustment_ge trim dS) as HaS.
  pose proof (adjustment_ge trim dW) as HaW.
  pose proof (adjustment_ge trim dE) as HaE.
  (* north *)
  destruct (north_phase gr trim dN nr nc Hwf eq_refl) as (g1 & Hrun1 & E1 & M1 & R1 & A1).
  { intros Hd _. split; [subst dN; lia|]. intros r Hr. apply Ht2. subst dN. lia. }
  (* south *)
  set (g1' := set_extent0 g1 (len (rows g1))).
  destruct (south_phase g1' trim dS (nr + adjustment trim dN) nc) as (g2 & Hrun2 & E2 & M2 & R2 & A2).
  { subst g1'. simpl. now rewrite Z.add_0_r in R1. }
  { subst g1'. simpl. now rewrite E1. }
  { intros Hd _. split; [subst dS dN; lia|]. intros r Hr c. subst g1'. simpl.
    rewrite A1. apply Hb2. subst dS. lia. }
  (* west *)
  set (g2' := set_extent0 g2 (len (rows g2))).
  destruct (west_phase g2' trim dW (nr + adjustment trim dN + adjustment trim dS) (nc + 0))
    as (g3 & Hrun3 & E3 & M3 & R3 & A3).
  { subst g2'. simpl. exact R2. }
  { subst g2'. simpl. apply R2. }
  { intros Hd _. split; [subst dW; lia|]. intros c Hc r. subst g2' g1'. simpl.
    rewrite A2. simpl. rewrite A1. apply Hl2. subst dW. lia. }
  (* east *)
  assert (Hrows : 1 <= nr + adjustment trim dN + adjustment trim dS + 0).
  { subst dN dS. lia. }
  destruct (rect_first_row _ _ _ R3 Hrows) as (line3 & Hline3 & Hlen3).
  set (g3' := set_extent1 g3 (len line3)).
  destruct (east_phase g3' trim dE (nr + adjustment trim dN + adjustment trim dS + 0)
              (nc + 0 + adjustment trim dW)) as (g4 & Hrun4 & E4 & M4 & R4 & A4).
  { subst g3'. simpl. exact R3. }
  { subst g3'. simpl. rewrite E3. subst g2'. simpl. destruct R2 as (HR2 & _). lia. }
  { exact Hrows. }
  { intros Hd _. split; [subst dE dW; lia|]. intros c Hc r. subst g3' g2' g1'. simpl.
    rewrite A3. simpl. rewrite A2. simpl. rewrite A1. apply Hr2. subst dE. lia. }
  assert (Hrows' : 1 <= nr + adjustment trim dN + adjustment trim dS + 0 + 0) by lia.
  destruct (rect_first_row _ _ _ R4 Hrows') as (line4 & Hline4 & Hlen4).
  exists (set_extent1 g4 (len line4)).
  split; [exact HB'|].
  split.
  { unfold _maintainMargin.
    eapply bind_eq; [exact Hdef|]. cbv beta iota.
    eapply bind_eq; [exact Hrun1|].
    eapply bind_eq; [exact Hrun2|].
    eapply bind_eq; [exact Hrun3|].
    eapply bind_eq; [unfold refresh_extent1; eapply bind_eq; [exact Hline3|reflexivity]|].
    eapply bind_eq; [exact Hrun4|].
    unfold refresh_extent1. eapply bind_eq; [exact Hline4|reflexivity]. }
  assert (Hext : extent (set_extent1 g4 (len line4)) =
                 (nr + adjustment trim dN + adjustment trim dS,
                  nc + adjustment trim dW + adjustment trim dE)).
  { simpl. rewrite E4. subst g3'. simpl. rewrite E3. subst g2'. simpl.
    f_equal; [destruct R2 as (-> & _); lia | lia]. }
  split.
  { unfold well_formed. rewrite Hext. simpl.
    replace (nr + adjustment trim dN + adjustment trim dS)
      with (nr + adjustment trim dN + adjustment trim dS + 0 + 0) by lia.
    replace (nc + adjustment trim dW + adjustment trim dE)
      with (nc + 0 + adjustment trim dW + adjustment trim dE) by lia.
    exact R4. }
  split.
  { simpl. rewrite M4. subst g3'. simpl. rewrite M3. subst g2'. simpl. rewrite M2.
    subst g1'. simpl. exact M1. }
  cbv zeta. split; [exact Hext|].
  intros r c. simpl. rewrite A4. subst g3'. simpl. rewrite A3. subst g2'. simpl.
  rewrite A2. subst g1'. simpl. rewrite A1. f_equal; lia.
Qed.

(** ** Applying points *)

Lemma isAlive_inj c1 c2 : isAlive c1 = isAlive c2 -> c1 = c2.
Proof. rewrite !isAlive_state. destruct c1, c2; simpl. now intros ->. Qed.

Lemma alive_at_lookup rs r c line cell :
  rs !! r = Some line -> line !! c = Some cell ->
  alive_at rs (Z.of_nat r) (Z.of_nat c) = isAlive cell.
Proof.
  intros Hl Hc. unfold alive_at.
  rewrite decide_True by lia. rewrite Nat2Z.id, Hl. unfold row_alive.
  rewrite decide_True by lia. now rewrite Nat2Z.id, Hc.
Qed.

(** Two rectangles of the same dimensions with the same live cells are
    the same array. *)
Lemma rect_ext rs rs' nr nc :
  rect rs nr nc -> rect rs' nr nc ->
  (forall r c, 0 <= r < nr -> 0 <= c < nc -> alive_at rs r c = alive_at rs' r c) ->
  rs = rs'.
Proof.
  intros (Hr & Hnc & Hc) (Hr' & _ & Hc') H.
  apply list_eq_same_length with (length rs); [unfold len in *; lia | reflexivity |].
  intros i line line' Hi Hl Hl'.
  rewrite Forall_lookup in Hc, Hc'.
  pose proof (Hc _ _ Hl) as Hlen. pose proof (Hc' _ _ Hl') as Hlen'. simpl in *.
  apply list_eq_same_length with (length line); [unfold len in *; lia | reflexivity |].
  intros j cell cell' Hj Hcell Hcell'.
  apply isAlive_inj.
  rewrite <- (alive_at_lookup _ _ _ _ _ Hl Hcell), <- (alive_at_lookup _ _ _ _ _ Hl' Hcell').
  apply H; unfold len in *; lia.
Qed.

Lemma alive_at_insert rs k j line v r c :
  rs !! k = Some line -> (j < length line)%nat ->
  alive_at (<[k := <[j := v]> line]> rs) r c =
  if decide (r = Z.of_nat k /\ c = Z.of_nat j) then isAlive v else alive_at rs r c.
Proof.
  intros Hl Hj. pose proof (lookup_lt_Some _ _ _ Hl) as Hk.
  unfold alive_at. destruct (decide (0 <= r)) as [Hr|Hr].
  2:{ now rewrite decide_False by lia. }
  destruct (decide (Z.to_nat r = k)) as [<-|Hne].
  - rewrite list_lookup_insert_eq by exact Hk. rewrite Hl.
    unfold row_alive. destruct (decide (0 <= c)) as [Hc|Hc].
    2:{ now rewrite decide_False by lia. }
    destruct (decide (Z.to_nat c = j)) as [<-|Hne].
    + rewrite list_lookup_insert_eq by exact Hj. now rewrite decide_True by lia.
    + rewrite list_lookup_insert_ne by congruence. now rewrite decide_False by lia.
  - rewrite list_lookup_insert_ne by congruence. now rewrite decide_False by lia.
Qed.

Lemma set_point_inv gr x gr' :
  set_point gr x = Ok gr' ->
  exists k j line,
    py_index (rows gr) (row x) = Ok k /\ rows gr !! k = Some line /\
    py_index line (col x) = Ok j /\
    gr' = set_rows gr (<[k := <[j := state x]> line]> (rows gr)).
Proof.
  unfold set_point, update_row, py_setitem. intros H.
  apply bind_Ok in H as (rs & H & [= <-]).
  apply bind_Ok in H as (k & Hk & H).
  destruct (rows gr !! k) as [line|] eqn:Hl; [|discriminate].
  apply bind_Ok in H as (line' & H & [= <-]).
  apply bind_Ok in H as (j & Hj & [= <-]).
  exists k, j, line. auto.
Qed.

Lemma set_point_in_range gr x :
  well_formed gr ->
  0 <= row x < fst (extent gr) -> 0 <= col x < snd (extent gr) ->
  exists line,
    rows gr !! Z.to_nat (row x) = Some line /\
    (Z.to_nat (col x) < length line)%nat /\
    set_point gr x =
      Ok (set_rows gr (<[Z.to_nat (row x) := <[Z.to_nat (col x) := state x]> line]> (rows gr))).
Proof.
  intros (Hr & Hnc & Hc) Hrow Hcol.
  destruct (lookup_lt_is_Some_2 (rows gr) (Z.to_nat (row x))) as [line Hl].
  { unfold len in Hr. lia. }
  rewrite Forall_lookup in Hc. pose proof (Hc _ _ Hl) as Hlen. simpl in Hlen.
  exists line. split; [exact Hl|]. split; [unfold len in Hlen; lia|].
  unfold set_point, update_row, py_setitem.
  rewrite py_index_nonneg by lia. simpl. rewrite Hl.
  rewrite py_index_nonneg by lia. reflexivity.
Qed.

Lemma rect_insert rs nr nc k j line v :
  rect rs nr nc -> rs !! k = Some line ->
  rect (<[k := <[j := v]> line]> rs) nr nc.
Proof.
  intros (Hr & Hnc & Hc) Hl. split; [|split; [exact Hnc|]].
  - unfold len in *. now rewrite length_insert.
  - apply Forall_insert; [exact Hc|].
    rewrite Forall_lookup in Hc. specialize (Hc _ _ Hl). simpl in Hc.
    unfold len in *. now rewrite length_insert.
Qed.

Lemma set_point_well_formed gr x gr' :
  well_formed gr -> set_point gr x = Ok gr' ->
  well_formed gr' /\ extent gr' = extent gr /\ margins gr' = margins gr.
Proof.
  intros Hwf H. apply set_point_inv in H as (k & j & line & _ & Hl & _ & ->).
  split; [|split; reflexivity]. unfold well_formed. simpl. now apply rect_insert.
Qed.

Lemma set_points_well_formed pts :
  forall gr gr', well_formed gr -> foldM set_point gr pts = Ok gr' ->
    well_formed gr' /\ extent gr' = extent gr /\ margins gr' = margins gr.
Proof.
  induction pts as [|x pts IH]; intros gr gr' Hwf H; simpl in H.
  - injection H as <-. auto.
  - apply bind_Ok in H as (g1 & H1 & H2).
    destruct (set_point_well_formed _ _ _ Hwf H1) as (Hwf1 & E1 & M1).
    destruct (IH _ _ Hwf1 H2) as (Hwf' & E' & M'). split; [exact Hwf'|]. split; congruence.
Qed.

(** ** The margin invariant *)

Lemma maintainMargin_margin_respected gr trim :
  well_formed gr -> margins_ok (margins gr) ->
  exists gr', _maintainMargin gr trim = Ok gr' /\
    well_formed gr' /\ margins gr' = margins gr /\ margin_respected gr'.
Proof.
  intros Hwf Hm.
  destruct (maintainMargin_spec gr trim Hwf Hm)
    as (top & bottom & left & right & gr' & HB & Hrun & Hwf' & Hm' & Hext & Ha).
  exists gr'. split; [exact Hrun|]. split; [exact Hwf'|]. split; [exact Hm'|].
  destruct HB as ((Ht1 & Ht2 & Ht3) & (Hb1 & Hb2) & (Hl1 & Hl2 & Hl3) & (Hr1 & Hr2)).
  intros r c Hlive. rewrite Ha in Hlive. rewrite Hm', Hext. simpl.
  pose proof (adjustment_ge trim (mN (margins gr) - top)).
  pose proof (adjustment_ge trim (mS (margins gr) - (fst (extent gr) - bottom - 1))).
  pose proof (adjustment_ge trim (mW (margins gr) - left)).
  pose proof (adjustment_ge trim (mE (margins gr) - (snd (extent gr) - right - 1))).
  set (aN := adjustment trim (mN (margins gr) - top)) in *.
  set (aW := adjustment trim (mW (margins gr) - left)) in *.
  assert (top <= r - aN).
  { destruct (decide (top <= r - aN)); [assumption|].
    rewrite (Ht2 (r - aN)) in Hlive by lia. discriminate. }
  assert (r - aN <= bottom).
  { destruct (decide (r - aN <= bottom)); [assumption|].
    rewrite (Hb2 (r - aN)) in Hlive by lia. discriminate. }
  assert (left <= c - aW).
  { destruct (decide (left <= c - aW)); [assumption|].
    rewrite (Hl2 (c - aW)) in Hlive by lia. discriminate. }
  assert (c - aW <= right).
  { destruct (decide (c - aW <= right)); [assumption|].
    rewrite (Hr2 (c - aW)) in Hlive by lia. discriminate. }
  lia.
Qed.

(** C3: after every [applyPoints] call that returns, on each of the four
    sides every live cell is at least the configured margin away from the
    edge (more when a shrink was deferred, never less), so the first and
    last row and column of the array hold no live cell; the array still
    matches its recorded extent. *)
Theorem applyPoints_margin_invariant :
  forall (gr : Grid) (pts : list GridPoint) (trim_now : bool) (gr' : Grid),
    well_formed gr -> margins_ok (margins gr) ->
    applyPoints gr pts trim_now = Ok gr' ->
    well_formed gr' /\ margins gr' = margins gr /\
    margin_respected gr' /\
    row_dead (rows gr') 0 /\ row_dead (rows gr') (fst (extent gr') - 1) /\
    col_dead (rows gr') 0 /\ col_dead (rows gr') (snd (extent gr') - 1).
Proof.
  intros gr pts trim_now gr' Hwf Hm H. unfold applyPoints in H.
  apply bind_Ok in H as (g1 & H1 & H2).
  destruct (set_points_well_formed _ _ _ Hwf H1) as (Hwf1 & E1 & M1).
  destruct (maintainMargin_margin_respected g1 trim_now Hwf1) as (g2 & Hrun & Hwf2 & M2 & Hresp).
  { now rewrite M1. }
  rewrite Hrun in H2. injection H2 as <-.
  assert (Hm2 : margins_ok (margins g2)) by now rewrite M2, M1.
  destruct Hm2 as (? & ? & ? & ?).
  split; [exact Hwf2|]. split; [congruence|]. split; [exact Hresp|].
  repeat split; intros k;
    match goal with
    | |- alive_at ?rs ?r ?c = false =>
        destruct (alive_at rs r c) eqn:E; [apply Hresp in E; lia | reflexivity]
    end.
Qed.

Lemma applyPoints_margin_invariant_witness :
  well_formed corner_grid /\ margins_ok (margins corner_grid) /\
  applyPoints corner_grid [GridPoint_init 0 0 true] true = Ok corner_grid_applied /\
  (well_formed corner_grid_applied /\
   margins corner_grid_applied = margins corner_grid /\
   margin_respected corner_grid_applied /\
   row_dead (rows corner_grid_applied) 0 /\
   row_dead (rows corner_grid_applied) (fst (extent corner_grid_applied) - 1) /\
   col_dead (rows corner_grid_applied) 0 /\
   col_dead (rows corner_grid_applied) (snd (extent corner_grid_applied) - 1)).
Proof.
  assert (Hwf : well_formed corner_grid).
  { apply (rect_replicate 3 3); lia. }
  assert (Hm : margins_ok (margins corner_grid)).
  { unfold margins_ok. simpl. lia. }
  assert (Happ : applyPoints corner_grid [GridPoint_init 0 0 true] true
                 = Ok corner_grid_applied).
  { vm_compute. reflexivity. }
  split; [exact Hwf|]. split; [exact Hm|]. split; [exact Happ|].
  exact (applyPoints_margin_invariant corner_grid [GridPoint_init 0 0 true] true
           corner_grid_applied Hwf Hm Happ).
Defined.

(** ** Margin maintenance on a dead grid *)

Lemma all_dead_rows gr :
  well_formed gr -> all_dead gr ->
  rows gr = replicate (Z.to_nat (fst (extent gr)))
                      (replicate (Z.to_nat (snd (extent gr))) dead_cell).
Proof.
  intros Hwf Hd. pose proof Hwf as (Hr & Hnc & _).
  eapply rect_ext; [exact Hwf | apply rect_replicate |].
  - rewrite <- Hr. apply len_nonneg.
  - exact Hnc.
  - intros r c _ _. now rewrite Hd, alive_at_replicate_dead.
Qed.

(** What the bounds scan of margin maintenance does to a grid with no
    live cell: [top] and [left] run to the row and column counts while
    [bottom] and [right] stay on the last row and column, so the south
    and east deficits are the full margins.  Every cell stays dead, but
    [S] rows and [E] columns are added, and the north and west excess is
    removed when [trim_now] is true. *)
Lemma maintainMargin_dead_grid :
  forall (gr : Grid) (trim_now : bool),
    well_formed gr -> margins_ok (margins gr) -> all_dead gr ->
    exists gr',
      _maintainMargin gr trim_now = Ok gr' /\
      applyPoints gr [] trim_now = Ok gr' /\
      all_dead gr' /\ well_formed gr' /\ margins gr' = margins gr /\
      extent gr' =
        (if trim_now
         then (mN (margins gr) + mS (margins gr), mW (margins gr) + mE (margins gr))
         else (Z.max (fst (extent gr)) (mN (margins gr)) + mS (margins gr),
               Z.max (snd (extent gr)) (mW (margins gr)) + mE (margins gr))) /\
      rows gr' = replicate (Z.to_nat (fst (extent gr')))
                           (replicate (Z.to_nat (snd (extent gr'))) dead_cell).
Proof.
  intros gr trim_now Hwf Hm Hd.
  destruct (maintainMargin_spec gr trim_now Hwf Hm)
    as (top & bottom & left & right & gr' & HB & Hrun & Hwf' & Hm' & Hext & Ha).
  assert (Hd' : all_dead gr') by (intros r c; now rewrite Ha).
  exists gr'. split; [exact Hrun|]. split; [exact Hrun|]. split; [exact Hd'|].
  split; [exact Hwf'|]. split; [exact Hm'|]. split; [|now apply all_dead_rows].
  destruct HB as ((Ht1 & Ht2 & Ht3) & (Hb1 & Hb2) & (Hl1 & Hl2 & Hl3) & (Hr1 & Hr2)).
  destruct Hm as (HmN & HmE & HmS & HmW).
  assert (top = fst (extent gr)) as ->.
  { destruct (decide (top < fst (extent gr))) as [Hlt|]; [|lia].
    exfalso. apply (Ht3 Hlt). intros c. apply Hd. }
  assert (left = snd (extent gr)) as ->.
  { destruct (decide (left < snd (extent gr))) as [Hlt|]; [|lia].
    exfalso. apply (Hl3 Hlt). intros r. apply Hd. }
  rewrite Hext. destruct trim_now.
  - rewrite !adjustment_trim. apply pair_equal_spec. split; lia.
  - rewrite !adjustment_defer. apply pair_equal_spec. split; lia.
Qed.

(** C6 (the code departs from the claim): a grid with no live cell is
    not left alone.  On the dead 10 x 20 grid with margins (2, 3, 2, 3),
    margin maintenance with [trim_now] false, and so [applyPoints] with no
    points, returns a dead 12 x 23 grid: south rows and east columns are
    added although no live cell needs room.  With [trim_now] true the
    same grid is cut down to 4 x 6.  A run reaches this state: in the
    default game seeded with the single cell "X" the cell dies in the
    first tick, and the dead board is 12 x 23, 14 x 26 and 16 x 29 after
    the first three ticks. *)
Theorem maintainMargin_resizes_dead_grid :
  _maintainMargin dead_grid false =
    Ok (mkGrid (replicate 12 (replicate 23 dead_cell)) (12, 23) (mkMargins 2 3 2 3)) /\
  applyPoints dead_grid [] false =
    Ok (mkGrid (replicate 12 (replicate 23 dead_cell)) (12, 23) (mkMargins 2 3 2 3)) /\
  _maintainMargin dead_grid true =
    Ok (mkGrid (replicate 4 (replicate 6 dead_cell)) (4, 6) (mkMargins 2 3 2 3)) /\
  (gm0 ← GameOfLife_init (10, 20) (mkMargins 2 3 2 3) (py_str "X");
   gm1 ← tick gm0; gm2 ← tick gm1; gm3 ← tick gm2;
   Ok (map (fun gm => (extent (g gm), rows (g gm))) [gm1; gm2; gm3])) =
  Ok [((12, 23), replicate 12 (replicate 23 dead_cell));
      ((14, 26), replicate 14 (replicate 26 dead_cell));
      ((16, 29), replicate 16 (replicate 29 dead_cell))].
Proof.
  split; [vm_compute; reflexivity|]. split; [vm_compute; reflexivity|].
  split; vm_compute; reflexivity.
Qed.

(** ** Reachable game states *)

Lemma Grid_init_inv gridType ext m gr :
  Grid_init gridType ext m = Ok gr ->
  well_formed gr /\ margins_ok (margins gr) /\ all_dead gr /\ extent gr = ext /\
  margins gr = m /\
  mN m + mS m <= fst ext /\ mE m + mW m <= snd ext.
Proof.
  unfold Grid_init. rewrite map_const_range. simpl existsb. rewrite orb_false_r.
  destruct (negb _); [discriminate|].
  destruct (Z.ltb_spec (mN m) 1); [discriminate|].
  destruct (Z.ltb_spec (mE m) 1); [discriminate|].
  destruct (Z.ltb_spec (mS m) 1); [discriminate|].
  destruct (Z.ltb_spec (mW m) 1); [discriminate|]. simpl.
  destruct (Z.ltb_spec (fst ext) (mN m + mS m)); [discriminate|].
  destruct (Z.ltb_spec (snd ext) (mE m + mW m)); [discriminate|]. simpl.
  intros [= <-]. simpl. split; [apply (rect_replicate (fst ext) (snd ext)); lia|].
  split; [unfold margins_ok; lia|]. split; [|auto].
  intros r c. apply alive_at_replicate_dead.
Qed.

Lemma applyPoints_grid_inv gr pts trim gr' :
  well_formed gr -> margins_ok (margins gr) ->
  applyPoints gr pts trim = Ok gr' -> grid_inv gr'.
Proof.
  intros Hwf Hm H. unfold applyPoints in H.
  apply bind_Ok in H as (g1 & H1 & H2).
  destruct (set_points_well_formed _ _ _ Hwf H1) as (Hwf1 & E1 & M1).
  destruct (maintainMargin_margin_respected g1 trim Hwf1) as (g2 & Hrun & Hwf2 & M2 & Hresp).
  { now rewrite M1. }
  rewrite Hrun in H2. injection H2 as <-.
  split; [exact Hwf2|]. split; [now rewrite M2, M1 | exact Hresp].
Qed.

Lemma tick_inv gm gm' :
  tick gm = Ok gm' ->
  exists ts, collect_transitions gm = Ok ts /\
    applyPoints (g gm) ts (trim_flag (tickCount gm)) = Ok (g gm') /\
    tickCount gm' = tickCount gm + 1.
Proof.
  unfold tick. intros H.
  apply bind_Ok in H as (ts & Hts & H).
  apply bind_Ok in H as (g' & Hg & [= <-]).
  exists ts. auto.
Qed.

Lemma reachable_inv gm : reachable gm -> grid_inv (g gm) /\ 0 <= tickCount gm.
Proof.
  induction 1 as [ext m pat gm H | gm gm' Hreach [IH Htc] H].
  - unfold GameOfLife_init in H.
    apply bind_Ok in H as (g0 & H0 & H).
    apply bind_Ok in H as (g1 & H1 & [= <-]). simpl.
    apply Grid_init_inv in H0 as (Hwf & Hm & _).
    unfold seedPattern in H1. simpl in H1.
    split; [eapply applyPoints_grid_inv; eauto | lia].
  - apply tick_inv in H as (ts & _ & Happ & Htc').
    destruct IH as (Hwf & Hm & _).
    split; [eapply applyPoints_grid_inv; eauto | lia].
Qed.

(** ** Neighbour counting *)

Lemma py_getitem_norm {A} (l : list A) i :
  py_getitem l i =
  match (if decide (0 <= py_norm (len l) i) then l !! Z.to_nat (py_norm (len l) i) else None) with
  | Some x => Ok x
  | None => Raise IndexError
  end.
Proof.
  unfold py_norm. pose proof (len_nonneg l) as Hl.
  destruct (decide (- len l <= i < 0)) as [Hneg|Hneg].
  - rewrite py_getitem_negative by lia. rewrite decide_True by lia.
    unfold py_getitem. rewrite py_index_nonneg by lia. reflexivity.
  - destruct (decide (0 <= i)) as [H0|H0].
    + destruct (decide (i < len l)).
      * unfold py_getitem. rewrite py_index_nonneg by lia. reflexivity.
      * rewrite py_getitem_outside by lia.
        rewrite lookup_ge_None_2; [reflexivity | unfold len in *; lia].
    + now rewrite py_getitem_outside by lia.
Qed.

(** What [getCell] returns for any pair of subscripts. *)
Lemma getCell_alive gr r c :
  well_formed gr ->
  isAlive (getCell gr r c) =
  alive_at (rows gr) (py_norm (fst (extent gr)) r) (py_norm (snd (extent gr)) c).
Proof.
  intros (Hr & Hnc & Hc). unfold getCell, alive_at.
  rewrite py_getitem_norm, Hr.
  destruct (decide (0 <= py_norm (fst (extent gr)) r)) as [H0|H0]; [|reflexivity].
  destruct (rows gr !! _) as [line|] eqn:Hl; [|reflexivity]. simpl.
  rewrite Forall_lookup in Hc. specialize (Hc _ _ Hl). simpl in Hc.
  rewrite py_getitem_norm, Hc. unfold row_alive.
  destruct (decide (0 <= py_norm (snd (extent gr)) c)) as [H1|H1]; [|reflexivity].
  destruct (line !! _) as [cell|]; reflexivity.
Qed.

Lemma margin_border_dead gr r c :
  grid_inv gr ->
  r <= 0 \/ fst (extent gr) - 1 <= r \/ c <= 0 \/ snd (extent gr) - 1 <= c ->
  alive_at (rows gr) r c = false.
Proof.
  intros (_ & (? & ? & ? & ?) & Hresp) Hside.
  destruct (alive_at (rows gr) r c) eqn:E; [|reflexivity].
  apply Hresp in E. lia.
Qed.

(** Around a cell of the array [getCell] agrees with the total lookup:
    the only subscripts that wrap are [-1], and they read the last row or
    column, which the margin keeps dead. *)
Lemma getCell_neighbor gr r c :
  grid_inv gr ->
  -1 <= r <= fst (extent gr) -> -1 <= c <= snd (extent gr) ->
  isAlive (getCell gr r c) = alive_at (rows gr) r c.
Proof.
  intros Hinv Hr Hc. pose proof Hinv as (Hwf & _).
  rewrite (getCell_alive gr r c Hwf). unfold py_norm.
  destruct (decide (- fst (extent gr) <= r < 0)).
  - rewrite !(margin_border_dead gr) by (auto; lia). reflexivity.
  - destruct (decide (- snd (extent gr) <= c < 0)); [|reflexivity].
    rewrite !(margin_border_dead gr) by (auto; lia). reflexivity.
Qed.

Lemma len_filter_cons {A} (f : A -> bool) x l :
  len (filter (fun s => f s = true) (x :: l)) =
  b2z (f x) + len (filter (fun s => f s = true) l).
Proof.
  rewrite filter_cons. destruct (f x) eqn:E.
  - rewrite decide_True by reflexivity. rewrite len_cons. simpl. lia.
  - rewrite decide_False by discriminate. reflexivity.
Qed.

Lemma countNeighborsCell_moore gr r c :
  grid_inv gr ->
  0 <= r < fst (extent gr) -> 0 <= c < snd (extent gr) ->
  _countNeighborsCell gr r c = moore_count (alive_at (rows gr)) r c.
Proof.
  intros Hinv Hr Hc. unfold _countNeighborsCell, directions, moore_count.
  rewrite !(len_filter_cons (fun s => isAlive (getCell gr (fst s + r) (snd s + c)))).
  rewrite filter_nil. change (len []) with 0. cbn [fst snd].
  rewrite !(getCell_neighbor gr) by (auto; lia).
  replace (-1 + r) with (r - 1) by lia. replace (-1 + c) with (c - 1) by lia.
  replace (1 + r) with (r + 1) by lia. replace (1 + c) with (c + 1) by lia.
  replace (0 + r) with r by lia. replace (0 + c) with c by lia. lia.
Qed.

(** ** Collecting the transitions *)

Lemma foldM_collect {A B} (body : list B -> A -> result (list B)) (k : A -> list B) l :
  (forall acc x, x ∈ l -> body acc x = Ok (acc ++ k x)) ->
  forall acc, foldM body acc l = Ok (acc ++ concat (map k l)).
Proof.
  induction l as [|x l IH]; intros H acc; simpl.
  - now rewrite app_nil_r.
  - rewrite (H acc x) by left. simpl.
    rewrite IH by (intros acc' y Hy; apply H; now right).
    now rewrite app_assoc.
Qed.

Lemma len_map_range {A} (k : Z -> A) n : 0 <= n -> len (map k (range n)) = n.
Proof. intros H. unfold len, range. rewrite length_map, length_seqZ. lia. Qed.

Lemma py_getitem_map_range {A} (k : Z -> A) n i :
  0 <= i < n -> py_getitem (map k (range n)) i = Ok (k i).
Proof.
  intros H. apply py_getitem_nonneg; [lia|].
  unfold range. rewrite list_lookup_fmap, lookup_seqZ_lt by lia.
  simpl. f_equal. f_equal. lia.
Qed.

Lemma determineTransitions_spec gm r :
  grid_inv (g gm) -> 0 <= r < fst (extent (g gm)) ->
  _determineTransitions gm r (countNeighborsForRow (g gm) r) =
  Ok (row_transitions (alive_at (rows (g gm))) (snd (extent (g gm))) r).
Proof.
  intros Hinv Hr. pose proof Hinv as (Hwf & _). pose proof Hwf as (_ & Hnc & _).
  unfold _determineTransitions, countNeighborsForRow, row_transitions.
  rewrite len_map_range by exact Hnc.
  rewrite (foldM_collect _ (transition_of (alive_at (rows (g gm))) r)); [reflexivity|].
  intros acc c Hc. apply elem_of_range in Hc.
  rewrite py_getitem_map_range by exact Hc. simpl.
  rewrite (countNeighborsCell_moore _ _ _ Hinv Hr Hc).
  unfold __dieTest, __birthTest, transition_of.
  rewrite (isCellAlive_in_range _ _ _ _ _ Hwf Hr Hc).
  set (n := moore_count (alive_at (rows (g gm))) r c).
  set (a := alive_at (rows (g gm)) r c).
  destruct (negb ((2 <=? n) && (n <=? 3))), (3 =? n), a; simpl;
    rewrite ?app_nil_r; reflexivity.
Qed.

Lemma collect_transitions_spec gm :
  grid_inv (g gm) ->
  collect_transitions gm =
  Ok (all_transitions (alive_at (rows (g gm))) (fst (extent (g gm))) (snd (extent (g gm)))).
Proof.
  intros Hinv. unfold collect_transitions, Grid_getExtent, all_transitions.
  destruct (extent (g gm)) as [nr nc] eqn:E. simpl.
  rewrite (foldM_collect _ (row_transitions (alive_at (rows (g gm))) nc)); [reflexivity|].
  intros acc r Hr. apply elem_of_range in Hr.
  rewrite determineTransitions_spec by (auto; rewrite E; exact Hr).
  rewrite E. simpl. destruct (row_transitions _ _ _); simpl; [now rewrite app_nil_r | reflexivity].
Qed.

Lemma elem_of_concat_map {A B} (k : A -> list B) l x :
  x ∈ concat (map k l) <-> exists a, a ∈ l /\ x ∈ k a.
Proof.
  induction l as [|a l IH]; simpl.
  - split; [intros H; inversion H | intros (a & H & _); inversion H].
  - rewrite elem_of_app, IH. split.
    + intros [H|(b & Hb & H)]; [exists a; split; [left | exact H] |
                                 exists b; split; [now right | exact H]].
    + intros (b & Hb & H). apply elem_of_cons in Hb as [->|Hb]; [now left | right; eauto].
Qed.

Lemma elem_of_all_transitions f nr nc p :
  p ∈ all_transitions f nr nc <->
  exists r c, 0 <= r < nr /\ 0 <= c < nc /\ p ∈ transition_of f r c.
Proof.
  unfold all_transitions, row_transitions. rewrite elem_of_concat_map. split.
  - intros (r & Hr & Hp). apply elem_of_concat_map in Hp as (c & Hc & Hp).
    apply elem_of_range in Hr, Hc. eauto.
  - intros (r & c & Hr & Hc & Hp). exists r. split; [now apply elem_of_range|].
    apply elem_of_concat_map. exists c. split; [now apply elem_of_range | exact Hp].
Qed.

Lemma elem_of_transition_of f r c p :
  p ∈ transition_of f r c <->
  (p = GridPoint_init r c false /\ f r c = true /\ ~ 2 <= moore_count f r c <= 3) \/
  (p = GridPoint_init r c true /\ f r c = false /\ moore_count f r c = 3).
Proof.
  unfold transition_of. set (n := moore_count f r c).
  destruct (Z.leb_spec 2 n) as [Hlo|Hlo], (Z.leb_spec n 3) as [Hhi|Hhi],
    (Z.eqb_spec 3 n) as [Heq|Heq], (f r c); simpl;
    rewrite ?list_elem_of_singleton, ?elem_of_nil;
    (split; [intros Hp | intros [(Hp & Hf & Hn)|(Hp & Hf & Hn)]]);
    try discriminate; try lia; try contradiction; try exact Hp;
    try (left; split; [exact Hp | split; [reflexivity | lia]]);
    try (right; split; [exact Hp | split; [reflexivity | lia]]).
Qed.

Lemma transition_of_rule f r c p :
  p ∈ transition_of f r c ->
  row p = r /\ col p = c /\ isAlive (state p) = life_rule (f r c) (moore_count f r c).
Proof.
  rewrite elem_of_transition_of. unfold life_rule.
  intros [(-> & -> & Hn)|(-> & -> & Hn)]; simpl; repeat split.
  - symmetry. apply andb_false_iff.
    destruct (Z.leb_spec 2 (moore_count f r c)); [right|now left].
    apply Z.leb_gt. lia.
  - symmetry. now apply Z.eqb_eq.
Qed.

Lemma no_transition_rule f r c :
  (forall p, ~ p ∈ transition_of f r c) ->
  life_rule (f r c) (moore_count f r c) = f r c.
Proof.
  intros H. unfold life_rule. set (n := moore_count f r c).
  destruct (f r c) eqn:E.
  - destruct (Z.leb_spec 2 n); [destruct (Z.leb_spec n 3); [reflexivity|]|];
      exfalso; apply (H (GridPoint_init r c false)); apply elem_of_transition_of;
      left; fold n; repeat split; auto; lia.
  - destruct (Z.eqb_spec n 3) as [Hn|Hn]; [|reflexivity].
    exfalso. apply (H (GridPoint_init r c true)). apply elem_of_transition_of.
    right. fold n. auto.
Qed.

Lemma set_points_spec pts :
  forall gr, well_formed gr ->
    (forall p, p ∈ pts -> 0 <= row p < fst (extent gr) /\ 0 <= col p < snd (extent gr)) ->
    exists g1, foldM set_point gr pts = Ok g1 /\
      well_formed g1 /\ extent g1 = extent gr /\ margins g1 = margins gr /\
      forall r c,
        (alive_at (rows g1) r c = alive_at (rows gr) r c /\
         forall p, p ∈ pts -> ~ (row p = r /\ col p = c)) \/
        (exists p, p ∈ pts /\ row p = r /\ col p = c /\
           alive_at (rows g1) r c = isAlive (state p)).
Proof.
  induction pts as [|x pts IH]; intros gr Hwf Hin; simpl.
  - exists gr. split; [reflexivity|]. split; [exact Hwf|].
    split; [reflexivity|]. split; [reflexivity|].
    intros r c. left. split; [reflexivity|]. intros p Hp. inversion Hp.
  - destruct (Hin x ltac:(left)) as [Hxr Hxc].
    destruct (set_point_in_range gr x Hwf Hxr Hxc) as (line & Hl & Hj & ->). simpl.
    set (g' := set_rows gr _).
    assert (Hwf' : well_formed g') by (apply rect_insert; [exact Hwf | exact Hl]).
    destruct (IH g' Hwf') as (g1 & Hrun & Hwf1 & E1 & M1 & Hcells).
    { intros p Hp. apply Hin. now right. }
    exists g1. split; [exact Hrun|]. split; [exact Hwf1|]. split; [exact E1|].
    split; [exact M1|].
    intros r c. destruct (Hcells r c) as [[Heq Hnone]|(p & Hp & Hpr & Hpc & Heq)].
    + subst g'. simpl in Heq. rewrite (alive_at_insert _ _ _ _ _ _ _ Hl Hj) in Heq.
      rewrite !Z2Nat.id in Heq by lia.
      destruct (decide (r = row x /\ c = col x)) as [[-> ->]|Hne].
      * right. exists x. split; [left|]. auto.
      * left. split; [exact Heq|]. intros p Hp [Hr Hc].
        apply elem_of_cons in Hp as [->|Hp]; [apply Hne; auto | apply (Hnone p Hp); auto].
    + right. exists p. split; [now right|]. auto.
Qed.

(** The cell phase of a tick: the transitions exist, apply without error,
    and leave in every cell what the rule prescribes. *)
Lemma transitions_apply gr :
  grid_inv gr ->
  let f := alive_at (rows gr) in
  let ts := all_transitions f (fst (extent gr)) (snd (extent gr)) in
  exists g1, foldM set_point gr ts = Ok g1 /\
    well_formed g1 /\ extent g1 = extent gr /\ margins g1 = margins gr /\
    forall r c, 0 <= r < fst (extent gr) -> 0 <= c < snd (extent gr) ->
      alive_at (rows g1) r c = life_rule (f r c) (moore_count f r c).
Proof.
  intros Hinv f ts. pose proof Hinv as (Hwf & _).
  destruct (set_points_spec ts gr Hwf) as (g1 & Hrun & Hwf1 & E1 & M1 & Hcells).
  { intros p Hp. apply elem_of_all_transitions in Hp as (r & c & Hr & Hc & Hp).
    apply transition_of_rule in Hp as (-> & -> & _). auto. }
  exists g1. split; [exact Hrun|]. split; [exact Hwf1|]. split; [exact E1|].
  split; [exact M1|].
  intros r c Hr Hc. destruct (Hcells r c) as [[Heq Hnone]|(p & Hp & Hpr & Hpc & Heq)].
  - rewrite Heq. symmetry. apply no_transition_rule.
    intros p Hp. pose proof (transition_of_rule _ _ _ _ Hp) as (Hpr & Hpc & _).
    apply (Hnone p); [|auto]. apply elem_of_all_transitions. eauto.
  - rewrite Heq. apply elem_of_all_transitions in Hp as (r' & c' & _ & _ & Hp).
    apply transition_of_rule in Hp as (Hr' & Hc' & ->). congruence.
Qed.

(** ** The tick *)

Lemma blinker_game_reachable : reachable blinker_game.
Proof.
  apply (reach_init (10, 20) (mkMargins 2 3 2 3) (py_str "XXX")).
  vm_compute. reflexivity.
Qed.

(** C1: in every state a game can reach, the transition list of a tick
    has a death transition exactly for the live cells whose Moore count is
    outside [2,3], a birth transition exactly for the dead cells whose
    count is 3, and nothing else; applying it leaves in each cell of the
    extent the Game-of-Life rule applied to the cell's state and neighbour
    count before the tick. *)
Theorem tick_transitions_follow_life_rule :
  forall gm : GameOfLife,
    reachable gm ->
    let f := alive_at (rows (g gm)) in
    let nr := fst (extent (g gm)) in
    let nc := snd (extent (g gm)) in
    exists ts g1,
      collect_transitions gm = Ok ts /\
      foldM set_point (g gm) ts = Ok g1 /\
      extent g1 = extent (g gm) /\
      (forall p, p ∈ ts ->
         0 <= row p < nr /\ 0 <= col p < nc /\
         (p = GridPoint_init (row p) (col p) false \/
          p = GridPoint_init (row p) (col p) true)) /\
      forall r c, 0 <= r < nr -> 0 <= c < nc ->
        (GridPoint_init r c false ∈ ts <->
           f r c = true /\ ~ 2 <= moore_count f r c <= 3) /\
        (GridPoint_init r c true ∈ ts <->
           f r c = false /\ moore_count f r c = 3) /\
        alive_at (rows g1) r c = life_rule (f r c) (moore_count f r c).
Proof.
  intros gm Hreach f nr nc.
  destruct (reachable_inv gm Hreach) as [Hinv _].
  destruct (transitions_apply (g gm) Hinv) as (g1 & Hrun & _ & E1 & _ & Hcells).
  exists (all_transitions f nr nc), g1.
  split; [now apply collect_transitions_spec|]. split; [exact Hrun|].
  split; [exact E1|]. split.
  - intros p Hp. apply elem_of_all_transitions in Hp as (r & c & Hr & Hc & Hp).
    pose proof (transition_of_rule _ _ _ _ Hp) as (-> & -> & _).
    split; [exact Hr|]. split; [exact Hc|].
    apply elem_of_transition_of in Hp as [(-> & _)|(-> & _)]; simpl; auto.
  - intros r c Hr Hc. split; [|split; [|now apply Hcells]].
    + rewrite elem_of_all_transitions. split.
      * intros (r' & c' & _ & _ & Hp).
        pose proof (transition_of_rule _ _ _ _ Hp) as (Hr' & Hc' & _). simpl in Hr', Hc'.
        subst r' c'. apply elem_of_transition_of in Hp as [(_ & ? & ?)|([=] & _)]. auto.
      * intros [Hf Hn]. exists r, c. split; [exact Hr|]. split; [exact Hc|].
        apply elem_of_transition_of. left. auto.
    + rewrite elem_of_all_transitions. split.
      * intros (r' & c' & _ & _ & Hp).
        pose proof (transition_of_rule _ _ _ _ Hp) as (Hr' & Hc' & _). simpl in Hr', Hc'.
        subst r' c'. apply elem_of_transition_of in Hp as [([=] & _)|(_ & ? & ?)]. auto.
      * intros [Hf Hn]. exists r, c. split; [exact Hr|]. split; [exact Hc|].
        apply elem_of_transition_of. right. auto.
Qed.

Lemma tick_transitions_follow_life_rule_witness :
  reachable blinker_game /\
  exists ts g1,
    collect_transitions blinker_game = Ok ts /\
    foldM set_point (g blinker_game) ts = Ok g1 /\
    extent g1 = extent (g blinker_game) /\
    (forall p, p ∈ ts ->
       0 <= row p < 10 /\ 0 <= col p < 20 /\
       (p = GridPoint_init (row p) (col p) false \/
        p = GridPoint_init (row p) (col p) true)) /\
    forall r c, 0 <= r < 10 -> 0 <= c < 20 ->
      (GridPoint_init r c false ∈ ts <->
         alive_at (rows (g blinker_game)) r c = true /\
         ~ 2 <= moore_count (alive_at (rows (g blinker_game))) r c <= 3) /\
      (GridPoint_init r c true ∈ ts <->
         alive_at (rows (g blinker_game)) r c = false /\
         moore_count (alive_at (rows (g blinker_game))) r c = 3) /\
      alive_at (rows g1) r c =
        life_rule (alive_at (rows (g blinker_game)) r c)
                  (moore_count (alive_at (rows (g blinker_game))) r c).
Proof.
  split.
  - apply (reach_init (10, 20) (mkMargins 2 3 2 3) (py_str "XXX")).
    vm_compute. reflexivity.
  - apply (tick_transitions_follow_life_rule blinker_game).
    apply (reach_init (10, 20) (mkMargins 2 3 2 3) (py_str "XXX")).
    vm_compute. reflexivity.
Defined.

Lemma rect_next_generation f nr nc :
  0 <= nr -> 0 <= nc -> rect (next_generation f nr nc) nr nc.
Proof.
  intros Hr Hc. unfold next_generation. split; [now apply len_map_range|].
  split; [exact Hc|]. apply Forall_forall. intros line Hin.
  apply list_elem_of_In, list_elem_of_fmap in Hin as (r & -> & _).
  now apply len_map_range.
Qed.

Lemma alive_at_next_generation f nr nc r c :
  0 <= r < nr -> 0 <= c < nc ->
  alive_at (next_generation f nr nc) r c = life_rule (f r c) (moore_count f r c).
Proof.
  intros Hr Hc. unfold alive_at, next_generation, range.
  rewrite decide_True by lia.
  rewrite list_lookup_fmap, lookup_seqZ_lt by lia. simpl.
  unfold row_alive. rewrite decide_True by lia.
  rewrite list_lookup_fmap, lookup_seqZ_lt by lia. simpl.
  rewrite isAlive_state. simpl. rewrite !Z.add_0_l, !Z2Nat.id by lia. reflexivity.
Qed.

(** After the cell phase the board is the next generation of the
    snapshot taken before the tick. *)
Lemma transitions_apply_next_generation gr :
  grid_inv gr ->
  foldM set_point gr
    (all_transitions (alive_at (rows gr)) (fst (extent gr)) (snd (extent gr))) =
  Ok (set_rows gr
        (next_generation (alive_at (rows gr)) (fst (extent gr)) (snd (extent gr)))).
Proof.
  intros Hinv.
  destruct (transitions_apply gr Hinv) as (g1 & Hrun & Hwf1 & E1 & M1 & Hcells).
  rewrite Hrun. f_equal. destruct g1 as [rs1 e1 m1]. simpl in *. subst e1 m1.
  unfold set_rows. f_equal.
  pose proof Hinv as ((Hr & Hnc & _) & _).
  eapply rect_ext; [exact Hwf1 | apply rect_next_generation |]; simpl.
  - rewrite <- Hr. apply len_nonneg.
  - exact Hnc.
  - intros r c Hr' Hc'. rewrite Hcells by assumption.
    now rewrite alive_at_next_generation.
Qed.

Lemma tick_eq_reference gm :
  grid_inv (g gm) -> tick gm = tick_reference gm.
Proof.
  intros Hinv. unfold tick, tick_reference, applyPoints.
  rewrite (collect_transitions_spec gm Hinv). simpl.
  now rewrite (transitions_apply_next_generation (g gm) Hinv).
Qed.

Lemma tick_succeeds gm : grid_inv (g gm) -> succeeds (tick gm).
Proof.
  intros Hinv. rewrite (tick_eq_reference gm Hinv). unfold tick_reference.
  destruct Hinv as (Hwf & Hm & _).
  destruct (maintainMargin_spec
              (set_rows (g gm) (next_generation (alive_at (rows (g gm)))
                                  (fst (extent (g gm))) (snd (extent (g gm)))))
              (trim_flag (tickCount gm))) as (? & ? & ? & ? & g' & _ & -> & _).
  - pose proof Hwf as (Hr & Hnc & _). unfold well_formed. simpl.
    apply rect_next_generation; [|exact Hnc].
    rewrite <- Hr. apply len_nonneg.
  - exact Hm.
  - simpl. eexists. reflexivity.
Qed.

(** C2: in every state a game can reach, a tick returns, and it returns
    what the reference implementation returns that snapshots the grid,
    computes every neighbour count and every new cell state from the
    snapshot, and only then mutates the grid and maintains its margins. *)
Theorem tick_refines_snapshot_reference :
  forall gm : GameOfLife,
    reachable gm ->
    tick gm = tick_reference gm /\ succeeds (tick gm).
Proof.
  intros gm Hreach. destruct (reachable_inv gm Hreach) as [Hinv _].
  split; [now apply tick_eq_reference | now apply tick_succeeds].
Qed.

Lemma tick_refines_snapshot_reference_witness :
  reachable blinker_game /\
  tick blinker_game = tick_reference blinker_game /\ succeeds (tick blinker_game).
Proof.
  split.
  - apply (reach_init (10, 20) (mkMargins 2 3 2 3) (py_str "XXX")).
    vm_compute. reflexivity.
  - apply (tick_refines_snapshot_reference blinker_game).
    apply (reach_init (10, 20) (mkMargins 2 3 2 3) (py_str "XXX")).
    vm_compute. reflexivity.
Defined.

Lemma trim_flag_spec tc :
  0 <= tc -> (trim_flag tc = true <-> 0 < tc /\ tc `mod` 5 = 0).
Proof.
  intros Htc. unfold trim_flag. destruct (Z.eqb_spec tc 0) as [->|Hne].
  - split; [discriminate | lia].
  - rewrite Z.eqb_eq. split; [intros H; split; [lia | exact H] | now intros [_ H]].
Qed.

Lemma applyPoints_deferred_never_shrinks gr pts gr' :
  well_formed gr -> margins_ok (margins gr) ->
  applyPoints gr pts false = Ok gr' ->
  fst (extent gr) <= fst (extent gr') /\ snd (extent gr) <= snd (extent gr').
Proof.
  intros Hwf Hm H. unfold applyPoints in H.
  apply bind_Ok in H as (g1 & H1 & H2).
  destruct (set_points_well_formed _ _ _ Hwf H1) as (Hwf1 & E1 & M1).
  destruct (maintainMargin_spec g1 false Hwf1) as (? & ? & ? & ? & g2 & _ & Hrun & _ & _ & Hext & _).
  { now rewrite M1. }
  rewrite Hrun in H2. injection H2 as <-. rewrite Hext, E1. simpl.
  rewrite !adjustment_defer. lia.
Qed.

(** C8: in every state a game can reach, a tick is one [applyPoints] call
    on the whole transition list followed by the increment of [tickCount]
    by one; the call's [trim_now] is true exactly when the count before
    the increment is a positive multiple of 5, and when it is not, neither
    dimension of the grid decreases. *)
Theorem tick_single_apply_and_trim_cadence :
  forall gm : GameOfLife,
    reachable gm ->
    exists ts gr',
      collect_transitions gm = Ok ts /\
      applyPoints (g gm) ts (trim_flag (tickCount gm)) = Ok gr' /\
      tick gm = Ok (mkGameOfLife gr' (tickCount gm + 1)) /\
      (trim_flag (tickCount gm) = true <->
         0 < tickCount gm /\ tickCount gm `mod` 5 = 0) /\
      (~ (0 < tickCount gm /\ tickCount gm `mod` 5 = 0) ->
         fst (extent (g gm)) <= fst (extent gr') /\
         snd (extent (g gm)) <= snd (extent gr')).
Proof.
  intros gm Hreach. destruct (reachable_inv gm Hreach) as [Hinv Htc].
  destruct (tick_succeeds gm Hinv) as (gm' & Hgm').
  destruct (tick_inv gm gm' Hgm') as (ts & Hts & Happ & Hcount).
  exists ts, (g gm'). split; [exact Hts|]. split; [exact Happ|].
  split; [rewrite Hgm'; destruct gm'; simpl in *; now subst|].
  split; [now apply trim_flag_spec|].
  intros Hno. destruct Hinv as (Hwf & Hm & _).
  destruct (trim_flag (tickCount gm)) eqn:E.
  - exfalso. apply Hno. now apply trim_flag_spec.
  - eapply applyPoints_deferred_never_shrinks; eauto.
Qed.

(** ** The blinker *)

Ltac decide_comparisons :=
  repeat match goal with
    | |- context [?a =? ?b] =>
        (rewrite (proj2 (Z.eqb_eq a b)) by lia) ||
        (rewrite (proj2 (Z.eqb_neq a b)) by lia)
    | |- context [?a <=? ?b] =>
        (rewrite (proj2 (Z.leb_le a b)) by lia) ||
        (rewrite (proj2 (Z.leb_gt a b)) by lia)
    end.

Lemma blinker_h_step r0 c0 r c :
  life_rule (blinker_h r0 c0 r c) (moore_count (blinker_h r0 c0) r c) =
  blinker_v r0 c0 r c.
Proof.
  unfold life_rule, moore_count, blinker_h, blinker_v.
  assert (Hr : r < r0 - 1 \/ r = r0 - 1 \/ r = r0 \/ r = r0 + 1 \/ r0 + 1 < r) by lia.
  assert (Hc : c < c0 - 2 \/ c = c0 - 2 \/ c = c0 - 1 \/ c = c0 \/ c = c0 + 1 \/
               c = c0 + 2 \/ c0 + 2 < c) by lia.
  destruct Hr as [Hr|[Hr|[Hr|[Hr|Hr]]]];
    destruct Hc as [Hc|[Hc|[Hc|[Hc|[Hc|[Hc|Hc]]]]]];
    decide_comparisons; reflexivity.
Qed.

Lemma blinker_v_step r0 c0 r c :
  life_rule (blinker_v r0 c0 r c) (moore_count (blinker_v r0 c0) r c) =
  blinker_h r0 c0 r c.
Proof.
  unfold life_rule, moore_count, blinker_h, blinker_v.
  assert (Hc : c < c0 - 1 \/ c = c0 - 1 \/ c = c0 \/ c = c0 + 1 \/ c0 + 1 < c) by lia.
  assert (Hr : r < r0 - 2 \/ r = r0 - 2 \/ r = r0 - 1 \/ r = r0 \/ r = r0 + 1 \/
               r = r0 + 2 \/ r0 + 2 < r) by lia.
  destruct Hr as [Hr|[Hr|[Hr|[Hr|[Hr|[Hr|Hr]]]]]];
    destruct Hc as [Hc|[Hc|[Hc|[Hc|Hc]]]];
    decide_comparisons; reflexivity.
Qed.

Lemma moore_count_ext f f' r c :
  (forall r c, f r c = f' r c) -> moore_count f r c = moore_count f' r c.
Proof. intros H. unfold moore_count. now rewrite !H. Qed.

Lemma py_index_Ok_nonneg {A} (l : list A) i k :
  py_index l i = Ok k -> 0 <= i -> i < len l.
Proof.
  unfold py_index. intros H Hi.
  destruct (decide (0 <= i < len l)); [lia|].
  destruct (decide (- len l <= i < 0)); [lia | discriminate].
Qed.

(** A tick that does not trim and leaves the extent as it was leaves the
    next generation in place, cell for cell. *)
Lemma tick_without_resize gm gm' :
  grid_inv (g gm) -> trim_flag (tickCount gm) = false ->
  tick gm = Ok gm' -> extent (g gm') = extent (g gm) ->
  grid_inv (g gm') /\ tickCount gm' = tickCount gm + 1 /\
  forall r c,
    alive_at (rows (g gm')) r c =
    alive_at (next_generation (alive_at (rows (g gm)))
                (fst (extent (g gm))) (snd (extent (g gm)))) r c.
Proof.
  intros Hinv Hflag Htick Hext. pose proof Hinv as (Hwf & Hm & _).
  split.
  { apply tick_inv in Htick as (ts & _ & Happ & _).
    eapply applyPoints_grid_inv; eauto. }
  rewrite (tick_eq_reference gm Hinv) in Htick. unfold tick_reference in Htick.
  rewrite Hflag in Htick.
  apply bind_Ok in Htick as (g' & Hrun & [= <-]). simpl in *.
  split; [reflexivity|].
  set (board := next_generation _ _ _) in *.
  destruct (maintainMargin_spec (set_rows (g gm) board) false)
    as (top & bottom & left & right & g2 & _ & Hrun' & _ & _ & Hext' & Ha).
  { pose proof Hwf as (Hr & Hnc & _). unfold well_formed. simpl.
    apply rect_next_generation; [|exact Hnc]. rewrite <- Hr. apply len_nonneg. }
  { exact Hm. }
  rewrite Hrun in Hrun'. injection Hrun' as <-.
  simpl in Hext', Ha. rewrite Hext in Hext'.
  assert (Hpos : forall d, 0 <= adjustment false d).
  { intros d. rewrite adjustment_defer. lia. }
  destruct (extent (g gm)) as [nr nc]. simpl in Hext', Ha.
  injection Hext' as Hnr Hncol.
  pose proof (Hpos (mN (margins (g gm)) - top)).
  pose proof (Hpos (mS (margins (g gm)) - (nr - bottom - 1))).
  pose proof (Hpos (mW (margins (g gm)) - left)).
  pose proof (Hpos (mE (margins (g gm)) - (nc - right - 1))).
  intros r c. rewrite Ha. f_equal; lia.
Qed.

Lemma alive_at_next_generation_outside f nr nc r c :
  0 <= nr -> 0 <= nc -> ~ (0 <= r < nr /\ 0 <= c < nc) ->
  alive_at (next_generation f nr nc) r c = false.
Proof.
  intros Hnr Hnc Hout. eapply alive_at_outside; [now apply rect_next_generation | lia].
Qed.

(** The grid a game starts from when it is seeded with "XXX": three live
    cells in a row, and nothing else. *)
Lemma seeded_blinker ext m gm0 :
  GameOfLife_init ext m (py_str "XXX") = Ok gm0 ->
  grid_inv (g gm0) /\ tickCount gm0 = 0 /\
  exists r0 c0, forall r c, alive_at (rows (g gm0)) r c = blinker_h r0 c0 r c.
Proof.
  intros Hinit.
  assert (Hinv : grid_inv (g gm0)).
  { apply (reachable_inv gm0). econstructor. exact Hinit. }
  split; [exact Hinv|].
  unfold GameOfLife_init in Hinit.
  apply bind_Ok in Hinit as (gr & Hgr & Hinit).
  apply bind_Ok in Hinit as (g0 & Hseed & [= <-]). simpl.
  split; [reflexivity|].
  apply Grid_init_inv in Hgr as (Hwf & Hm & Hdead & Hext & Hmarg & Hrows & Hcols).
  rewrite <- Hext, <- Hmarg in Hrows, Hcols. clear Hext Hmarg.
  unfold seedPattern in Hseed. simpl negb in Hseed. cbv iota in Hseed.
  change (Pattern_getExtent (Pattern_init (py_str "XXX"))) with (0, 2) in Hseed.
  cbn [fst snd] in Hseed.
  set (dr := (fst (extent gr) - 0) `div` 2) in *.
  set (dc := (snd (extent gr) - 2) `div` 2) in *.
  change (getPoints (Pattern_moveBy (dr, dc) (Pattern_init (py_str "XXX"))))
    with [mkGridPoint (0 + dr) (0 + dc) (mkGridCell true);
          mkGridPoint (0 + dr) (1 + dc) (mkGridCell true);
          mkGridPoint (0 + dr) (2 + dc) (mkGridCell true)] in Hseed.
  unfold applyPoints in Hseed.
  apply bind_Ok in Hseed as (g' & Hpts & Hmaint).
  destruct Hm as (HmN & HmE & HmS & HmW).
  assert (Hdr : 0 <= dr < fst (extent gr)).
  { subst dr. Z.div_mod_to_equations. lia. }
  assert (Hdc : 0 <= dc).
  { subst dc. Z.div_mod_to_equations. lia. }
  (* the last subscript was in range, or the seed would have raised *)
  assert (Hdc2 : 2 + dc < snd (extent gr)).
  { pose proof Hpts as H. simpl in H.
    apply bind_Ok in H as (g1 & H1 & H).
    apply bind_Ok in H as (g2 & H2 & H).
    apply bind_Ok in H as (g3 & H3 & _).
    destruct (set_point_well_formed _ _ _ Hwf H1) as (Hwf1 & E1 & _).
    destruct (set_point_well_formed _ _ _ Hwf1 H2) as (Hwf2 & E2 & _).
    apply set_point_inv in H3 as (k & j & line & _ & Hline & Hj & _).
    simpl in Hj. apply py_index_Ok_nonneg in Hj; [|lia].
    destruct Hwf2 as (_ & _ & Hall). rewrite Forall_lookup in Hall.
    specialize (Hall _ _ Hline). simpl in Hall. rewrite E2, E1 in Hall. lia. }
  set (pts := [_; _; _]) in Hpts.
  destruct (set_points_spec pts gr Hwf) as (g1 & Hrun & Hwf1 & E1 & M1 & Hcells).
  { intros p Hp. subst pts.
    repeat (apply elem_of_cons in Hp as [->|Hp]); [simpl; lia.. | inversion Hp]. }
  rewrite Hpts in Hrun. injection Hrun as <-.
  assert (Hg' : forall r c, alive_at (rows g') r c = blinker_h dr (dc + 1) r c).
  { intros r c. unfold blinker_h.
    destruct (Hcells r c) as [[Heq Hnone]|(p & Hp & Hpr & Hpc & Heq)].
    - rewrite Heq, Hdead. symmetry.
      destruct (Z.eqb_spec r dr) as [->|]; [|reflexivity].
      destruct (Z.leb_spec (dc + 1 - 1) c); [|reflexivity].
      destruct (Z.leb_spec c (dc + 1 + 1)); [|reflexivity].
      exfalso.
      assert (Hc : c = 0 + dc \/ c = 1 + dc \/ c = 2 + dc) by lia.
      destruct Hc as [-> | [-> | ->]].
      + eapply (Hnone (mkGridPoint (0 + dr) (0 + dc) (mkGridCell true)));
          [subst pts; left | simpl; lia].
      + eapply (Hnone (mkGridPoint (0 + dr) (1 + dc) (mkGridCell true)));
          [subst pts; right; left | simpl; lia].
      + eapply (Hnone (mkGridPoint (0 + dr) (2 + dc) (mkGridCell true)));
          [subst pts; right; right; left | simpl; lia].
    - rewrite Heq. subst pts.
      repeat (apply elem_of_cons in Hp as [->|Hp]); [..| inversion Hp];
        simpl in *; subst r c; decide_comparisons; reflexivity. }
  destruct (maintainMargin_spec g' false Hwf1)
    as (top & bottom & left & right & g2 & _ & Hrun' & _ & _ & _ & Ha).
  { rewrite M1. unfold margins_ok. auto. }
  rewrite Hmaint in Hrun'. injection Hrun' as <-. cbv zeta in Ha.
  exists (dr + adjustment false (mN (margins g') - top)),
    (dc + 1 + adjustment false (mW (margins g') - left)).
  intros r c. rewrite Ha, Hg'.
  unfold blinker_h.
  repeat match goal with
    | |- context [?a =? ?b] => destruct (Z.eqb_spec a b)
    | |- context [?a <=? ?b] => destruct (Z.leb_spec a b)
    end; try lia; reflexivity.
Qed.

(** C9: a game seeded with "XXX" whose first two ticks leave the extent
    of the grid as it was after seeding has, after those two ticks, the
    cell array it had after seeding: the same live cells at the same row
    and column indices. *)
Theorem blinker_returns_after_two_ticks :
  forall (ext : Z * Z) (m : Margins) (gm0 gm1 gm2 : GameOfLife),
    GameOfLife_init ext m (py_str "XXX") = Ok gm0 ->
    tick gm0 = Ok gm1 -> tick gm1 = Ok gm2 ->
    extent (g gm1) = extent (g gm0) -> extent (g gm2) = extent (g gm0) ->
    rows (g gm2) = rows (g gm0) /\
    tickCount gm2 = 2 /\
    forall r c, alive_at (rows (g gm2)) r c = alive_at (rows (g gm0)) r c.
Proof.
  intros ext m gm0 gm1 gm2 Hinit Ht1 Ht2 He1 He2.
  destruct (seeded_blinker ext m gm0 Hinit) as (Hinv0 & Htc0 & r0 & c0 & Hb0).
  destruct (tick_without_resize gm0 gm1 Hinv0) as (Hinv1 & Htc1 & Ha1); auto.
  { now rewrite Htc0. }
  destruct (tick_without_resize gm1 gm2 Hinv1) as (Hinv2 & Htc2 & Ha2); auto.
  { now rewrite Htc1, Htc0. }
  { congruence. }
  pose proof Hinv0 as ((Hlen0 & Hnc0 & _) & (HmN & HmE & HmS & HmW) & Hresp0).
  assert (Hnr0 : 0 <= fst (extent (g gm0))) by (rewrite <- Hlen0; apply len_nonneg).
  (* the blinker lies inside the margins *)
  assert (Hin : 1 <= r0 < fst (extent (g gm0)) - 1 /\
                2 <= c0 < snd (extent (g gm0)) - 2).
  { assert (Hl : alive_at (rows (g gm0)) r0 (c0 - 1) = true).
    { rewrite Hb0. unfold blinker_h. decide_comparisons. reflexivity. }
    assert (Hr : alive_at (rows (g gm0)) r0 (c0 + 1) = true).
    { rewrite Hb0. unfold blinker_h. decide_comparisons. reflexivity. }
    apply Hresp0 in Hl, Hr. lia. }
  assert (Hb1 : forall r c, alive_at (rows (g gm1)) r c = blinker_v r0 c0 r c).
  { intros r c. rewrite Ha1.
    destruct (decide (0 <= r < fst (extent (g gm0)) /\ 0 <= c < snd (extent (g gm0))))
      as [[Hr Hc]|Hout].
    - rewrite alive_at_next_generation by assumption.
      rewrite Hb0, (moore_count_ext _ (blinker_h r0 c0)) by exact Hb0.
      apply blinker_h_step.
    - rewrite alive_at_next_generation_outside by assumption.
      symmetry. unfold blinker_v.
      repeat match goal with
        | |- context [?a =? ?b] => destruct (Z.eqb_spec a b)
        | |- context [?a <=? ?b] => destruct (Z.leb_spec a b)
        end; try reflexivity; lia. }
  assert (Hb2 : forall r c, alive_at (rows (g gm2)) r c = alive_at (rows (g gm0)) r c).
  { intros r c. rewrite Ha2, He1.
    destruct (decide (0 <= r < fst (extent (g gm0)) /\ 0 <= c < snd (extent (g gm0))))
      as [[Hr Hc]|Hout].
    - rewrite alive_at_next_generation by assumption.
      rewrite Hb1, (moore_count_ext _ (blinker_v r0 c0)) by exact Hb1.
      rewrite Hb0. apply blinker_v_step.
    - rewrite alive_at_next_generation_outside by assumption.
      symmetry. eapply alive_at_outside; [apply Hinv0 | lia]. }
  split; [|split; [lia | exact Hb2]].
  eapply rect_ext; [apply Hinv2 | rewrite He2; apply Hinv0 |].
  intros r c _ _. apply Hb2.
Qed.

Lemma blinker_returns_after_two_ticks_witness :
  GameOfLife_init (10, 20) (mkMargins 2 3 2 3) (py_str "XXX") = Ok blinker_game /\
  tick blinker_game = Ok blinker_game_1 /\
  tick blinker_game_1 = Ok blinker_game_2 /\
  extent (g blinker_game_1) = extent (g blinker_game) /\
  extent (g blinker_game_2) = extent (g blinker_game) /\
  (rows (g blinker_game_2) = rows (g blinker_game) /\
   tickCount blinker_game_2 = 2 /\
   forall r c,
     alive_at (rows (g blinker_game_2)) r c = alive_at (rows (g blinker_game)) r c).
Proof.
  assert (H0 : GameOfLife_init (10, 20) (mkMargins 2 3 2 3) (py_str "XXX")
               = Ok blinker_game) by (vm_compute; reflexivity).
  assert (H1 : tick blinker_game = Ok blinker_game_1) by (vm_compute; reflexivity).
  assert (H2 : tick blinker_game_1 = Ok blinker_game_2) by (vm_compute; reflexivity).
  assert (E1 : extent (g blinker_game_1) = extent (g blinker_game)) by reflexivity.
  assert (E2 : extent (g blinker_game_2) = extent (g blinker_game)) by reflexivity.
  split; [exact H0|]. split; [exact H1|]. split; [exact H2|].
  split; [exact E1|]. split; [exact E2|].
  exact (blinker_returns_after_two_ticks (10, 20) (mkMargins 2 3 2 3)
           blinker_game blinker_game_1 blinker_game_2 H0 H1 H2 E1 E2).
Defined.

Lemma tick_single_apply_and_trim_cadence_witness :
  reachable blinker_game /\
  exists ts gr',
    collect_transitions blinker_game = Ok ts /\
    applyPoints (g blinker_game) ts (trim_flag (tickCount blinker_game)) = Ok gr' /\
    tick blinker_game = Ok (mkGameOfLife gr' (tickCount blinker_game + 1)) /\
    (trim_flag (tickCount blinker_game) = true <->
       0 < tickCount blinker_game /\ tickCount blinker_game `mod` 5 = 0) /\
    (~ (0 < tickCount blinker_game /\ tickCount blinker_game `mod` 5 = 0) ->
       fst (extent (g blinker_game)) <= fst (extent gr') /\
       snd (extent (g blinker_game)) <= snd (extent gr')).
Proof.
  assert (Hreach : reachable blinker_game).
  { apply (reach_init (10, 20) (mkMargins 2 3 2 3) (py_str "XXX")).
    vm_compute. reflexivity. }
  split; [exact Hreach|].
  exact (tick_single_apply_and_trim_cadence blinker_game Hreach).
Defined.

(** * Further properties of the grid engine *)

(** ** Cell lookup and neighbour counting on any grid *)

Lemma py_getitem_Ok_elem {A} (l : list A) i x : py_getitem l i = Ok x -> x ∈ l.
Proof.
  unfold py_getitem. intros H. apply bind_Ok in H as (k & _ & H).
  destruct (l !! k) eqn:E; [|discriminate]. injection H as <-.
  apply list_elem_of_lookup. eauto.
Qed.

(** X1: on a grid whose array matches its extent, [getCell] never fails:
    it returns the cell the subscripts select under Python's rules (a
    negative subscript down to [-len] counts from the end), and a dead
    cell for every subscript pair with [r >= rowCount], [r < -rowCount],
    [c >= colCount] or [c < -colCount]. *)
Theorem getCell_reads_wrapped_subscripts :
  forall (gr : Grid) (r c : Z),
    well_formed gr ->
    isAlive (getCell gr r c) = wrapped_alive gr r c /\
    (r < - fst (extent gr) \/ fst (extent gr) <= r \/
     c < - snd (extent gr) \/ snd (extent gr) <= c ->
     getCell gr r c = dead_cell) /\
    (0 <= r < fst (extent gr) -> 0 <= c < snd (extent gr) ->
     isAlive (getCell gr r c) = alive_at (rows gr) r c).
Proof.
  intros gr r c Hwf. split; [now apply getCell_alive|]. split.
  - intros Hout. unfold getCell.
    destruct (py_getitem (rows gr) r) as [line|e] eqn:Hline; [|reflexivity]. simpl.
    pose proof (rect_elem _ _ _ _ Hwf (py_getitem_Ok_elem _ _ _ Hline)) as Hlen.
    destruct (decide (- fst (extent gr) <= r < fst (extent gr))) as [Hin|Hin].
    + rewrite py_getitem_outside by lia. reflexivity.
    + destruct Hwf as (Hr & _). rewrite py_getitem_outside in Hline by lia.
      discriminate.
  - intros Hr Hc. rewrite getCell_alive by exact Hwf. unfold py_norm.
    now rewrite !decide_False by lia.
Qed.

Lemma getCell_reads_wrapped_subscripts_witness :
  well_formed corner_grid_applied /\
  (isAlive (getCell corner_grid_applied (-4) (-4)) =
     wrapped_alive corner_grid_applied (-4) (-4) /\
   (-4 < - fst (extent corner_grid_applied) \/
    fst (extent corner_grid_applied) <= -4 \/
    -4 < - snd (extent corner_grid_applied) \/
    snd (extent corner_grid_applied) <= -4 ->
    getCell corner_grid_applied (-4) (-4) = dead_cell) /\
   (0 <= -4 < fst (extent corner_grid_applied) ->
    0 <= -4 < snd (extent corner_grid_applied) ->
    isAlive (getCell corner_grid_applied (-4) (-4)) =
      alive_at (rows corner_grid_applied) (-4) (-4))).
Proof.
  assert (Hwf : well_formed corner_grid_applied).
  { split; [reflexivity|]. split; [simpl; lia|]. repeat constructor. }
  split; [exact Hwf|].
  exact (getCell_reads_wrapped_subscripts corner_grid_applied (-4) (-4) Hwf).
Defined.

Lemma b2z_range b : 0 <= b2z b <= 1.
Proof. destruct b; simpl; lia. Qed.

Lemma countNeighborsCell_range gr r c : 0 <= _countNeighborsCell gr r c <= 8.
Proof.
  unfold _countNeighborsCell, directions.
  rewrite !(len_filter_cons (fun s => isAlive (getCell gr (fst s + r) (snd s + c)))).
  rewrite filter_nil. change (len []) with 0.
  repeat match goal with
    | |- context [b2z ?b] => pose proof (b2z_range b); generalize dependent (b2z b); intros
    end.
  lia.
Qed.

(** X2: whatever the grid, [countNeighborsForRow] returns one count per
    column of the recorded extent, and every count is between 0 and 8. *)
Theorem countNeighborsForRow_counts_in_range :
  forall (gr : Grid) (r : Z),
    len (countNeighborsForRow gr r) = Z.max 0 (snd (extent gr)) /\
    Forall (fun n => 0 <= n <= 8) (countNeighborsForRow gr r).
Proof.
  intros gr r. unfold countNeighborsForRow. split.
  - unfold len, range. rewrite length_map, length_seqZ. lia.
  - apply Forall_forall. intros n Hn. apply in_map_iff in Hn as (c & <- & _).
    apply countNeighborsCell_range.
Qed.

(** X3: on a grid whose array matches its extent, the count
    [_countNeighborsCell] computes for any coordinate is the number of
    live cells that the eight double subscripts around it read: beside
    row 0 and column 0 these are the last row and the last column, beside
    the last row and column there is nothing. *)
Theorem countNeighborsCell_counts_wrapped_neighbours :
  forall (gr : Grid) (r c : Z),
    well_formed gr ->
    _countNeighborsCell gr r c =
    b2z (wrapped_alive gr (r - 1) (c - 1)) + b2z (wrapped_alive gr (r - 1) c) +
    b2z (wrapped_alive gr (r - 1) (c + 1)) +
    b2z (wrapped_alive gr r (c - 1)) + b2z (wrapped_alive gr r (c + 1)) +
    b2z (wrapped_alive gr (r + 1) (c - 1)) + b2z (wrapped_alive gr (r + 1) c) +
    b2z (wrapped_alive gr (r + 1) (c + 1)).
Proof.
  intros gr r c Hwf. unfold _countNeighborsCell, directions, wrapped_alive.
  rewrite !(len_filter_cons (fun s => isAlive (getCell gr (fst s + r) (snd s + c)))).
  rewrite filter_nil. change (len []) with 0. cbn [fst snd].
  rewrite !(getCell_alive gr) by exact Hwf.
  replace (-1 + r) with (r - 1) by lia. replace (-1 + c) with (c - 1) by lia.
  replace (1 + r) with (r + 1) by lia. replace (1 + c) with (c + 1) by lia.
  replace (0 + r) with r by lia. replace (0 + c) with c by lia. lia.
Qed.

Lemma edge_grid_well_formed : well_formed edge_grid.
Proof.
  split; [reflexivity|]. split; [simpl; lia|].
  repeat (apply List.Forall_cons; [reflexivity|]). apply List.Forall_nil.
Qed.

Lemma countNeighborsCell_counts_wrapped_neighbours_witness :
  well_formed edge_grid /\
  wrapped_alive edge_grid (0 - 1) 0 = true /\
  _countNeighborsCell edge_grid 0 0 = 1 /\
  _countNeighborsCell edge_grid 0 0 =
    b2z (wrapped_alive edge_grid (0 - 1) (0 - 1)) +
    b2z (wrapped_alive edge_grid (0 - 1) 0) +
    b2z (wrapped_alive edge_grid (0 - 1) (0 + 1)) +
    b2z (wrapped_alive edge_grid 0 (0 - 1)) +
    b2z (wrapped_alive edge_grid 0 (0 + 1)) +
    b2z (wrapped_alive edge_grid (0 + 1) (0 - 1)) +
    b2z (wrapped_alive edge_grid (0 + 1) 0) +
    b2z (wrapped_alive edge_grid (0 + 1) (0 + 1)).
Proof.
  split; [exact edge_grid_well_formed|].
  split; [vm_compute; reflexivity|]. split; [vm_compute; reflexivity|].
  exact (countNeighborsCell_counts_wrapped_neighbours edge_grid 0 0
           edge_grid_well_formed).
Defined.

(** X4: on a grid that keeps its margins, [countNeighborsForRow] returns
    for every column of a row the Moore-neighbourhood count with
    everything outside the array dead. *)
Theorem countNeighborsForRow_is_moore_count :
  forall (gr : Grid) (r : Z),
    grid_inv gr -> 0 <= r < fst (extent gr) ->
    countNeighborsForRow gr r =
    map (moore_count (alive_at (rows gr)) r) (range (snd (extent gr))).
Proof.
  intros gr r Hinv Hr. unfold countNeighborsForRow.
  apply map_ext_in. intros c Hc. apply list_elem_of_In, elem_of_range in Hc.
  now apply countNeighborsCell_moore.
Qed.

Lemma blinker_game_grid_inv : grid_inv (g blinker_game).
Proof. apply (reachable_inv blinker_game), blinker_game_reachable. Qed.

Lemma countNeighborsForRow_is_moore_count_witness :
  grid_inv (g blinker_game) /\ 0 <= 4 < fst (extent (g blinker_game)) /\
  countNeighborsForRow (g blinker_game) 4 =
  map (moore_count (alive_at (rows (g blinker_game))) 4)
      (range (snd (extent (g blinker_game)))).
Proof.
  assert (Hr : 0 <= 4 < fst (extent (g blinker_game))) by (simpl; lia).
  split; [exact blinker_game_grid_inv|]. split; [exact Hr|].
  exact (countNeighborsForRow_is_moore_count (g blinker_game) 4
           blinker_game_grid_inv Hr).
Defined.

(** ** Margin maintenance and point application *)

(** X5: on a grid whose array matches its extent, with margins of at
    least 1, margin maintenance never raises and never creates or kills a
    cell: the result is again well formed, keeps the margins setting, and
    holds the same live cells moved by one fixed offset; when [trim_now]
    is false the offset is non-negative and neither dimension shrinks. *)
Theorem maintainMargin_translates_live_cells :
  forall (gr : Grid) (trim_now : bool),
    well_formed gr -> margins_ok (margins gr) ->
    exists gr' dr dc,
      _maintainMargin gr trim_now = Ok gr' /\
      well_formed gr' /\ margins gr' = margins gr /\
      (forall r c, alive_at (rows gr') (r + dr) (c + dc) = alive_at (rows gr) r c) /\
      (trim_now = false ->
       0 <= dr /\ 0 <= dc /\
       fst (extent gr) <= fst (extent gr') /\ snd (extent gr) <= snd (extent gr')).
Proof.
  intros gr trim_now Hwf Hm.
  destruct (maintainMargin_spec gr trim_now Hwf Hm)
    as (top & bottom & left & right & gr' & _ & Hrun & Hwf' & Hm' & Hext & Ha).
  cbv zeta in Hext, Ha.
  exists gr', (adjustment trim_now (mN (margins gr) - top)),
    (adjustment trim_now (mW (margins gr) - left)).
  split; [exact Hrun|]. split; [exact Hwf'|]. split; [exact Hm'|]. split.
  - intros r c. rewrite Ha. f_equal; lia.
  - intros ->. rewrite Hext. simpl. rewrite !adjustment_defer. lia.
Qed.

Lemma maintainMargin_translates_live_cells_witness :
  well_formed edge_grid /\ margins_ok (margins edge_grid) /\
  alive_at (rows edge_grid) 2 0 = true /\
  _maintainMargin edge_grid false = Ok edge_grid_grown /\
  extent edge_grid = (3, 3) /\ extent edge_grid_grown = (4, 4) /\
  alive_at (rows edge_grid_grown) 2 1 = true /\
  exists gr' dr dc,
    _maintainMargin edge_grid false = Ok gr' /\
    well_formed gr' /\ margins gr' = margins edge_grid /\
    (forall r c, alive_at (rows gr') (r + dr) (c + dc) = alive_at (rows edge_grid) r c) /\
    (false = false ->
     0 <= dr /\ 0 <= dc /\
     fst (extent edge_grid) <= fst (extent gr') /\
     snd (extent edge_grid) <= snd (extent gr')).
Proof.
  assert (Hm : margins_ok (margins edge_grid)).
  { unfold margins_ok. simpl. lia. }
  split; [exact edge_grid_well_formed|]. split; [exact Hm|].
  split; [vm_compute; reflexivity|]. split; [vm_compute; reflexivity|].
  split; [reflexivity|]. split; [reflexivity|]. split; [vm_compute; reflexivity|].
  exact (maintainMargin_translates_live_cells edge_grid false edge_grid_well_formed Hm).
Defined.

(** X6: the room the constructor demands is never lost: after every
    [applyPoints] call that returns, each dimension is still at least the
    sum of its two opposing margins. *)
Theorem applyPoints_keeps_room_for_margins :
  forall (gr : Grid) (pts : list GridPoint) (trim_now : bool) (gr' : Grid),
    well_formed gr -> margins_ok (margins gr) ->
    applyPoints gr pts trim_now = Ok gr' ->
    mN (margins gr') + mS (margins gr') <= fst (extent gr') /\
    mE (margins gr') + mW (margins gr') <= snd (extent gr').
Proof.
  intros gr pts trim_now gr' Hwf Hm H. unfold applyPoints in H.
  apply bind_Ok in H as (g1 & H1 & H2).
  destruct (set_points_well_formed _ _ _ Hwf H1) as (Hwf1 & E1 & M1).
  destruct (maintainMargin_spec g1 trim_now Hwf1)
    as (top & bottom & left & right & g2 & HB & Hrun & _ & Hm' & Hext & _).
  { now rewrite M1. }
  rewrite Hrun in H2. injection H2 as <-. cbv zeta in Hext.
  destruct HB as ((Ht1 & _) & (Hb1 & _) & (Hl1 & _) & (Hr1 & _)).
  rewrite Hm', Hext. simpl.
  pose proof (adjustment_ge trim_now (mN (margins g1) - top)).
  pose proof (adjustment_ge trim_now (mS (margins g1) - (fst (extent g1) - bottom - 1))).
  pose proof (adjustment_ge trim_now (mW (margins g1) - left)).
  pose proof (adjustment_ge trim_now (mE (margins g1) - (snd (extent g1) - right - 1))).
  lia.
Qed.

Lemma applyPoints_keeps_room_for_margins_witness :
  well_formed corner_grid /\ margins_ok (margins corner_grid) /\
  applyPoints corner_grid [GridPoint_init 0 0 true] true = Ok corner_grid_applied /\
  (mN (margins corner_grid_applied) + mS (margins corner_grid_applied)
     <= fst (extent corner_grid_applied) /\
   mE (margins corner_grid_applied) + mW (margins corner_grid_applied)
     <= snd (extent corner_grid_applied)).
Proof.
  assert (Hwf : well_formed corner_grid).
  { apply (rect_replicate 3 3); lia. }
  assert (Hm : margins_ok (margins corner_grid)).
  { unfold margins_ok. simpl. lia. }
  assert (Happ : applyPoints corner_grid [GridPoint_init 0 0 true] true
                 = Ok corner_grid_applied).
  { vm_compute. reflexivity. }
  split; [exact Hwf|]. split; [exact Hm|]. split; [exact Happ|].
  exact (applyPoints_keeps_room_for_margins corner_grid [GridPoint_init 0 0 true] true
           corner_grid_applied Hwf Hm Happ).
Defined.

Lemma py_index_norm {A} (l : list A) i k :
  py_index l i = Ok k -> Z.of_nat k = py_norm (len l) i /\ subscript_ok (len l) i.
Proof.
  unfold py_index, py_norm, subscript_ok. intros H.
  destruct (decide (0 <= i < len l)).
  - injection H as <-. rewrite decide_False by lia. lia.
  - destruct (decide (- len l <= i < 0)); [|discriminate].
    injection H as <-. lia.
Qed.

Lemma py_index_succeeds {A} (l : list A) i :
  subscript_ok (len l) i -> exists k, py_index l i = Ok k /\ (k < length l)%nat.
Proof.
  unfold subscript_ok. intros H. destruct (decide (0 <= i)).
  - rewrite py_index_nonneg by lia. eexists. split; [reflexivity|]. unfold len in *. lia.
  - rewrite py_index_negative by lia. eexists. split; [reflexivity|]. unfold len in *. lia.
Qed.

Lemma py_index_fails {A} (l : list A) i :
  ~ subscript_ok (len l) i -> py_index l i = Raise IndexError.
Proof. unfold subscript_ok. intros H. apply py_index_outside. lia. Qed.

(** X7: a point written by [applyPoints] lands on the cell its
    subscripts select under Python's rules (so a negative row or column
    down to [-len] addresses the grid from its far edge), takes the
    point's state, and leaves every other cell, the extent and the
    margins untouched. *)
Theorem set_point_writes_selected_cell :
  forall (gr : Grid) (x : GridPoint) (gr' : Grid),
    well_formed gr -> set_point gr x = Ok gr' ->
    well_formed gr' /\ extent gr' = extent gr /\ margins gr' = margins gr /\
    subscript_ok (fst (extent gr)) (row x) /\
    subscript_ok (snd (extent gr)) (col x) /\
    forall r c,
      alive_at (rows gr') r c =
      if decide (r = py_norm (fst (extent gr)) (row x) /\
                 c = py_norm (snd (extent gr)) (col x))
      then isAlive (state x) else alive_at (rows gr) r c.
Proof.
  intros gr x gr' Hwf H.
  destruct (set_point_well_formed _ _ _ Hwf H) as (Hwf' & E & M).
  apply set_point_inv in H as (k & j & line & Hk & Hl & Hj & ->).
  apply py_index_norm in Hk as [Hk Hok1].
  pose proof (py_index_lt _ _ _ Hj) as Hjlt.
  apply py_index_norm in Hj as [Hj Hok2].
  pose proof Hwf as (Hr & _).
  pose proof (rect_elem _ _ _ _ Hwf (proj2 (list_elem_of_lookup _ _) (ex_intro _ k Hl)))
    as Hlen.
  rewrite Hr in Hk, Hok1. rewrite Hlen in Hj, Hok2.
  split; [exact Hwf'|]. split; [exact E|]. split; [exact M|].
  split; [exact Hok1|]. split; [exact Hok2|].
  intros r c. simpl. rewrite (alive_at_insert _ _ _ _ _ _ _ Hl Hjlt).
  now rewrite Hk, Hj.
Qed.

Lemma set_point_writes_selected_cell_witness :
  well_formed corner_grid /\
  set_point corner_grid (GridPoint_init (-1) (-3) true) =
    Ok (set_rows corner_grid
          [replicate 3 dead_cell; replicate 3 dead_cell;
           [mkGridCell true; dead_cell; dead_cell]]) /\
  exists gr',
    well_formed gr' /\ extent gr' = extent corner_grid /\
    margins gr' = margins corner_grid /\
    subscript_ok (fst (extent corner_grid)) (-1) /\
    subscript_ok (snd (extent corner_grid)) (-3) /\
    forall r c,
      alive_at (rows gr') r c =
      if decide (r = py_norm (fst (extent corner_grid)) (-1) /\
                 c = py_norm (snd (extent corner_grid)) (-3))
      then true else alive_at (rows corner_grid) r c.
Proof.
  assert (Hwf : well_formed corner_grid).
  { apply (rect_replicate 3 3); lia. }
  assert (Hset : set_point corner_grid (GridPoint_init (-1) (-3) true) =
    Ok (set_rows corner_grid
          [replicate 3 dead_cell; replicate 3 dead_cell;
           [mkGridCell true; dead_cell; dead_cell]])).
  { vm_compute. reflexivity. }
  split; [exact Hwf|]. split; [exact Hset|]. eexists.
  exact (set_point_writes_selected_cell corner_grid (GridPoint_init (-1) (-3) true)
           _ Hwf Hset).
Defined.

Lemma set_point_succeeds_iff gr x :
  well_formed gr ->
  (succeeds (set_point gr x) <->
   subscript_ok (fst (extent gr)) (row x) /\ subscript_ok (snd (extent gr)) (col x)) /\
  (forall e, set_point gr x = Raise e -> e = IndexError).
Proof.
  intros Hwf. pose proof Hwf as (Hr & Hnc & Hc).
  unfold set_point, update_row, py_setitem.
  destruct (decide (subscript_ok (fst (extent gr)) (row x))) as [Hok1|Hbad1].
  - destruct (py_index_succeeds (rows gr) (row x)) as (k & -> & Hk); [now rewrite Hr|].
    simpl. destruct (lookup_lt_is_Some_2 _ _ Hk) as [line Hl]. rewrite Hl.
    rewrite Forall_lookup in Hc. specialize (Hc _ _ Hl). simpl in Hc.
    destruct (decide (subscript_ok (snd (extent gr)) (col x))) as [Hok2|Hbad2].
    + destruct (py_index_succeeds line (col x)) as (j & -> & Hj); [now rewrite Hc|].
      simpl. split; [split; [auto | intros _; eexists; reflexivity] | discriminate].
    + rewrite py_index_fails by now rewrite Hc. simpl.
      split; [split; [intros [? [=]] | intros [_ ?]; contradiction] | now intros e [= <-]].
  - rewrite py_index_fails by now rewrite Hr. simpl.
    split; [split; [intros [? [=]] | intros [? _]; contradiction] | now intros e [= <-]].
Qed.

Lemma applyPoints_outcome :
  forall (gr : Grid) (pts : list GridPoint) (trim_now : bool),
    well_formed gr -> margins_ok (margins gr) ->
    (succeeds (applyPoints gr pts trim_now) <->
     Forall (fun p => subscript_ok (fst (extent gr)) (row p) /\
                      subscript_ok (snd (extent gr)) (col p)) pts) /\
    (forall e, applyPoints gr pts trim_now = Raise e -> e = IndexError).
Proof.
  intros gr pts trim_now Hwf Hm. unfold applyPoints.
  revert gr Hwf Hm. induction pts as [|x pts IH]; intros gr Hwf Hm; simpl.
  - destruct (maintainMargin_spec gr trim_now Hwf Hm)
      as (? & ? & ? & ? & gr' & _ & -> & _).
    split; [split; [constructor | intros _; eexists; reflexivity] | discriminate].
  - destruct (set_point_succeeds_iff gr x Hwf) as [Hiff Herr].
    destruct (set_point gr x) as [g1|e] eqn:E; simpl.
    + destruct (set_point_well_formed _ _ _ Hwf E) as (Hwf1 & E1 & M1).
      destruct (IH g1 Hwf1) as [IHiff IHerr]; [now rewrite M1|].
      rewrite E1 in IHiff. split; [|exact IHerr].
      rewrite IHiff. split.
      * intros Hall. constructor; [apply Hiff; eexists; reflexivity | exact Hall].
      * intros Hall. now apply Forall_inv_tail in Hall.
    + split; [|intros e' [= <-]; now apply Herr].
      split; [intros [? [=]]|]. intros Hall. apply Forall_inv in Hall.
      apply Hiff in Hall as [? [=]].
Qed.

(** X8: [applyPoints] on a sound grid returns exactly when every point's
    row is in [[-rowCount, rowCount)] and its column in
    [[-colCount, colCount)]; otherwise it raises, and the only error it
    can raise is [IndexError]. *)
Theorem applyPoints_raises_iff_subscript_out_of_range :
  forall (gr : Grid) (pts : list GridPoint) (trim_now : bool),
    well_formed gr -> margins_ok (margins gr) ->
    (succeeds (applyPoints gr pts trim_now) <->
     Forall (fun p => subscript_ok (fst (extent gr)) (row p) /\
                      subscript_ok (snd (extent gr)) (col p)) pts) /\
    (forall e, applyPoints gr pts trim_now = Raise e -> e = IndexError).
Proof.
  intros gr pts trim_now Hwf Hm. now apply applyPoints_outcome.
Qed.

Lemma applyPoints_raises_iff_subscript_out_of_range_witness :
  well_formed corner_grid /\ margins_ok (margins corner_grid) /\
  applyPoints corner_grid [GridPoint_init 3 0 true] true = Raise IndexError /\
  ((succeeds (applyPoints corner_grid [GridPoint_init 3 0 true] true) <->
    Forall (fun p => subscript_ok (fst (extent corner_grid)) (row p) /\
                     subscript_ok (snd (extent corner_grid)) (col p))
           [GridPoint_init 3 0 true]) /\
   (forall e, applyPoints corner_grid [GridPoint_init 3 0 true] true = Raise e ->
              e = IndexError)).
Proof.
  assert (Hwf : well_formed corner_grid).
  { apply (rect_replicate 3 3); lia. }
  assert (Hm : margins_ok (margins corner_grid)).
  { unfold margins_ok. simpl. lia. }
  split; [exact Hwf|]. split; [exact Hm|]. split; [vm_compute; reflexivity|].
  exact (applyPoints_raises_iff_subscript_out_of_range corner_grid
           [GridPoint_init 3 0 true] true Hwf Hm).
Defined.

(** ** How tightly margin maintenance fits the live region *)

Lemma scan_dec_tight bound dead (D : Z -> Prop) low n :
  (forall i, 0 <= i < bound -> exists b, dead i = Ok b /\ (b = true <-> D i)) ->
  0 <= low ->
  forall start bottom, start < bound -> n = Z.to_nat (start - low) ->
    scan_dec n bound low dead start = Ok bottom ->
    low < bottom -> ~ D bottom.
Proof.
  intros Hspec Hlow. induction n as [|n IH]; intros start bottom Hs Hn; simpl.
  - intros [= <-] Hlt. lia.
  - destruct (Z.ltb_spec start bound) as [Hlt|Hge]; [|lia].
    destruct (Z.gtb_spec start low) as [Hgt|Hle]; [|lia]. simpl.
    destruct (Hspec start ltac:(lia)) as (b & -> & Hb). simpl.
    destruct b.
    + apply IH; lia.
    + intros [= <-] _ HD. apply Hb in HD. discriminate.
Qed.

(** The scans of [__computeDeficits], with what the backward scans stop
    at: a row, a column that is not dead, unless they stop at [top],
    [left]. *)
Lemma computeDeficits_tight gr :
  well_formed gr ->
  exists top bottom left right,
    live_bounds (rows gr) (fst (extent gr)) (snd (extent gr)) top bottom left right /\
    (top < bottom -> ~ row_dead (rows gr) bottom) /\
    (left < right -> ~ col_dead (rows gr) right) /\
    __computeDeficits gr =
      Ok (mN (margins gr) - top,
          mE (margins gr) - (snd (extent gr) - right - 1),
          mS (margins gr) - (fst (extent gr) - bottom - 1),
          mW (margins gr) - left).
Proof.
  intros Hwf. pose proof Hwf as (Hr & Hnc & Hc).
  pose proof (len_nonneg (rows gr)) as Hnr.
  assert (Hout_r : forall r, r < 0 \/ fst (extent gr) <= r -> row_dead (rows gr) r).
  { intros r Hr' c. eapply alive_at_outside; [exact Hwf | lia]. }
  assert (Hout_c : forall c, c < 0 \/ snd (extent gr) <= c -> col_dead (rows gr) c).
  { intros c Hc' r. eapply alive_at_outside; [exact Hwf | lia]. }
  pose proof (fun i (H : 0 <= i < fst (extent gr)) => testRowIsDead_spec gr i Hwf H) as Srow.
  pose proof (fun i (H : 0 <= i < snd (extent gr)) => testColumnIsDead_spec gr i Hwf H) as Scol.
  unfold __computeDeficits.
  destruct (while_inc_spec _ _ _ Srow) as (top & -> & Ht1 & Ht2 & Ht3); [lia|]. simpl.
  destruct (while_dec_spec _ _ _ Srow top) as (bottom & Hbot & Hb1 & Hb2); [lia|].
  assert (Hbt : top < bottom -> ~ row_dead (rows gr) bottom).
  { apply (scan_dec_tight _ _ _ top _ Srow ltac:(lia) (fst (extent gr) - 1) bottom
             ltac:(lia) eq_refl Hbot). }
  rewrite Hbot. simpl.
  destruct (while_inc_spec _ _ _ Scol) as (left & -> & Hl1 & Hl2 & Hl3); [lia|]. simpl.
  destruct (while_dec_spec _ _ _ Scol left) as (right & Hrig & Hr1 & Hr2); [lia|].
  assert (Hrt : left < right -> ~ col_dead (rows gr) right).
  { apply (scan_dec_tight _ _ _ left _ Scol ltac:(lia) (snd (extent gr) - 1) right
             ltac:(lia) eq_refl Hrig). }
  rewrite Hrig. simpl.
  exists top, bottom, left, right.
  split; [|split; [exact Hbt|split; [exact Hrt|reflexivity]]].
  split; [split; [exact Ht1|split; [|exact Ht3]]|
          split; [split; [exact Hb1|]|
                  split; [split; [exact Hl1|split; [|exact Hl3]]|split; [exact Hr1|]]]].
  - intros r Hr'. destruct (decide (0 <= r)); [apply Ht2; lia | apply Hout_r; lia].
  - intros r Hr'. destruct (decide (r < fst (extent gr))); [apply Hb2; lia | apply Hout_r; lia].
  - intros c Hc'. destruct (decide (0 <= c)); [apply Hl2; lia | apply Hout_c; lia].
  - intros c Hc'. destruct (decide (c < snd (extent gr))); [apply Hr2; lia | apply Hout_c; lia].
Qed.

(** Margin maintenance, for the bounds its scans found. *)
Lemma maintainMargin_with_bounds gr trim top bottom left right :
  well_formed gr -> margins_ok (margins gr) ->
  live_bounds (rows gr) (fst (extent gr)) (snd (extent gr)) top bottom left right ->
  __computeDeficits gr =
    Ok (mN (margins gr) - top,
        mE (margins gr) - (snd (extent gr) - right - 1),
        mS (margins gr) - (fst (extent gr) - bottom - 1),
        mW (margins gr) - left) ->
  exists gr',
    _maintainMargin gr trim = Ok gr' /\
    well_formed gr' /\ margins gr' = margins gr /\
    let aN := adjustment trim (mN (margins gr) - top) in
    let aS := adjustment trim (mS (margins gr) - (fst (extent gr) - bottom - 1)) in
    let aW := adjustment trim (mW (margins gr) - left) in
    let aE := adjustment trim (mE (margins gr) - (snd (extent gr) - right - 1)) in
    extent gr' = (fst (extent gr) + aN + aS, snd (extent gr) + aW + aE) /\
    forall r c, alive_at (rows gr') r c = alive_at (rows gr) (r - aN) (c - aW).
Proof.
  intros Hwf (HmN & HmE & HmS & HmW) HB Hdef.
  destruct HB as ((Ht1 & Ht2 & Ht3) & (Hb1 & Hb2) & (Hl1 & Hl2 & Hl3) & (Hr1 & Hr2)).
  set (nr := fst (extent gr)) in *. set (nc := snd (extent gr)) in *.
  set (dN := mN (margins gr) - top) in *.
  set (dS := mS (margins gr) - (nr - bottom - 1)) in *.
  set (dW := mW (margins gr) - left) in *.
  set (dE := mE (margins gr) - (nc - right - 1)) in *.
  pose proof (adjustment_ge trim dN) as HaN.
  pose proof (adjustment_ge trim dS) as HaS.
  pose proof (adjustment_ge trim dW) as HaW.
  pose proof (adjustment_ge trim dE) as HaE.
  (* north *)
  destruct (north_phase gr trim dN nr nc Hwf eq_refl) as (g1 & Hrun1 & E1 & M1 & R1 & A1).
  { intros Hd _. split; [subst dN; lia|]. intros r Hr. apply Ht2. subst dN. lia. }
  (* south *)
  set (g1' := set_extent0 g1 (len (rows g1))).
  destruct (south_phase g1' trim dS (nr + adjustment trim dN) nc) as (g2 & Hrun2 & E2 & M2 & R2 & A2).
  { subst g1'. simpl. now rewrite Z.add_0_r in R1. }
  { subst g1'. simpl. now rewrite E1. }
  { intros Hd _. split; [subst dS dN; lia|]. intros r Hr c. subst g1'. simpl.
    rewrite A1. apply Hb2. subst dS. lia. }
  (* west *)
  set (g2' := set_extent0 g2 (len (rows g2))).
  destruct (west_phase g2' trim dW (nr + adjustment trim dN + adjustment trim dS) (nc + 0))
    as (g3 & Hrun3 & E3 & M3 & R3 & A3).
  { subst g2'. simpl. exact R2. }
  { subst g2'. simpl. apply R2. }
  { intros Hd _. split; [subst dW; lia|]. intros c Hc r. subst g2' g1'. simpl.
    rewrite A2. simpl. rewrite A1. apply Hl2. subst dW. lia. }
  (* east *)
  assert (Hrows : 1 <= nr + adjustment trim dN + adjustment trim dS + 0).
  { subst dN dS. lia. }
  destruct (rect_first_row _ _ _ R3 Hrows) as (line3 & Hline3 & Hlen3).
  set (g3' := set_extent1 g3 (len line3)).
  destruct (east_phase g3' trim dE (nr + adjustment trim dN + adjustment trim dS + 0)
              (nc + 0 + adjustment trim dW)) as (g4 & Hrun4 & E4 & M4 & R4 & A4).
  { subst g3'. simpl. exact R3. }
  { subst g3'. simpl. rewrite E3. subst g2'. simpl. destruct R2 as (HR2 & _). lia. }
  { exact Hrows. }
  { intros Hd _. split; [subst dE dW; lia|]. intros c Hc r. subst g3' g2' g1'. simpl.
    rewrite A3. simpl. rewrite A2. simpl. rewrite A1. apply Hr2. subst dE. lia. }
  assert (Hrows' : 1 <= nr + adjustment trim dN + adjustment trim dS + 0 + 0) by lia.
  destruct (rect_first_row _ _ _ R4 Hrows') as (line4 & Hline4 & Hlen4).
  exists (set_extent1 g4 (len line4)).
  split.
  { unfold _maintainMargin.
    eapply bind_eq; [exact Hdef|]. cbv beta iota.
    eapply bind_eq; [exact Hrun1|].
    eapply bind_eq; [exact Hrun2|].
    eapply bind_eq; [exact Hrun3|].
    eapply bind_eq; [unfold refresh_extent1; eapply bind_eq; [exact Hline3|reflexivity]|].
    eapply bind_eq; [exact Hrun4|].
    unfold refresh_extent1. eapply bind_eq; [exact Hline4|reflexivity]. }
  assert (Hext : extent (set_extent1 g4 (len line4)) =
                 (nr + adjustment trim dN + adjustment trim dS,
                  nc + adjustment trim dW + adjustment trim dE)).
  { simpl. rewrite E4. subst g3'. simpl. rewrite E3. subst g2'. simpl.
    f_equal; [destruct R2 as (-> & _); lia | lia]. }
  split.
  { unfold well_formed. rewrite Hext. simpl.
    replace (nr + adjustment trim dN + adjustment trim dS)
      with (nr + adjustment trim dN + adjustment trim dS + 0 + 0) by lia.
    replace (nc + adjustment trim dW + adjustment trim dE)
      with (nc + 0 + adjustment trim dW + adjustment trim dE) by lia.
    exact R4. }
  split.
  { simpl. rewrite M4. subst g3'. simpl. rewrite M3. subst g2'. simpl. rewrite M2.
    subst g1'. simpl. exact M1. }
  cbv zeta. split; [exact Hext|].
  intros r c. simpl. rewrite A4. subst g3'. simpl. rewrite A3. subst g2'. simpl.
  rewrite A2. subst g1'. simpl. rewrite A1. f_equal; lia.
Qed.

Lemma maintainMargin_tight gr trim :
  well_formed gr -> margins_ok (margins gr) ->
  exists top bottom left right gr',
    live_bounds (rows gr) (fst (extent gr)) (snd (extent gr)) top bottom left right /\
    (top < bottom -> ~ row_dead (rows gr) bottom) /\
    (left < right -> ~ col_dead (rows gr) right) /\
    _maintainMargin gr trim = Ok gr' /\
    well_formed gr' /\ margins gr' = margins gr /\
    extent gr' =
      (fst (extent gr) + adjustment trim (mN (margins gr) - top) +
         adjustment trim (mS (margins gr) - (fst (extent gr) - bottom - 1)),
       snd (extent gr) + adjustment trim (mW (margins gr) - left) +
         adjustment trim (mE (margins gr) - (snd (extent gr) - right - 1))) /\
    forall r c,
      alive_at (rows gr') r c =
      alive_at (rows gr) (r - adjustment trim (mN (margins gr) - top))
               (c - adjustment trim (mW (margins gr) - left)).
Proof.
  intros Hwf Hm.
  destruct (computeDeficits_tight gr Hwf)
    as (top & bottom & left & right & HB & Hbt & Hrt & Hdef).
  destruct (maintainMargin_with_bounds gr trim top bottom left right Hwf Hm HB Hdef)
    as (gr' & Hrun & Hwf' & Hm' & Hext & Ha).
  exists top, bottom, left, right, gr'. auto 10.
Qed.

Lemma grid_ext g1 g2 :
  well_formed g1 -> well_formed g2 ->
  extent g1 = extent g2 -> margins g1 = margins g2 ->
  (forall r c, alive_at (rows g1) r c = alive_at (rows g2) r c) ->
  g1 = g2.
Proof.
  intros H1 H2 He Hm Ha. destruct g1 as [rs1 e1 m1], g2 as [rs2 e2 m2].
  simpl in *. subst e2 m2. f_equal.
  eapply rect_ext; [exact H1 | exact H2 |]. intros r c _ _. apply Ha.
Qed.

(** The first and the last live row and column of a grid that has a
    live cell. *)
Lemma live_bounds_of_live_grid rs nr nc top bottom left right r0 c0 :
  rect rs nr nc ->
  live_bounds rs nr nc top bottom left right ->
  (top < bottom -> ~ row_dead rs bottom) ->
  (left < right -> ~ col_dead rs right) ->
  alive_at rs r0 c0 = true ->
  (top <= r0 <= bottom /\ left <= c0 <= right) /\
  ~ row_dead rs top /\ ~ row_dead rs bottom /\
  ~ col_dead rs left /\ ~ col_dead rs right.
Proof.
  intros Hrect ((Ht1 & Ht2 & Ht3) & (Hb1 & Hb2) & (Hl1 & Hl2 & Hl3) & (Hr1 & Hr2))
    Hbt Hrt Hlive.
  assert (Hin : 0 <= r0 < nr /\ 0 <= c0 < nc).
  { destruct (decide (0 <= r0 < nr /\ 0 <= c0 < nc)) as [?|Hout]; [assumption|].
    rewrite (alive_at_outside rs nr nc) in Hlive by (auto; lia). discriminate. }
  assert (top <= r0).
  { destruct (decide (top <= r0)); [assumption|].
    rewrite (Ht2 r0) in Hlive by lia. discriminate. }
  assert (r0 <= bottom).
  { destruct (decide (r0 <= bottom)); [assumption|].
    rewrite (Hb2 r0) in Hlive by lia. discriminate. }
  assert (left <= c0).
  { destruct (decide (left <= c0)); [assumption|].
    rewrite (Hl2 c0) in Hlive by lia. discriminate. }
  assert (c0 <= right).
  { destruct (decide (c0 <= right)); [assumption|].
    rewrite (Hr2 c0) in Hlive by lia. discriminate. }
  split; [lia|].
  split; [apply Ht3; lia|].
  split; [destruct (decide (top < bottom)); [auto | replace bottom with top by lia; apply Ht3; lia]|].
  split; [apply Hl3; lia|].
  destruct (decide (left < right)); [auto | replace right with left by lia; apply Hl3; lia].
Qed.

(** X9: when a grid with at least one live cell is maintained with
    [trim_now] true, the margins come out exact: row [N] and the row [S]
    short of the last hold a live cell, column [W] and the column [E]
    short of the last hold one, and nothing is alive outside them.  The
    array is the bounding box of the live cells plus the four margins. *)
Theorem maintainMargin_trim_fits_live_region :
  forall (gr gr' : Grid),
    well_formed gr -> margins_ok (margins gr) ->
    (exists r c, alive_at (rows gr) r c = true) ->
    _maintainMargin gr true = Ok gr' ->
    margin_respected gr' /\
    ~ row_dead (rows gr') (mN (margins gr')) /\
    ~ row_dead (rows gr') (fst (extent gr') - mS (margins gr') - 1) /\
    ~ col_dead (rows gr') (mW (margins gr')) /\
    ~ col_dead (rows gr') (snd (extent gr') - mE (margins gr') - 1).
Proof.
  intros gr gr' Hwf Hm (r0 & c0 & Hlive) Hrun.
  destruct (maintainMargin_margin_respected gr true Hwf Hm) as (g1 & Hrun1 & _ & _ & Hresp).
  rewrite Hrun in Hrun1. injection Hrun1 as <-.
  destruct (maintainMargin_tight gr true Hwf Hm)
    as (top & bottom & left & right & g2 & HB & Hbt & Hrt & Hrun2 & _ & Hm' & Hext & Ha).
  rewrite Hrun in Hrun2. injection Hrun2 as <-.
  destruct (live_bounds_of_live_grid _ _ _ _ _ _ _ _ _ Hwf HB Hbt Hrt Hlive)
    as (_ & Hnt & Hnb & Hnl & Hnr).
  pose proof (adjustment_trim (mN (margins gr) - top)) as EN.
  pose proof (adjustment_trim (mS (margins gr) - (fst (extent gr) - bottom - 1))) as ES.
  pose proof (adjustment_trim (mW (margins gr) - left)) as EW.
  pose proof (adjustment_trim (mE (margins gr) - (snd (extent gr) - right - 1))) as EE.
  rewrite Hm', Hext. simpl.
  split; [exact Hresp|].
  split; [|split; [|split]]; intros Hd.
  - apply Hnt. intros c. specialize (Hd (c + (mW (margins gr) - left))).
    rewrite Ha in Hd. rewrite <- Hd. f_equal; lia.
  - apply Hnb. intros c. specialize (Hd (c + (mW (margins gr) - left))).
    rewrite Ha in Hd. rewrite <- Hd. f_equal; lia.
  - apply Hnl. intros r. specialize (Hd (r + (mN (margins gr) - top))).
    rewrite Ha in Hd. rewrite <- Hd. f_equal; lia.
  - apply Hnr. intros r. specialize (Hd (r + (mN (margins gr) - top))).
    rewrite Ha in Hd. rewrite <- Hd. f_equal; lia.
Qed.

Lemma maintainMargin_trim_fits_live_region_witness :
  well_formed corner_grid_applied /\ margins_ok (margins corner_grid_applied) /\
  (exists r c, alive_at (rows corner_grid_applied) r c = true) /\
  _maintainMargin corner_grid_applied true = Ok corner_grid_applied /\
  (margin_respected corner_grid_applied /\
   ~ row_dead (rows corner_grid_applied) (mN (margins corner_grid_applied)) /\
   ~ row_dead (rows corner_grid_applied)
       (fst (extent corner_grid_applied) - mS (margins corner_grid_applied) - 1) /\
   ~ col_dead (rows corner_grid_applied) (mW (margins corner_grid_applied)) /\
   ~ col_dead (rows corner_grid_applied)
       (snd (extent corner_grid_applied) - mE (margins corner_grid_applied) - 1)).
Proof.
  assert (Hwf : well_formed corner_grid_applied).
  { split; [reflexivity|]. split; [simpl; lia|]. repeat constructor. }
  assert (Hm : margins_ok (margins corner_grid_applied)).
  { unfold margins_ok. simpl. lia. }
  assert (Hlive : exists r c, alive_at (rows corner_grid_applied) r c = true).
  { exists 1, 1. reflexivity. }
  assert (Hrun : _maintainMargin corner_grid_applied true = Ok corner_grid_applied).
  { vm_compute. reflexivity. }
  split; [exact Hwf|]. split; [exact Hm|]. split; [exact Hlive|]. split; [exact Hrun|].
  exact (maintainMargin_trim_fits_live_region corner_grid_applied corner_grid_applied
           Hwf Hm Hlive Hrun).
Defined.

Lemma bounds_of_dead_grid rs nr nc top bottom left right :
  (forall r c, alive_at rs r c = false) ->
  live_bounds rs nr nc top bottom left right ->
  top = nr /\ bottom = nr - 1 /\ left = nc /\ right = nc - 1.
Proof.
  intros Hd ((Ht1 & _ & Ht3) & (Hb1 & _) & (Hl1 & _ & Hl3) & (Hr1 & _)).
  assert (top = nr).
  { destruct (decide (top < nr)) as [Hlt|]; [|lia].
    exfalso. apply (Ht3 Hlt). intros c. apply Hd. }
  assert (left = nc).
  { destruct (decide (left < nc)) as [Hlt|]; [|lia].
    exfalso. apply (Hl3 Hlt). intros r. apply Hd. }
  lia.
Qed.

(** The scans' results are determined by where the live rows and
    columns begin and end. *)
Lemma bounds_of_live_grid rs nr nc top bottom left right T B L R :
  live_bounds rs nr nc top bottom left right ->
  (top < bottom -> ~ row_dead rs bottom) ->
  (left < right -> ~ col_dead rs right) ->
  T <= B < nr -> L <= R < nc ->
  (forall r, r < T -> row_dead rs r) -> ~ row_dead rs T ->
  (forall r, B < r -> row_dead rs r) -> ~ row_dead rs B ->
  (forall c, c < L -> col_dead rs c) -> ~ col_dead rs L ->
  (forall c, R < c -> col_dead rs c) -> ~ col_dead rs R ->
  top = T /\ bottom = B /\ left = L /\ right = R.
Proof.
  intros ((Ht1 & Ht2 & Ht3) & (Hb1 & Hb2) & (Hl1 & Hl2 & Hl3) & (Hr1 & Hr2))
    Hbt Hrt HTB HLR HT1 HT2 HB1 HB2 HL1 HL2 HR1 HR2.
  assert (top = T).
  { destruct (decide (top < T)); [exfalso; apply Ht3; [lia | apply HT1; lia]|].
    destruct (decide (T < top)); [exfalso; apply HT2, Ht2; lia | lia]. }
  assert (bottom = B).
  { destruct (decide (bottom < B)); [exfalso; apply HB2, Hb2; lia|].
    destruct (decide (B < bottom)); [exfalso; apply Hbt; [lia | apply HB1; lia] | lia]. }
  assert (left = L).
  { destruct (decide (left < L)); [exfalso; apply Hl3; [lia | apply HL1; lia]|].
    destruct (decide (L < left)); [exfalso; apply HL2, Hl2; lia | lia]. }
  assert (right = R).
  { destruct (decide (right < R)); [exfalso; apply HR2, Hr2; lia|].
    destruct (decide (R < right)); [exfalso; apply Hrt; [lia | apply HR1; lia] | lia]. }
  auto.
Qed.

(** Whether the scans found a live row decides whether the grid has
    live cells at all. *)
Lemma live_bounds_dead_or_live rs nr nc top bottom left right :
  rect rs nr nc ->
  live_bounds rs nr nc top bottom left right ->
  (top < bottom -> ~ row_dead rs bottom) ->
  (left < right -> ~ col_dead rs right) ->
  (forall r c, alive_at rs r c = false) \/
  (top <= bottom < nr /\ left <= right < nc /\
   ~ row_dead rs top /\ ~ row_dead rs bottom /\
   ~ col_dead rs left /\ ~ col_dead rs right).
Proof.
  intros Hrect HB Hbt Hrt. pose proof HB as
    ((Ht1 & Ht2 & Ht3) & (Hb1 & Hb2) & (Hl1 & Hl2 & Hl3) & (Hr1 & Hr2)).
  assert (Hrows : top = nr -> forall r c, alive_at rs r c = false).
  { intros -> r c. destruct (decide (r < nr)); [now apply Ht2|].
    eapply alive_at_outside; [exact Hrect | lia]. }
  assert (Hcols : left = nc -> forall r c, alive_at rs r c = false).
  { intros -> r c. destruct (decide (c < nc)); [now apply Hl2|].
    eapply alive_at_outside; [exact Hrect | lia]. }
  destruct (decide (top < nr)) as [Htop|Htop]; [|left; apply Hrows; lia].
  destruct (decide (left < nc)) as [Hleft|Hleft].
  2:{ exfalso. apply (Ht3 Htop). intros c. apply Hcols. lia. }
  assert (top <= bottom).
  { destruct (decide (top <= bottom)); [assumption|].
    exfalso. apply (Ht3 Htop), Hb2. lia. }
  assert (left <= right).
  { destruct (decide (left <= right)); [assumption|].
    exfalso. apply (Hl3 Hleft), Hr2. lia. }
  right. split; [lia|]. split; [lia|].
  split; [now apply Ht3|].
  split; [destruct (decide (top < bottom));
            [auto | replace bottom with top by lia; now apply Ht3]|].
  split; [now apply Hl3|].
  destruct (decide (left < right)); [auto | replace right with left by lia; now apply Hl3].
Qed.

Lemma row_dead_shift rs rs' a b r :
  (forall r c, alive_at rs' r c = alive_at rs (r - a) (c - b)) ->
  row_dead rs' r <-> row_dead rs (r - a).
Proof.
  intros H. split; intros Hd c.
  - specialize (Hd (c + b)). rewrite H in Hd. rewrite <- Hd. f_equal. lia.
  - rewrite H. apply Hd.
Qed.

Lemma col_dead_shift rs rs' a b c :
  (forall r c, alive_at rs' r c = alive_at rs (r - a) (c - b)) ->
  col_dead rs' c <-> col_dead rs (c - b).
Proof.
  intros H. split; intros Hd r.
  - specialize (Hd (r + a)). rewrite H in Hd. rewrite <- Hd. f_equal. lia.
  - rewrite H. apply Hd.
Qed.

(** X10: margin maintenance with [trim_now] true is idempotent: run on
    its own result it returns that result unchanged, whether or not the
    grid has live cells. *)
Theorem maintainMargin_trim_idempotent :
  forall (gr gr' : Grid),
    well_formed gr -> margins_ok (margins gr) ->
    _maintainMargin gr true = Ok gr' ->
    _maintainMargin gr' true = Ok gr'.
Proof.
  intros gr gr' Hwf Hm Hrun.
  destruct (maintainMargin_tight gr true Hwf Hm)
    as (top & bottom & left & right & g1 & HB & Hbt & Hrt & Hrun1 & Hwf1 & Hm1 & Hext1 & Ha1).
  rewrite Hrun in Hrun1. injection Hrun1 as <-.
  assert (Hm' : margins_ok (margins gr')) by now rewrite Hm1.
  destruct (maintainMargin_tight gr' true Hwf1 Hm')
    as (t2 & b2 & l2 & r2 & g2 & HB2 & Hbt2 & Hrt2 & Hrun2 & Hwf2 & Hm2 & Hext2 & Ha2).
  rewrite Hrun2. f_equal.
  rewrite !adjustment_trim in Ha1. rewrite !adjustment_trim in Ha2.
  pose proof (adjustment_trim (mN (margins gr) - top)) as EN.
  pose proof (adjustment_trim (mS (margins gr) - (fst (extent gr) - bottom - 1))) as ES.
  pose proof (adjustment_trim (mW (margins gr) - left)) as EW.
  pose proof (adjustment_trim (mE (margins gr) - (snd (extent gr) - right - 1))) as EE.
  pose proof (adjustment_trim (mN (margins gr') - t2)) as EN2.
  pose proof (adjustment_trim (mS (margins gr') - (fst (extent gr') - b2 - 1))) as ES2.
  pose proof (adjustment_trim (mW (margins gr') - l2)) as EW2.
  pose proof (adjustment_trim (mE (margins gr') - (snd (extent gr') - r2 - 1))) as EE2.
  destruct Hm as (HmN & HmE & HmS & HmW).
  destruct (extent gr') as [nr' nc'] eqn:Egr'. simpl in *.
  apply pair_equal_spec in Hext1 as [Hnr' Hnc'].
  destruct (live_bounds_dead_or_live _ _ _ _ _ _ _ Hwf HB Hbt Hrt)
    as [Hdead|(HTB & HLR & Hnt & Hnb & Hnl & Hnr)].
  - (* no live cell *)
    destruct (bounds_of_dead_grid _ _ _ _ _ _ _ Hdead HB) as (-> & -> & -> & ->).
    assert (Hdead' : forall r c, alive_at (rows gr') r c = false).
    { intros r c. rewrite Ha1. apply Hdead. }
    destruct (bounds_of_dead_grid _ _ _ _ _ _ _ Hdead' HB2) as (-> & -> & -> & ->).
    apply grid_ext; [exact Hwf2 | exact Hwf1 | | exact Hm2 |].
    + rewrite Hext2, Egr'. apply pair_equal_spec. rewrite Hm1 in *. lia.
    + intros r c. rewrite Ha2. now rewrite !Hdead'.
  - (* bounding box of the live cells *)
    pose proof HB as ((Ht1 & Ht2 & Ht3) & (Hb1 & Hb2) & (Hl1 & Hl2 & Hl3) & (Hr1 & Hr2)).
    destruct (bounds_of_live_grid (rows gr') nr' nc' t2 b2 l2 r2
                (mN (margins gr)) (mN (margins gr) - top + bottom)
                (mW (margins gr)) (mW (margins gr) - left + right))
      as (-> & -> & -> & ->); try assumption; try lia.
    + intros r Hr. apply (row_dead_shift _ _ _ _ r Ha1), Ht2. lia.
    + intros Hd. apply (row_dead_shift _ _ _ _ _ Ha1) in Hd.
      apply Hnt. replace top with (mN (margins gr) - (mN (margins gr) - top)) by lia.
      exact Hd.
    + intros r Hr. apply (row_dead_shift _ _ _ _ r Ha1), Hb2. lia.
    + intros Hd. apply (row_dead_shift _ _ _ _ _ Ha1) in Hd.
      apply Hnb.
      replace bottom with (mN (margins gr) - top + bottom - (mN (margins gr) - top)) by lia.
      exact Hd.
    + intros c Hc. apply (col_dead_shift _ _ _ _ c Ha1), Hl2. lia.
    + intros Hd. apply (col_dead_shift _ _ _ _ _ Ha1) in Hd.
      apply Hnl. replace left with (mW (margins gr) - (mW (margins gr) - left)) by lia.
      exact Hd.
    + intros c Hc. apply (col_dead_shift _ _ _ _ c Ha1), Hr2. lia.
    + intros Hd. apply (col_dead_shift _ _ _ _ _ Ha1) in Hd.
      apply Hnr.
      replace right with (mW (margins gr) - left + right - (mW (margins gr) - left)) by lia.
      exact Hd.
    + apply grid_ext; [exact Hwf2 | exact Hwf1 | | exact Hm2 |].
      * rewrite Hext2, Egr'. apply pair_equal_spec. rewrite Hm1 in *. lia.
      * intros r c. rewrite Ha2, Hm1. f_equal; lia.
Qed.

Lemma maintainMargin_trim_idempotent_witness :
  well_formed dead_grid /\ margins_ok (margins dead_grid) /\
  _maintainMargin dead_grid true =
    Ok (mkGrid (replicate 4 (replicate 6 dead_cell)) (4, 6) (mkMargins 2 3 2 3)) /\
  _maintainMargin
    (mkGrid (replicate 4 (replicate 6 dead_cell)) (4, 6) (mkMargins 2 3 2 3)) true =
    Ok (mkGrid (replicate 4 (replicate 6 dead_cell)) (4, 6) (mkMargins 2 3 2 3)).
Proof.
  assert (Hwf : well_formed dead_grid).
  { apply (rect_replicate 10 20); lia. }
  assert (Hm : margins_ok (margins dead_grid)).
  { unfold margins_ok. simpl. lia. }
  assert (Hrun : _maintainMargin dead_grid true =
    Ok (mkGrid (replicate 4 (replicate 6 dead_cell)) (4, 6) (mkMargins 2 3 2 3))).
  { vm_compute. reflexivity. }
  split; [exact Hwf|]. split; [exact Hm|]. split; [exact Hrun|].
  exact (maintainMargin_trim_idempotent dead_grid _ Hwf Hm Hrun).
Defined.

Lemma margin_rows_dead gr r :
  margin_respected gr ->
  r < mN (margins gr) \/ fst (extent gr) - mS (margins gr) <= r ->
  row_dead (rows gr) r.
Proof.
  intros Hresp Hr c. destruct (alive_at (rows gr) r c) eqn:E; [|reflexivity].
  apply Hresp in E. lia.
Qed.

Lemma margin_cols_dead gr c :
  margin_respected gr ->
  c < mW (margins gr) \/ snd (extent gr) - mE (margins gr) <= c ->
  col_dead (rows gr) c.
Proof.
  intros Hresp Hc r. destruct (alive_at (rows gr) r c) eqn:E; [|reflexivity].
  apply Hresp in E. lia.
Qed.

(** X11: on a grid that keeps its margins and has a live cell, margin
    maintenance with [trim_now] false changes nothing, and so does
    [applyPoints] with no points: excess margin is left alone. *)
Theorem maintainMargin_deferred_keeps_sound_grid :
  forall gr : Grid,
    grid_inv gr ->
    (exists r c, alive_at (rows gr) r c = true) ->
    _maintainMargin gr false = Ok gr /\ applyPoints gr [] false = Ok gr.
Proof.
  intros gr (Hwf & Hm & Hresp) (r0 & c0 & Hlive).
  assert (Hgoal : _maintainMargin gr false = Ok gr); [|split; exact Hgoal].
  destruct (maintainMargin_tight gr false Hwf Hm)
    as (top & bottom & left & right & g2 & HB & Hbt & Hrt & Hrun & Hwf2 & Hm2 & Hext & Ha).
  rewrite Hrun. f_equal.
  destruct (live_bounds_of_live_grid _ _ _ _ _ _ _ _ _ Hwf HB Hbt Hrt Hlive)
    as (_ & Hnt & Hnb & Hnl & Hnr).
  assert (mN (margins gr) <= top).
  { destruct (decide (mN (margins gr) <= top)); [assumption|].
    exfalso. apply Hnt, margin_rows_dead; [exact Hresp | lia]. }
  assert (bottom < fst (extent gr) - mS (margins gr)).
  { destruct (decide (bottom < fst (extent gr) - mS (margins gr))); [assumption|].
    exfalso. apply Hnb, margin_rows_dead; [exact Hresp | lia]. }
  assert (mW (margins gr) <= left).
  { destruct (decide (mW (margins gr) <= left)); [assumption|].
    exfalso. apply Hnl, margin_cols_dead; [exact Hresp | lia]. }
  assert (right < snd (extent gr) - mE (margins gr)).
  { destruct (decide (right < snd (extent gr) - mE (margins gr))); [assumption|].
    exfalso. apply Hnr, margin_cols_dead; [exact Hresp | lia]. }
  pose proof (adjustment_defer (mN (margins gr) - top)) as EN.
  pose proof (adjustment_defer (mS (margins gr) - (fst (extent gr) - bottom - 1))) as ES.
  pose proof (adjustment_defer (mW (margins gr) - left)) as EW.
  pose proof (adjustment_defer (mE (margins gr) - (snd (extent gr) - right - 1))) as EE.
  apply grid_ext; [exact Hwf2 | exact Hwf | | exact Hm2 |].
  - rewrite Hext. destruct (extent gr) as [nr nc]. simpl in *.
    apply pair_equal_spec. lia.
  - intros r c. rewrite Ha. f_equal; lia.
Qed.

Lemma maintainMargin_deferred_keeps_sound_grid_witness :
  grid_inv (g blinker_game) /\
  (exists r c, alive_at (rows (g blinker_game)) r c = true) /\
  _maintainMargin (g blinker_game) false = Ok (g blinker_game) /\
  applyPoints (g blinker_game) [] false = Ok (g blinker_game).
Proof.
  assert (Hlive : exists r c, alive_at (rows (g blinker_game)) r c = true).
  { exists 5, 10. reflexivity. }
  split; [exact blinker_game_grid_inv|]. split; [exact Hlive|].
  exact (maintainMargin_deferred_keeps_sound_grid (g blinker_game)
           blinker_game_grid_inv Hlive).
Defined.

(** ** Ticks as generations of Life on the unbounded plane *)

Lemma life_step_ext f f' :
  (forall r c, f r c = f' r c) -> forall r c, life_step f r c = life_step f' r c.
Proof.
  intros H r c. unfold life_step. now rewrite H, (moore_count_ext f f' r c H).
Qed.

Lemma life_step_shift f f' dr dc :
  (forall r c, f' (r + dr) (c + dc) = f r c) ->
  forall r c, life_step f' (r + dr) (c + dc) = life_step f r c.
Proof.
  intros H r c. unfold life_step, moore_count.
  replace (r + dr - 1) with (r - 1 + dr) by lia.
  replace (r + dr + 1) with (r + 1 + dr) by lia.
  replace (c + dc - 1) with (c - 1 + dc) by lia.
  replace (c + dc + 1) with (c + 1 + dc) by lia.
  now rewrite !H.
Qed.

Lemma life_steps_shift n :
  forall f f' dr dc,
    (forall r c, f' (r + dr) (c + dc) = f r c) ->
    forall r c, life_steps n f' (r + dr) (c + dc) = life_steps n f r c.
Proof.
  induction n as [|n IH]; intros f f' dr dc H r c; simpl; [apply H|].
  apply IH. now apply life_step_shift.
Qed.

(** Inside a grid that keeps its margins, recomputing the cells of the
    extent is the generation of the whole plane: no cell outside the
    array has a live neighbour. *)
Lemma next_generation_is_life_step gr r c :
  grid_inv gr ->
  alive_at (next_generation (alive_at (rows gr)) (fst (extent gr)) (snd (extent gr))) r c =
  life_step (alive_at (rows gr)) r c.
Proof.
  intros Hinv. pose proof Hinv as ((Hlen & Hnc & _) & _).
  assert (Hnr : 0 <= fst (extent gr)) by (rewrite <- Hlen; apply len_nonneg).
  destruct (decide (0 <= r < fst (extent gr) /\ 0 <= c < snd (extent gr))) as [[Hr Hc]|Hout].
  - now apply alive_at_next_generation.
  - rewrite alive_at_next_generation_outside by assumption.
    unfold life_step, moore_count.
    rewrite !(margin_border_dead gr) by (auto; lia). reflexivity.
Qed.

Lemma tick_life_step gm :
  grid_inv (g gm) ->
  exists gm' dr dc,
    tick gm = Ok gm' /\ grid_inv (g gm') /\ tickCount gm' = tickCount gm + 1 /\
    forall r c,
      alive_at (rows (g gm')) (r + dr) (c + dc) = life_step (alive_at (rows (g gm))) r c.
Proof.
  intros Hinv. destruct (tick_succeeds gm Hinv) as (gm' & Htick).
  pose proof Htick as Htick'.
  apply tick_inv in Htick' as (ts & _ & Happ & Htc).
  pose proof Hinv as (Hwf & Hm & _).
  pose proof (applyPoints_grid_inv _ _ _ _ Hwf Hm Happ) as Hinv'.
  rewrite (tick_eq_reference gm Hinv) in Htick. unfold tick_reference in Htick.
  apply bind_Ok in Htick as (g' & Hrun & [= <-]). simpl in *.
  set (board := next_generation _ _ _) in *.
  destruct (maintainMargin_spec (set_rows (g gm) board) (trim_flag (tickCount gm)))
    as (top & bottom & left & right & g2 & _ & Hrun' & _ & _ & _ & Ha).
  { pose proof Hwf as (Hr & Hnc & _). unfold well_formed. simpl.
    apply rect_next_generation; [|exact Hnc]. rewrite <- Hr. apply len_nonneg. }
  { exact Hm. }
  rewrite Hrun in Hrun'. injection Hrun' as <-. cbv zeta in Ha. simpl in Ha.
  exists (mkGameOfLife g' (tickCount gm + 1)),
    (adjustment (trim_flag (tickCount gm)) (mN (margins (g gm)) - top)),
    (adjustment (trim_flag (tickCount gm)) (mW (margins (g gm)) - left)).
  split; [rewrite (tick_eq_reference gm Hinv); unfold tick_reference;
          fold board; rewrite Hrun; reflexivity|].
  simpl. split; [exact Hinv'|]. split; [reflexivity|].
  intros r c. rewrite Ha. subst board.
  rewrite <- (next_generation_is_life_step (g gm) r c Hinv). f_equal; lia.
Qed.

(** X12: in every state a game can reach, a tick returns, and the grid
    it leaves holds exactly one generation of Conway's Life computed on
    the unbounded plane from the grid before it (cells outside the array
    counted as dead), moved by the offset that resizing introduced. *)
Theorem tick_is_life_step_up_to_translation :
  forall gm : GameOfLife,
    reachable gm ->
    exists gm' dr dc,
      tick gm = Ok gm' /\ reachable gm' /\ tickCount gm' = tickCount gm + 1 /\
      forall r c,
        alive_at (rows (g gm')) (r + dr) (c + dc) =
        life_step (alive_at (rows (g gm))) r c.
Proof.
  intros gm Hreach. destruct (reachable_inv gm Hreach) as [Hinv _].
  destruct (tick_life_step gm Hinv) as (gm' & dr & dc & Htick & _ & Htc & Ha).
  exists gm', dr, dc. split; [exact Htick|].
  split; [exact (reach_tick gm gm' Hreach Htick)|]. auto.
Qed.

Lemma tick_is_life_step_up_to_translation_witness :
  reachable blinker_game /\
  exists gm' dr dc,
    tick blinker_game = Ok gm' /\ reachable gm' /\
    tickCount gm' = tickCount blinker_game + 1 /\
    forall r c,
      alive_at (rows (g gm')) (r + dr) (c + dc) =
      life_step (alive_at (rows (g blinker_game))) r c.
Proof.
  assert (Hreach : reachable blinker_game).
  { apply (reach_init (10, 20) (mkMargins 2 3 2 3) (py_str "XXX")).
    vm_compute. reflexivity. }
  split; [exact Hreach|].
  exact (tick_is_life_step_up_to_translation blinker_game Hreach).
Defined.

(** X13: any number of successive [tick] calls from a state a game can
    reach never raises: they end in a reachable state, with [tickCount]
    advanced by the number of calls, whose grid holds that many
    generations of Life of the starting grid on the unbounded plane, up
    to one translation. *)
Theorem ticks_play_generations_of_life :
  forall (n : nat) (gm : GameOfLife),
    reachable gm ->
    exists gm' dr dc,
      ticks n gm = Ok gm' /\ reachable gm' /\
      tickCount gm' = tickCount gm + Z.of_nat n /\
      forall r c,
        alive_at (rows (g gm')) (r + dr) (c + dc) =
        life_steps n (alive_at (rows (g gm))) r c.
Proof.
  unfold ticks. induction n as [|n IH]; intros gm Hreach; simpl.
  - exists gm, 0, 0. split; [reflexivity|]. split; [exact Hreach|].
    split; [lia|]. intros r c. now rewrite !Z.add_0_r.
  - destruct (reachable_inv gm Hreach) as [Hinv _].
    destruct (tick_life_step gm Hinv) as (gm1 & d1r & d1c & Htick & _ & Htc1 & Ha1).
    rewrite Htick. simpl.
    destruct (IH gm1 (reach_tick gm gm1 Hreach Htick))
      as (gm' & d2r & d2c & Hrun & Hreach' & Htc2 & Ha2).
    exists gm', (d1r + d2r), (d1c + d2c). split; [exact Hrun|]. split; [exact Hreach'|].
    split; [rewrite Htc2, Htc1; lia|].
    intros r c. rewrite !Z.add_assoc, Ha2.
    apply (life_steps_shift n _ _ d1r d1c Ha1).
Qed.

Lemma ticks_play_generations_of_life_witness :
  reachable blinker_game /\
  exists gm' dr dc,
    ticks 7 blinker_game = Ok gm' /\ reachable gm' /\
    tickCount gm' = tickCount blinker_game + Z.of_nat 7 /\
    forall r c,
      alive_at (rows (g gm')) (r + dr) (c + dc) =
      life_steps 7 (alive_at (rows (g blinker_game))) r c.
Proof.
  assert (Hreach : reachable blinker_game).
  { apply (reach_init (10, 20) (mkMargins 2 3 2 3) (py_str "XXX")).
    vm_compute. reflexivity. }
  split; [exact Hreach|].
  exact (ticks_play_generations_of_life 7 blinker_game Hreach).
Defined.

(** ** Patterns and seeding *)

Lemma elem_of_concat {A} (ls : list (list A)) x :
  x ∈ concat ls <-> exists l, l ∈ ls /\ x ∈ l.
Proof.
  induction ls as [|l ls IH]; simpl.
  - split; [intros H; inversion H | intros (l & H & _); inversion H].
  - rewrite elem_of_app, IH. split.
    + intros [H|(k & Hk & H)]; [exists l; split; [left | exact H] |
                                 exists k; split; [now right | exact H]].
    + intros (k & Hk & H). apply elem_of_cons in Hk as [->|Hk]; [now left | right; eauto].
Qed.

Lemma elem_of_Pattern_init pattern p :
  p ∈ points (Pattern_init pattern) <->
  exists i j seg ch,
    split "/" (strip "/" pattern) !! i = Some seg /\ seg !! j = Some ch /\
    p = _mkPoint (Z.of_nat i) (Z.of_nat j) ch.
Proof.
  unfold Pattern_init. simpl. rewrite elem_of_concat. split.
  - intros (l & Hl & Hp). apply elem_of_lookup_imap in Hl as (i & seg & -> & Hseg).
    apply elem_of_lookup_imap in Hp as (j & ch & -> & Hch). eauto 8.
  - intros (i & j & seg & ch & Hseg & Hch & ->).
    eexists. split.
    + apply elem_of_lookup_imap. exists i, seg. split; [reflexivity | exact Hseg].
    + apply elem_of_lookup_imap. exists j, ch. split; [reflexivity | exact Hch].
Qed.

Lemma lstrip_decompose ch (s : str) :
  exists n, s = replicate n ch ++ lstrip ch s /\ forall t, lstrip ch s <> ch :: t.
Proof.
  induction s as [|a s (n & IH1 & IH2)]; simpl.
  - exists 0%nat. split; [reflexivity | discriminate].
  - destruct (Ascii.eqb a ch) eqn:E.
    + apply Ascii.eqb_eq in E as ->. exists (S n). split; [|exact IH2].
      simpl. now rewrite <- IH1.
    + exists 0%nat. split; [reflexivity|]. intros t [= -> _].
      now rewrite Ascii.eqb_refl in E.
Qed.

Lemma rstrip_decompose ch (s : str) :
  exists m, s = rstrip ch s ++ replicate m ch /\
            (forall t, rstrip ch s <> t ++ [ch]) /\
            ((forall t, s <> ch :: t) -> forall t, rstrip ch s <> ch :: t).
Proof.
  induction s as [|a s (m & IH1 & IH2 & _)]; simpl.
  - exists 0%nat. split; [reflexivity|]. split; [|auto].
    intros [|? ?]; discriminate.
  - destruct (rstrip ch s) as [|b t] eqn:Er.
    + destruct (Ascii.eqb a ch) eqn:E.
      * apply Ascii.eqb_eq in E as ->. exists (S m). simpl in *.
        split; [now rewrite <- IH1|]. split; [|discriminate].
        intros [|? ?]; discriminate.
      * exists m. simpl in *. split; [now rewrite <- IH1|].
        assert (Hne : a <> ch) by (intros ->; now rewrite Ascii.eqb_refl in E).
        split.
        -- intros [|x [|y u]]; simpl; intros [= ]; congruence.
        -- intros _ u [= ]. congruence.
    + exists m.
      split; [change (a :: s = a :: ((b :: t) ++ replicate m ch)); now rewrite <- IH1|].
      split.
      * intros [|x u]; simpl.
        -- discriminate.
        -- intros [= _ Hu]. exact (IH2 u Hu).
      * intros H u [= -> _]. exact (H s eq_refl).
Qed.

Lemma strip_decompose ch (s : str) :
  exists n m, s = replicate n ch ++ strip ch s ++ replicate m ch /\
              (forall t, strip ch s <> ch :: t) /\ (forall t, strip ch s <> t ++ [ch]).
Proof.
  destruct (lstrip_decompose ch s) as (n & H1 & H2).
  destruct (rstrip_decompose ch (lstrip ch s)) as (m & H3 & H4 & H5).
  exists n, m. unfold strip. split; [|split; [exact (H5 H2) | exact H4]].
  now rewrite <- H3.
Qed.

Lemma split_points (s : str) :
  forall R C,
    concat (imap (fun i seg =>
                    imap (fun j val =>
                            _mkPoint (R + Z.of_nat i)
                                     ((if i is O then C else 0) + Z.of_nat j) val) seg)
                 (split "/" s))
    = scan_points R C s.
Proof.
  induction s as [|a s IH]; intros R C; [reflexivity|]. simpl.
  destruct (Ascii.eqb a "/") eqn:E.
  - simpl. rewrite <- (IH (R + 1) 0). f_equal. apply imap_ext. intros i seg _. simpl.
    apply imap_ext. intros j val _. simpl. f_equal; [lia | now destruct i].
  - rewrite <- (IH R (C + 1)).
    destruct (split "/" s) as [|seg segs]; simpl.
    + unfold _mkPoint, GridPoint_init, fromChar. rewrite isAlive_state. simpl.
      do 2 f_equal; lia.
    + f_equal.
      { unfold _mkPoint, GridPoint_init, fromChar. rewrite isAlive_state. simpl.
        f_equal; lia. }
      f_equal. apply imap_ext. intros j val _. simpl. f_equal; lia.
Qed.

(** X14: [Pattern] reads its notation character by character.  Every
    notation is a run of "/", a core that neither starts nor ends with
    "/", and another run of "/"; the points built are exactly those of
    reading the core from row 0, column 0: each "/" starts the next row
    at column 0, and every other character, dead ones included, gives
    one point at the current row and column, alive unless the character
    is "." or a space. *)
Theorem Pattern_init_reads_notation_by_character :
  forall (pattern : str),
    exists (n m : nat) (core : str),
      pattern = replicate n "/"%char ++ core ++ replicate m "/"%char /\
      (forall t, core <> "/"%char :: t) /\ (forall t, core <> t ++ ["/"%char]) /\
      points (Pattern_init pattern) = scan_points 0 0 core.
Proof.
  intros pattern.
  destruct (strip_decompose "/" pattern) as (n & m & Hp & Hh & Hl).
  exists n, m, (strip "/" pattern). split; [exact Hp|]. split; [exact Hh|].
  split; [exact Hl|]. unfold Pattern_init. simpl.
  rewrite <- (split_points (strip "/" pattern) 0 0). f_equal.
  apply imap_ext. intros i seg _. simpl. apply imap_ext. intros j val _. simpl.
  f_equal. now destruct i.
Qed.

Lemma fold_extent_spec (l : list GridPoint) :
  forall a b,
    let e := fold_left (fun acc q => (Z.max (fst acc) (row q), Z.max (snd acc) (col q)))
                       l (a, b) in
    a <= fst e /\ b <= snd e /\
    (forall q, q ∈ l -> row q <= fst e /\ col q <= snd e) /\
    (fst e = a \/ exists q, q ∈ l /\ row q = fst e) /\
    (snd e = b \/ exists q, q ∈ l /\ col q = snd e).
Proof.
  induction l as [|x l IH]; intros a b; simpl.
  - split; [lia|]. split; [lia|]. split; [intros q Hq; inversion Hq|].
    split; left; reflexivity.
  - destruct (IH (Z.max a (row x)) (Z.max b (col x))) as (Ha & Hb & Hall & Hr & Hc).
    simpl in *.
    set (e := fold_left _ l _) in *.
    split; [lia|]. split; [lia|]. split; [|split].
    + intros q Hq. apply elem_of_cons in Hq as [->|Hq]; [lia | now apply Hall].
    + destruct Hr as [Hr|(q & Hq & Hr)]; [|right; exists q; split; [now right | exact Hr]].
      destruct (Z.max_spec a (row x)) as [[_ Hm]|[_ Hm]].
      * right. exists x. split; [left | lia].
      * left. lia.
    + destruct Hc as [Hc|(q & Hq & Hc)]; [|right; exists q; split; [now right | exact Hc]].
      destruct (Z.max_spec b (col x)) as [[_ Hm]|[_ Hm]].
      * right. exists x. split; [left | lia].
      * left. lia.
Qed.

(** X15: [getExtent] returns bounding indices, not counts: each
    component is at least 0, bounds the rows (columns) of every point
    from above, and is either 0 or the row (column) of some point; so
    for an empty pattern, and for points at negative coordinates, it
    reports 0. *)
Theorem Pattern_getExtent_is_clamped_maximum :
  forall p : Pattern,
    0 <= fst (Pattern_getExtent p) /\ 0 <= snd (Pattern_getExtent p) /\
    (forall q, q ∈ points p ->
       row q <= fst (Pattern_getExtent p) /\ col q <= snd (Pattern_getExtent p)) /\
    (fst (Pattern_getExtent p) = 0 \/
     exists q, q ∈ points p /\ row q = fst (Pattern_getExtent p)) /\
    (snd (Pattern_getExtent p) = 0 \/
     exists q, q ∈ points p /\ col q = snd (Pattern_getExtent p)).
Proof.
  intros p. unfold Pattern_getExtent. exact (fold_extent_spec (points p) 0 0).
Qed.

Lemma alive_at_true_lookup rs r c :
  alive_at rs r c = true ->
  exists line cell,
    0 <= r /\ 0 <= c /\ rs !! Z.to_nat r = Some line /\
    line !! Z.to_nat c = Some cell /\ isAlive cell = true.
Proof.
  unfold alive_at, row_alive. intros H.
  destruct (decide (0 <= r)); [|discriminate].
  destruct (rs !! Z.to_nat r) as [line|] eqn:Hl; [|discriminate].
  destruct (decide (0 <= c)); [|discriminate].
  destruct (line !! Z.to_nat c) as [cell|] eqn:Hc; [|discriminate].
  eauto 8.
Qed.

Lemma pattern_cells_lookup pattern i j seg ch :
  split "/" (strip "/" pattern) !! i = Some seg -> seg !! j = Some ch ->
  alive_at (pattern_cells pattern) (Z.of_nat i) (Z.of_nat j) = isAlive (fromChar ch).
Proof.
  intros Hseg Hch. unfold str in *. apply (alive_at_lookup _ _ _ (map fromChar seg)).
  - unfold pattern_cells. rewrite list_lookup_fmap. unfold str in *. now rewrite Hseg.
  - rewrite list_lookup_fmap. unfold str in *. now rewrite Hch.
Qed.

(** X16: constructing a game with a valid configuration and a pattern
    whose extent is below the grid's in both dimensions never raises, and
    the grid it starts from holds exactly the live characters of the
    notation, in their arrangement, moved by one offset (the centring
    plus whatever the margins added). *)
Theorem GameOfLife_init_places_pattern :
  forall (ext : Z * Z) (m : Margins) (pattern : str) (gr0 : Grid),
    Grid_init "inf" ext m = Ok gr0 ->
    fst (Pattern_getExtent (Pattern_init pattern)) < fst ext ->
    snd (Pattern_getExtent (Pattern_init pattern)) < snd ext ->
    exists gm dr dc,
      GameOfLife_init ext m pattern = Ok gm /\ reachable gm /\ tickCount gm = 0 /\
      forall r c,
        alive_at (rows (g gm)) (r + dr) (c + dc) = alive_at (pattern_cells pattern) r c.
Proof.
  intros ext m pattern gr0 Hgrid Hfit_r Hfit_c.
  pose proof (Grid_init_inv _ _ _ _ Hgrid) as (Hwf & Hm & Hdead & Hext & _).
  set (P := Pattern_init pattern) in *.
  destruct (Pattern_getExtent P) as [mr mc] eqn:EP.
  pose proof (fold_extent_spec (points P) 0 0) as (Hmr & Hmc & Hbound & _).
  fold (Pattern_getExtent P) in Hmr, Hmc, Hbound. rewrite EP in Hmr, Hmc, Hbound.
  simpl in Hfit_r, Hfit_c, Hmr, Hmc, Hbound.
  set (dr := (fst ext - mr) `div` 2).
  set (dc := (snd ext - mc) `div` 2).
  assert (Hdr : 0 <= dr /\ dr + mr < fst ext).
  { subst dr. Z.div_mod_to_equations. lia. }
  assert (Hdc : 0 <= dc /\ dc + mc < snd ext).
  { subst dc. Z.div_mod_to_equations. lia. }
  set (pts := map (point_moveBy (dr, dc)) (points P)).
  assert (Hpts : forall p', p' ∈ pts ->
            exists i j seg ch,
              split "/" (strip "/" pattern) !! i = Some seg /\ seg !! j = Some ch /\
              row p' = Z.of_nat i + dr /\ col p' = Z.of_nat j + dc /\
              isAlive (state p') = isAlive (fromChar ch) /\
              Z.of_nat i <= mr /\ Z.of_nat j <= mc).
  { intros p' Hp'. subst pts. apply list_elem_of_fmap in Hp' as (p & -> & Hp).
    destruct (Hbound p Hp) as [Hr Hc].
    apply elem_of_Pattern_init in Hp as (i & j & seg & ch & Hseg & Hch & ->).
    exists i, j, seg, ch. simpl in *. rewrite isAlive_state. simpl. auto 10. }
  destruct (set_points_spec pts gr0 Hwf) as (g1 & Hrun1 & Hwf1 & E1 & M1 & Hcells).
  { intros p' Hp'. destruct (Hpts p' Hp') as (i & j & _ & _ & _ & _ & -> & -> & _ & ? & ?).
    rewrite Hext. lia. }
  destruct (maintainMargin_spec g1 false Hwf1)
    as (top & bottom & left & right & g2 & _ & Hrun2 & _ & _ & _ & Ha).
  { now rewrite M1. }
  cbv zeta in Ha.
  assert (Hinit : GameOfLife_init ext m pattern = Ok (mkGameOfLife g2 0)).
  { unfold GameOfLife_init. eapply bind_eq; [exact Hgrid|].
    eapply bind_eq; [|reflexivity].
    unfold seedPattern. simpl negb. cbv iota. fold P. rewrite EP, Hext.
    change (applyPoints gr0 pts false = Ok g2).
    unfold applyPoints. eapply bind_eq; [exact Hrun1 | exact Hrun2]. }
  exists (mkGameOfLife g2 0), (dr + adjustment false (mN (margins g1) - top)),
    (dc + adjustment false (mW (margins g1) - left)).
  split; [exact Hinit|]. split; [exact (reach_init _ _ _ _ Hinit)|].
  split; [reflexivity|].
  intros r c. simpl. rewrite Ha.
  replace (r + (dr + adjustment false (mN (margins g1) - top)) -
           adjustment false (mN (margins g1) - top)) with (r + dr) by lia.
  replace (c + (dc + adjustment false (mW (margins g1) - left)) -
           adjustment false (mW (margins g1) - left)) with (c + dc) by lia.
  destruct (Hcells (r + dr) (c + dc)) as [[Heq Hnone]|(p' & Hp' & Hpr & Hpc & Heq)].
  - rewrite Heq, Hdead. symmetry.
    destruct (alive_at (pattern_cells pattern) r c) eqn:E; [|reflexivity].
    exfalso. apply alive_at_true_lookup in E as (line & cell & Hr & Hc & Hline & Hcell & _).
    unfold pattern_cells in Hline. rewrite list_lookup_fmap in Hline.
    apply fmap_Some in Hline as (seg & Hseg & ->).
    rewrite list_lookup_fmap in Hcell.
    apply fmap_Some in Hcell as (ch & Hch & _).
    apply (Hnone (point_moveBy (dr, dc)
                    (_mkPoint (Z.of_nat (Z.to_nat r)) (Z.of_nat (Z.to_nat c)) ch))).
    + subst pts. apply list_elem_of_fmap_2. apply elem_of_Pattern_init. eauto 8.
    + simpl. lia.
  - rewrite Heq.
    destruct (Hpts p' Hp') as (i & j & seg & ch & Hseg & Hch & Hr & Hc & -> & _).
    replace r with (Z.of_nat i) by lia. replace c with (Z.of_nat j) by lia.
    symmetry. exact (pattern_cells_lookup pattern i j seg ch Hseg Hch).
Qed.

Lemma GameOfLife_init_places_pattern_witness :
  Grid_init "inf" (10, 20) (mkMargins 2 3 2 3) = Ok dead_grid /\
  fst (Pattern_getExtent (Pattern_init (py_str ".X/..X/XXX"))) < fst (10, 20) /\
  snd (Pattern_getExtent (Pattern_init (py_str ".X/..X/XXX"))) < snd (10, 20) /\
  exists gm dr dc,
    GameOfLife_init (10, 20) (mkMargins 2 3 2 3) (py_str ".X/..X/XXX") = Ok gm /\
    reachable gm /\ tickCount gm = 0 /\
    forall r c,
      alive_at (rows (g gm)) (r + dr) (c + dc) =
      alive_at (pattern_cells (py_str ".X/..X/XXX")) r c.
Proof.
  assert (Hgrid : Grid_init "inf" (10, 20) (mkMargins 2 3 2 3) = Ok dead_grid).
  { vm_compute. reflexivity. }
  assert (Hr : fst (Pattern_getExtent (Pattern_init (py_str ".X/..X/XXX"))) < fst (10, 20)).
  { vm_compute. reflexivity. }
  assert (Hc : snd (Pattern_getExtent (Pattern_init (py_str ".X/..X/XXX"))) < snd (10, 20)).
  { vm_compute. reflexivity. }
  split; [exact Hgrid|]. split; [exact Hr|]. split; [exact Hc|].
  exact (GameOfLife_init_places_pattern (10, 20) (mkMargins 2 3 2 3)
           (py_str ".X/..X/XXX") dead_grid Hgrid Hr Hc).
Defined.

(** ** The raising lookup and the seed's errors *)

(** X17: [isCellAlive] and [getCell] read the same cell and differ only
    where a subscript is out of range: when the row is in
    [[-rowCount, rowCount)] and the column in [[-colCount, colCount)],
    [isCellAlive] returns the liveness of the cell [getCell] returns;
    otherwise [isCellAlive] raises [IndexError] where [getCell] returns
    a dead cell. *)
Theorem isCellAlive_raises_where_getCell_is_dead :
  forall (gr : Grid) (r c : Z),
    well_formed gr ->
    (subscript_ok (fst (extent gr)) r /\ subscript_ok (snd (extent gr)) c ->
     isCellAlive gr r c = Ok (isAlive (getCell gr r c)) /\
     isAlive (getCell gr r c) = wrapped_alive gr r c) /\
    (~ (subscript_ok (fst (extent gr)) r /\ subscript_ok (snd (extent gr)) c) ->
     isCellAlive gr r c = Raise IndexError /\ getCell gr r c = dead_cell).
Proof.
  intros gr r c Hwf. pose proof Hwf as (Hr & Hnc & Hc).
  unfold subscript_ok, isCellAlive, getCell. split.
  - intros [Hrow Hcol].
    destruct (py_index_succeeds (rows gr) r) as (k & Hk & Hklt); [unfold subscript_ok; lia|].
    destruct (lookup_lt_is_Some_2 _ _ Hklt) as [line Hl].
    assert (Hline : py_getitem (rows gr) r = Ok line).
    { unfold py_getitem. rewrite Hk. simpl. now rewrite Hl. }
    rewrite Forall_lookup in Hc. specialize (Hc _ _ Hl). simpl in Hc.
    destruct (py_index_succeeds line c) as (j & Hj & Hjlt); [unfold subscript_ok; lia|].
    destruct (lookup_lt_is_Some_2 _ _ Hjlt) as [cell Hcell].
    assert (Hget : py_getitem line c = Ok cell).
    { unfold py_getitem. rewrite Hj. simpl. now rewrite Hcell. }
    pose proof (getCell_alive gr r c Hwf) as Hg. unfold getCell in Hg.
    rewrite Hline in *. simpl in *. rewrite Hget in *. simpl in *.
    split; [reflexivity | exact Hg].
  - intros Hout.
    destruct (decide (- fst (extent gr) <= r < fst (extent gr))) as [Hrow|Hrow].
    + destruct (py_index_succeeds (rows gr) r) as (k & Hk & Hklt); [unfold subscript_ok; lia|].
      destruct (lookup_lt_is_Some_2 _ _ Hklt) as [line Hl].
      assert (Hline : py_getitem (rows gr) r = Ok line).
      { unfold py_getitem. rewrite Hk. simpl. now rewrite Hl. }
      rewrite Forall_lookup in Hc. specialize (Hc _ _ Hl). simpl in Hc.
      rewrite Hline. simpl. rewrite py_getitem_outside by lia. auto.
    + rewrite py_getitem_outside by lia. auto.
Qed.

Lemma isCellAlive_raises_where_getCell_is_dead_witness :
  well_formed corner_grid_applied /\
  isCellAlive corner_grid_applied (-2) (-2) = Ok true /\
  isCellAlive corner_grid_applied 3 0 = Raise IndexError /\
  ((subscript_ok (fst (extent corner_grid_applied)) (-2) /\
    subscript_ok (snd (extent corner_grid_applied)) (-2) ->
    isCellAlive corner_grid_applied (-2) (-2) =
      Ok (isAlive (getCell corner_grid_applied (-2) (-2))) /\
    isAlive (getCell corner_grid_applied (-2) (-2)) =
      wrapped_alive corner_grid_applied (-2) (-2)) /\
   (~ (subscript_ok (fst (extent corner_grid_applied)) (-2) /\
       subscript_ok (snd (extent corner_grid_applied)) (-2)) ->
    isCellAlive corner_grid_applied (-2) (-2) = Raise IndexError /\
    getCell corner_grid_applied (-2) (-2) = dead_cell)).
Proof.
  assert (Hwf : well_formed corner_grid_applied).
  { split; [reflexivity|]. split; [simpl; lia|]. repeat constructor. }
  split; [exact Hwf|]. split; [reflexivity|]. split; [reflexivity|].
  exact (isCellAlive_raises_where_getCell_is_dead corner_grid_applied (-2) (-2) Hwf).
Defined.

(** X18: on a sound grid [seedPattern] raises a [BaseException] exactly
    when the location is not "center" (whatever the pattern, and before
    the grid is read); with "center" the only error it can raise is the
    [IndexError] of a character that lands outside the array, and a seed
    that returns leaves a grid that keeps its margins. *)
Theorem seedPattern_errors :
  forall (gr : Grid) (pattern : str) (location : string),
    well_formed gr -> margins_ok (margins gr) ->
    (location <> "center"%string ->
     seedPattern gr pattern location = Raise (BaseException "bad pattern location!")) /\
    (location = "center"%string ->
     (forall e, seedPattern gr pattern location = Raise e -> e = IndexError) /\
     (forall gr', seedPattern gr pattern location = Ok gr' -> grid_inv gr')).
Proof.
  intros gr pattern location Hwf Hm. unfold seedPattern.
  destruct (String.eqb_spec location "center") as [->|Hne]; simpl negb; cbv iota.
  - split; [congruence|]. intros _. split.
    + intros e He. now apply (applyPoints_outcome gr _ false Hwf Hm) in He.
    + intros gr' Hok. eapply applyPoints_grid_inv; eauto.
  - split; [reflexivity | contradiction].
Qed.

Lemma seedPattern_errors_witness :
  well_formed dead_grid /\ margins_ok (margins dead_grid) /\
  seedPattern dead_grid (py_str "XXX") "north" =
    Raise (BaseException "bad pattern location!") /\
  seedPattern dead_grid (py_str "XXXXXXXXXXXXXXXXXXXXXXXXXXXXXXXXXXXXXXXXXXXXX") "center" =
    Raise IndexError /\
  (("north"%string <> "center"%string ->
    seedPattern dead_grid (py_str "XXX") "north" =
      Raise (BaseException "bad pattern location!")) /\
   ("north"%string = "center"%string ->
    (forall e, seedPattern dead_grid (py_str "XXX") "north" = Raise e -> e = IndexError) /\
    (forall gr', seedPattern dead_grid (py_str "XXX") "north" = Ok gr' -> grid_inv gr'))).
Proof.
  assert (Hwf : well_formed dead_grid).
  { apply (rect_replicate 10 20); lia. }
  assert (Hm : margins_ok (margins dead_grid)).
  { unfold margins_ok. simpl. lia. }
  split; [exact Hwf|]. split; [exact Hm|].
  split; [reflexivity|]. split; [vm_compute; reflexivity|].
  exact (seedPattern_errors dead_grid (py_str "XXX") "north" Hwf Hm).
Defined.
